(** * Math_AI_Agent: content gate, rank merger and response cache

    A shallow embedding of three Python modules of the backend,

      - [backend/ai_gateway.py]         (class [AIGateway]),
      - [backend/enhanced_retrieval.py] (class [EnhancedRetrieval]),
      - [backend/response_cache.py]     (class [ResponseCache]),

    together with the properties their specification states about them.

    Conventions of the embedding.

    - A Python [str] is a sequence of Unicode code points: [list N].
      ASCII literals are written [py "..."]; other symbols are given by
      their code point.
    - A Python [float] is the rational number it stands for ([Q]).
      The modules of the three classes compute on these numbers
      without rounding.  [PyFloat] has the binary64 rounding of
      Python's arithmetic, and [CacheCalls] and [RankMerger] are the
      expiry test and the merge with the float operations as a
      parameter, for the properties that depend on how a float
      operation rounds.
    - A Python [dict] is an insertion-ordered association list with
      unique keys, because the code iterates over its dictionaries
      ([min(...)], [sorted(combined.values())]).
    - [time.time()] is an input: each operation receives the clock
      readings it makes, in the order it makes them.
    - A raised exception is a value of an error monad. *)

From Stdlib Require Import List String Ascii Bool Arith NArith ZArith QArith Lia Lqa.
From Stdlib Require Import Qminmax Qround Qabs Sorted Permutation Floats.
Import ListNotations.

Set Implicit Arguments.

(* ================================================================== *)
(** * Python strings *)
(* ================================================================== *)

Module PyStr.

Local Open Scope N_scope.

Definition char := N.
Definition str := list char.

(** An ASCII literal as a Python string. *)
Definition py (s : string) : str :=
  List.map N_of_ascii (list_ascii_of_string s).

Definition nl : char := 10.
Definition space : char := 32.

(** [Py_UNICODE_ISSPACE]: the characters [str.strip()] removes and the
    class [\s] of a [str] pattern. *)
Definition is_space (c : char) : bool :=
  ((9 <=? c) && (c <=? 13)) || ((28 <=? c) && (c <=? 32))
  || (c =? 133) || (c =? 160) || (c =? 5760)
  || ((8192 <=? c) && (c <=? 8202))
  || (c =? 8232) || (c =? 8233) || (c =? 8239) || (c =? 8287)
  || (c =? 12288).

(** Character tables below are CPython's on the ASCII range, where the
    inputs of every concrete run in this file live; a code point above
    127 is taken to be caseless, and neither a digit nor a word
    character.  CPython's tables go on above 127 (U+212A lowers to "k",
    "e" with an accent is a word character, U+0660 is a digit): what
    depends on them there is stated for ASCII text. *)
Definition is_upper (c : char) : bool := (65 <=? c) && (c <=? 90).
Definition is_lower (c : char) : bool := (97 <=? c) && (c <=? 122).
Definition is_digit (c : char) : bool := (48 <=? c) && (c <=? 57).
Definition is_word (c : char) : bool :=
  is_upper c || is_lower c || is_digit c || (c =? 95).

Definition lower_char (c : char) : char := if is_upper c then c + 32 else c.

(** [s.lower()] *)
Definition lower (s : str) : str := List.map lower_char s.

Fixpoint str_eqb (a b : str) : bool :=
  match a, b with
  | [], [] => true
  | x :: a', y :: b' => (x =? y) && str_eqb a' b'
  | _, _ => false
  end.

(** [a < b] on strings: lexicographic on code points. *)
Fixpoint str_ltb (a b : str) : bool :=
  match a, b with
  | _, [] => false
  | [], _ :: _ => true
  | x :: a', y :: b' => (x <? y) || ((x =? y) && str_ltb a' b')
  end.

(** [s.startswith(p)] *)
Fixpoint startswith (p s : str) : bool :=
  match p, s with
  | [], _ => true
  | _ :: _, [] => false
  | x :: p', y :: s' => (x =? y) && startswith p' s'
  end.

(** [sub in s] *)
Fixpoint contains (sub s : str) : bool :=
  startswith sub s ||
  match s with
  | [] => false
  | _ :: s' => contains sub s'
  end.

(** [s.count(sub)]: occurrences found left to right without overlap.
    [skip] is the number of characters of the last occurrence still to
    be stepped over. *)
Fixpoint count_from (sub s : str) (skip : nat) : nat :=
  match s with
  | [] => match skip, sub with O, [] => 1%nat | _, _ => 0%nat end
  | _ :: s' =>
      match skip with
      | S k => count_from sub s' k
      | O => if startswith sub s
             then S (count_from sub s' (Nat.pred (List.length sub)))
             else count_from sub s' 0
      end
  end.

Definition count (s sub : str) : nat := count_from sub s 0.

(** [s.split(sep)] for a one-character separator. *)
Fixpoint split (sep : char) (s : str) : list str :=
  match s with
  | [] => [[]]
  | c :: s' =>
      if c =? sep then [] :: split sep s'
      else match split sep s' with
           | l :: ls => (c :: l) :: ls
           | [] => [[c]]
           end
  end.

(** [sep.join(parts)] *)
Fixpoint join (sep : str) (parts : list str) : str :=
  match parts with
  | [] => []
  | [p] => p
  | p :: ps => p ++ sep ++ join sep ps
  end.

Fixpoint lstrip (s : str) : str :=
  match s with
  | [] => []
  | c :: s' => if is_space c then lstrip s' else s
  end.

Definition rstrip (s : str) : str := rev (lstrip (rev s)).

(** [s.strip()] *)
Definition strip (s : str) : str := rstrip (lstrip s).

(** [s.split()]: the maximal runs of non-whitespace characters.  [cur]
    is the run being read, last character first. *)
Fixpoint words_from (cur : str) (s : str) : list str :=
  match s with
  | [] => match cur with [] => [] | _ :: _ => [rev cur] end
  | c :: s' =>
      if is_space c
      then match cur with
           | [] => words_from [] s'
           | _ :: _ => rev cur :: words_from [] s'
           end
      else words_from (c :: cur) s'
  end.

Definition words (s : str) : list str := words_from [] s.

(** [set(xs)] as the list of its distinct elements. *)
Fixpoint distinct (xs : list str) : list str :=
  match xs with
  | [] => []
  | x :: xs' => x :: filter (fun y => negb (str_eqb x y)) (distinct xs')
  end.

(** [s.replace(c, '')] for a one-character [c]. *)
Definition remove_char (c : char) (s : str) : str :=
  filter (fun x => negb (x =? c)) s.

(** [any(p(x) for x in xs)] *)
Definition any {A} (p : A -> bool) (xs : list A) : bool := existsb p xs.

End PyStr.

(* ================================================================== *)
(** * Numbers, sorting, exceptions and dictionaries *)
(* ================================================================== *)

Module Py.

Local Open Scope Q_scope.

(** An instance of Python's [Exception], by the name of its class. *)
Inductive exn : Type :=
| KeyError
| Exception (name : string).

(** The outcome of a call that may raise. *)
Inductive result (A : Type) : Type :=
| Return (a : A)
| Raise (e : exn).

Arguments Return {A} a.
Arguments Raise {A} e.

Definition bind {A B} (m : result A) (f : A -> result B) : result B :=
  match m with
  | Return a => f a
  | Raise e => Raise e
  end.

(** [try: body / except Exception as e: handler(e)] *)
Definition try_except {A} (body : result A) (handler : exn -> result A)
  : result A :=
  match body with
  | Return a => Return a
  | Raise e => handler e
  end.

Declare Scope py_scope.
Delimit Scope py_scope with py.
Notation "x <- m ;; k" := (bind m (fun x => k))
  (at level 61, m at next level, right associativity) : py_scope.

(** [x < y] on numbers. *)
Definition Qltb (x y : Q) : bool := negb (Qle_bool y x).

(** Python's [min(a, b)]: [b] when [b < a], else [a]. *)
Definition py_min (a b : Q) : Q := if Qltb b a then b else a.

Section Sorted.

Variable A : Type.
Variable key : A -> Q.

(** Put [x] in front of a list already in descending order of [key]:
    it passes the items with a larger key and stops before the first
    item whose key is not larger. *)
Fixpoint insert_desc (x : A) (l : list A) : list A :=
  match l with
  | [] => [x]
  | y :: l' =>
      if Qltb (key x) (key y) then y :: insert_desc x l' else x :: y :: l'
  end.

(** [sorted(l, key=key, reverse=True)].  Python's sort is stable, also
    with [reverse=True]: items with equal keys keep their order.  On
    keys that are totally ordered the result of a stable sort is unique,
    so the insertion sort below computes it. *)
Definition sorted_desc (l : list A) : list A :=
  fold_right insert_desc [] l.

End Sorted.

(** Keys of a dictionary: a type with a decidable equality ([==]). *)
Class Key (K : Type) : Type := key_eqb : K -> K -> bool.

#[export] Instance str_key : Key PyStr.str := PyStr.str_eqb.

(** [None] or a string, as a dictionary key. *)
#[export] Instance opt_str_key : Key (option PyStr.str) :=
  fun a b =>
    match a, b with
    | None, None => true
    | Some x, Some y => PyStr.str_eqb x y
    | _, _ => false
    end.

Section Dict.

Context {K : Type} `{Key K}.
Variable V : Type.

(** An insertion-ordered dictionary. *)
Definition dict := list (K * V).

Definition keys (d : dict) : list K := List.map fst d.
Definition values (d : dict) : list V := List.map snd d.

(** [d.get(k)] *)
Fixpoint get_item (k : K) (d : dict) : option V :=
  match d with
  | [] => None
  | (k', v) :: d' => if key_eqb k k' then Some v else get_item k d'
  end.

(** [k in d] *)
Definition mem (k : K) (d : dict) : bool :=
  match get_item k d with
  | Some _ => true
  | None => false
  end.

(** [d[k] = v]: an existing key keeps its place, a new one goes last. *)
Fixpoint set_item (k : K) (v : V) (d : dict) : dict :=
  match d with
  | [] => [(k, v)]
  | (k', v') :: d' =>
      if key_eqb k k' then (k', v) :: d' else (k', v') :: set_item k v d'
  end.

(** What [del d[k]] leaves when [k] is present. *)
Fixpoint remove (k : K) (d : dict) : dict :=
  match d with
  | [] => []
  | (k', v) :: d' => if key_eqb k k' then d' else (k', v) :: remove k d'
  end.

(** [del d[k]] *)
Definition del_item (k : K) (d : dict) : result dict :=
  if mem k d then Return (remove k d) else Raise KeyError.

End Dict.

End Py.

(* ================================================================== *)
(** * The fragment of [re] the gate uses *)
(* ================================================================== *)

Module Re.

Import PyStr.
Local Open Scope N_scope.

(** Patterns.  Every repetition in the source ranges over a character
    class, so repetition is given for classes only. *)
Inductive pattern : Type :=
| Class (p : char -> bool)          (* [...] , \d , \s , \w *)
| Lit (w : str)                     (* a literal word        *)
| Cat (r1 r2 : pattern)             (* r1 r2                 *)
| Alt (r1 r2 : pattern)             (* r1 | r2               *)
| Opt (r : pattern)                 (* r?                    *)
| Many (p : char -> bool)           (* [...]*                *)
| Many1 (p : char -> bool)          (* [...]+                *)
| WordBoundary.                     (* \b                    *)

(** [\b]: exactly one side of the position is a word character; outside
    the string counts as a non-word character. *)
Definition at_boundary (prev : option char) (s : str) : bool :=
  let w o := match o with Some c => is_word c | None => false end in
  xorb (w prev) (w (hd_error s)).

(** A match attempt answers with the input left after the match, or
    [None].  A continuation receives the character just consumed and the
    input that is left. *)
Definition cont := option char -> str -> option str.

Definition orelse (a b : option str) : option str :=
  match a with
  | Some _ => a
  | None => b
  end.

(** [many p k prev s]: consume characters of class [p], the most first
    (greedy), giving back one at a time until [k] succeeds. *)
Fixpoint many (p : char -> bool) (k : cont) (prev : option char) (s : str)
  : option str :=
  match s with
  | [] => k prev s
  | c :: s' =>
      if p c then orelse (many p k (Some c) s') (k prev s) else k prev s
  end.

Fixpoint lit (w : str) (k : cont) (prev : option char) (s : str)
  : option str :=
  match w with
  | [] => k prev s
  | x :: w' =>
      match s with
      | [] => None
      | c :: s' => if x =? c then lit w' k (Some c) s' else None
      end
  end.

(** [matches r k prev s]: the backtracking matcher at one position.
    [prev] is the character just before [s]; alternatives are tried left
    to right and repetitions greedily, as [re] does. *)
Fixpoint matches (r : pattern) (k : cont) (prev : option char) (s : str)
  : option str :=
  match r with
  | Class p =>
      match s with
      | [] => None
      | c :: s' => if p c then k (Some c) s' else None
      end
  | Lit w => lit w k prev s
  | Cat r1 r2 => matches r1 (matches r2 k) prev s
  | Alt r1 r2 => orelse (matches r1 k prev s) (matches r2 k prev s)
  | Opt r' => orelse (matches r' k prev s) (k prev s)
  | Many p => many p k prev s
  | Many1 p =>
      match s with
      | [] => None
      | c :: s' => if p c then many p k (Some c) s' else None
      end
  | WordBoundary => if at_boundary prev s then k prev s else None
  end.

(** The match of [r] starting exactly at the head of [s], as the number
    of characters it spans. *)
Definition match_here (r : pattern) (prev : option char) (s : str)
  : option nat :=
  match matches r (fun _ rest => Some rest) prev s with
  | Some rest => Some (List.length s - List.length rest)%nat
  | None => None
  end.

Fixpoint search_from (r : pattern) (prev : option char) (s : str) : bool :=
  match match_here r prev s with
  | Some _ => true
  | None =>
      match s with
      | [] => false
      | c :: s' => search_from r (Some c) s'
      end
  end.

(** [bool(re.search(r, s))] *)
Definition search (r : pattern) (s : str) : bool := search_from r None s.

(** [re.findall(r, s)] for a pattern without groups whose matches are
    never empty: the matched texts, left to right, without overlap.
    [skip] counts the characters of the last match still to be stepped
    over. *)
Fixpoint findall_from (r : pattern) (prev : option char) (s : str)
         (skip : nat) : list str :=
  match s with
  | [] => []
  | c :: s' =>
      match skip with
      | S n => findall_from r (Some c) s' n
      | O =>
          match match_here r prev s with
          | Some len =>
              firstn len s :: findall_from r (Some c) s' (Nat.pred len)
          | None => findall_from r (Some c) s' 0
          end
      end
  end.

Definition findall (r : pattern) (s : str) : list str :=
  findall_from r None s 0.

(** [c in cs], for writing a bracket class. *)
Definition one_of (cs : list char) (c : char) : bool :=
  existsb (N.eqb c) cs.

(** [(w1|w2|...)] *)
Fixpoint alts (ws : list pattern) : pattern :=
  match ws with
  | [] => Class (fun _ => false)
  | [w] => w
  | w :: ws' => Alt w (alts ws')
  end.

(** [re.sub(r'\s+', ' ', s)]: every maximal run of whitespace becomes
    one space.  [in_run] tells that the previous character was
    whitespace, already replaced. *)
Fixpoint sub_spaces (in_run : bool) (s : str) : str :=
  match s with
  | [] => []
  | c :: s' =>
      if is_space c
      then (if in_run then sub_spaces true s' else space :: sub_spaces true s')
      else c :: sub_spaces false s'
  end.

(** [re.sub(r'[cs]', '', s)]: delete every character of the class. *)
Definition sub_class_empty (cs : list char) (s : str) : str :=
  filter (fun c => negb (one_of cs c)) s.

End Re.

(* ================================================================== *)
(** * [backend/ai_gateway.py] *)
(* ================================================================== *)

Module AIGateway.

Import PyStr Py Re.

(** The dictionary [validate_input] returns. *)
Record input_verdict : Type := InputVerdict {
  valid : bool;
  error : option string;
  sanitized_query : option str
}.

(** The dictionary [validate_output] returns. *)
Record output_verdict : Type := OutputVerdict {
  out_valid : bool;
  filtered_response : str;
  confidence : Q
}.

(** The three error messages of [validate_input]; the specification
    calls the first "out of domain" and the second "inappropriate". *)
Definition msg_out_of_domain : string :=
  "This system is focused on mathematics education only. Please ask math-related questions.".
Definition msg_inappropriate : string :=
  "Please keep questions appropriate for educational purposes.".
Definition msg_unable : string :=
  "Unable to process query. Please try again.".

Definition msg_not_educational : string :=
  "I can only provide educational mathematics content. Please ask a math question.".

Definition c_integral : char := 8747%N.   (* U+222B *)
Definition c_sum : char := 8721%N.        (* U+2211 *)
Definition c_product : char := 8719%N.    (* U+220F *)
Definition c_pi : char := 960%N.          (* U+03C0 *)
Definition c_infinity : char := 8734%N.   (* U+221E *)
Definition c_sqrt : char := 8730%N.       (* U+221A *)

Definition math_keywords : list str := List.map py [
  (* Core math terms *)
  "derivative"; "integral"; "equation"; "solve"; "calculate"; "function";
  "algebra"; "calculus"; "geometry"; "trigonometry"; "statistics";
  "probability"; "matrix"; "vector"; "limit"; "series"; "polynomial";
  "logarithm"; "exponential"; "sin"; "cos"; "tan"; "sqrt"; "sum";
  "product"; "factor"; "prime"; "theorem"; "proof"; "formula";
  (* Word problem terms *)
  "machines"; "widgets"; "hours"; "minutes"; "rate"; "ratio"; "proportion";
  "speed"; "distance"; "time"; "work"; "production"; "efficiency";
  "cost"; "price"; "profit"; "percentage"; "percent"; "discount";
  (* Geometry terms *)
  "area"; "volume"; "perimeter"; "circumference"; "radius"; "diameter";
  "triangle"; "square"; "rectangle"; "circle"; "sphere"; "cube";
  "angle"; "degrees"; "radians"; "parallel"; "perpendicular";
  "shape"; "polygon"; "vertex"; "edge"; "face"; "surface";
  (* Measurement and units *)
  "meters"; "feet"; "inches"; "centimeters"; "kilometers"; "miles";
  "seconds"; "minutes"; "hours"; "days"; "weeks"; "months"; "years";
  "grams"; "kilograms"; "pounds"; "ounces"; "liters"; "gallons";
  (* Problem-solving terms *)
  "how many"; "how much"; "how long"; "how far"; "how fast";
  "find"; "determine"; "compute"; "evaluate"; "estimate"
]%string.

Definition math_symbols : list str :=
  List.map py ["="; "+"; "-"; "*"; "/"; "^"]%string
  ++ [[c_integral]; [c_sum]; [c_product]; [c_pi]; [c_infinity]; [c_sqrt]]
  ++ [py "%"].

(** [\d+[\+\-\*/\^]\d+] *)
Definition re_operation : pattern :=
  Cat (Many1 is_digit) (Cat (Class (one_of (py "+-*/^"))) (Many1 is_digit)).

(** [\d+\s+\w+\s+\d+\s+\w+] *)
Definition re_ratio : pattern :=
  Cat (Many1 is_digit) (Cat (Many1 is_space) (Cat (Many1 is_word)
  (Cat (Many1 is_space) (Cat (Many1 is_digit) (Cat (Many1 is_space)
  (Many1 is_word)))))).

(** [\d+\s*(meters?|feet|inches?|cm|km|miles?|seconds?|minutes?|hours?)] *)
Definition re_measurement : pattern :=
  let plural w := Cat (Lit (py w)) (Opt (Lit (py "s"))) in
  Cat (Many1 is_digit) (Cat (Many is_space)
    (alts [plural "meter"; Lit (py "feet"); plural "inche"; Lit (py "cm");
           Lit (py "km"); plural "mile"; plural "second"; plural "minute";
           plural "hour"]%string)).

(** [_is_math_related] *)
Definition _is_math_related (query : str) : bool :=
  let query_lower := lower query in
  if any (fun keyword => contains keyword query_lower) math_keywords then true
  else if any (fun symbol => contains symbol query) math_symbols then true
  else if search re_operation query then true
  else if search re_ratio query then true
  else if search re_measurement query_lower then true
  else false.

(** [\b(w1|...|wn)\b] *)
Definition whole_word (ws : list string) : pattern :=
  Cat WordBoundary (Cat (alts (List.map (fun w => Lit (py w)) ws)) WordBoundary).

Definition inappropriate_patterns : list pattern := [
  whole_word ["hack"; "exploit"; "bypass"; "cheat"];
  whole_word ["personal"; "private"; "confidential"];
  whole_word ["violence"; "harm"; "illegal"]
]%string.

(** [_contains_inappropriate_content] *)
Definition _contains_inappropriate_content (query : str) : bool :=
  let query_lower := lower query in
  any (fun pattern => search pattern query_lower) inappropriate_patterns.

(** [_sanitize_query] *)
Definition _sanitize_query (query : str) : str :=
  let sanitized := sub_spaces false (strip query) in
  let sanitized := sub_class_empty (py "<>{}") sanitized in
  sanitized.

(** [validate_input].  The body runs under [try ... except Exception];
    on a [str] argument none of the string operations raises, so the
    handler (which would answer [msg_unable]) is never entered. *)
Definition validate_input (query : str) : input_verdict :=
  if negb (_is_math_related query) then
    InputVerdict false (Some msg_out_of_domain) None
  else if _contains_inappropriate_content query then
    InputVerdict false (Some msg_inappropriate) None
  else
    let sanitized := _sanitize_query query in
    InputVerdict true None (Some sanitized).

Definition educational_markers : list str := List.map py [
  "step"; "solution"; "answer"; "formula"; "theorem"; "proof";
  "calculate"; "solve"; "derivative"; "integral"; "equation"
]%string.

(** [_is_educational_response] *)
Definition _is_educational_response (response : str) : bool :=
  let response_lower := lower response in
  any (fun marker => contains marker response_lower) educational_markers.

(** [[=\+\-\*/\^...]] with the six non-ASCII symbols. *)
Definition re_math_char : pattern :=
  Class (one_of (py "=+-*/^" ++
    [c_integral; c_sum; c_product; c_pi; c_infinity; c_sqrt])).

(** [_is_educational_line] *)
Definition _is_educational_line (line : str) : bool :=
  if search re_math_char line then true
  else if any (fun word => contains word (lower line))
              (List.map py ["step"; "solution"; "because"; "therefore"; "thus"]%string)
  then true
  else (0 <? List.length (strip line))%nat.

(** [_filter_response] *)
Definition _filter_response (response : str) : str :=
  let lines := split nl response in
  let filtered_lines := filter _is_educational_line lines in
  match filtered_lines with
  | [] => response
  | _ :: _ => join [nl] filtered_lines
  end.

Local Open Scope Q_scope.

Definition sum_counts (xs : list nat) : nat := fold_left Nat.add xs 0%nat.

Definition of_nat (n : nat) : Q := inject_Z (Z.of_nat n).

Definition confidence_symbols : list str :=
  [py "="; [c_integral]; [c_sum]; [c_product]; [c_pi]; [c_infinity];
   [c_sqrt]; py "^"].

Definition math_terms : list str := List.map py
  ["derivative"; "integral"; "equation"; "formula"; "theorem"]%string.

(** [_calculate_confidence] *)
Definition _calculate_confidence (response : str) : Q :=
  let confidence := 0.0 in
  let symbol_count :=
    sum_counts (List.map (fun symbol => count response symbol) confidence_symbols) in
  let confidence := confidence + py_min (of_nat symbol_count * 0.1) 0.3 in
  let confidence :=
    if contains (py "step") (lower response) then confidence + 0.2 else confidence in
  let term_count :=
    sum_counts (List.map (fun term => count (lower response) term) math_terms) in
  let confidence := confidence + py_min (of_nat term_count * 0.1) 0.3 in
  let confidence :=
    if (100 <? List.length response)%nat then confidence + 0.2 else confidence in
  py_min confidence 1.0.

(** [validate_output]; as in [validate_input], the exception handler is
    unreachable on a [str] argument. *)
Definition validate_output (response : str) : output_verdict :=
  if negb (_is_educational_response response) then
    OutputVerdict false (py msg_not_educational) 0.0
  else
    let filtered := _filter_response response in
    let confidence := _calculate_confidence filtered in
    OutputVerdict true filtered confidence.

End AIGateway.


(* ================================================================== *)
(** * [backend/response_cache.py] *)
(* ================================================================== *)

Module ResponseCache.

Import PyStr Py.
Local Open Scope Q_scope.
Local Open Scope py_scope.

Section Cache.

(** The cached responses, [Dict[str, Any]] in the source. *)
Variable payload : Type.

(** [hashlib.md5(data.encode()).hexdigest()] *)
Variable md5_hexdigest : str -> str.

(** A value of [self.cache]: [{"response": ..., "timestamp": ...}]. *)
Record entry : Type := Entry {
  response : payload;
  timestamp : Q
}.

(** The fields of a [ResponseCache] object. *)
Record t : Type := Cache {
  cache : dict (K:=str) entry;
  access_times : dict (K:=str) Q;
  max_size : Z;
  ttl : Q
}.

(** [__init__] *)
Definition init (max_size : Z) (ttl : Q) : t := Cache [] [] max_size ttl.

(** [_generate_key], for key data that [encode()] accepts; the
    encoding step itself is in [CacheCalls]. *)
Definition _generate_key (query context model : str) : str :=
  let key_data := query ++ py "_" ++ context ++ py "_" ++ model in
  md5_hexdigest key_data.

(** The body of [get] once [key] is computed.  [now] is the clock
    reading of the expiry test and [now'] that of the access-time
    update.  The difference of the expiry test is taken without
    rounding; [CacheCalls.get_at] has it as a float subtraction. *)
Definition get_at (c : t) (key : str) (now now' : Q) : option payload * t :=
  match get_item key (cache c) with
  | Some e =>
      if Qltb (ttl c) (now - timestamp e) then
        let cache' := remove key (cache c) in
        let access_times' :=
          if mem key (access_times c) then remove key (access_times c)
          else access_times c in
        (None, Cache cache' access_times' (max_size c) (ttl c))
      else
        (Some (response e),
         Cache (cache c) (set_item key now' (access_times c))
               (max_size c) (ttl c))
  | None => (None, c)
  end.

(** [get] *)
Definition get (c : t) (query context model : str) (now now' : Q)
  : option payload * t :=
  let key := _generate_key query context model in
  get_at c key now now'.

(** [min(d.keys(), key=lambda k: d[k])] continued after [best]: a later
    key replaces the current one only when its value is strictly
    smaller. *)
Fixpoint min_from (best : str * Q) (d : list (str * Q)) : str :=
  match d with
  | [] => fst best
  | (k, v) :: d' =>
      if Qltb v (snd best) then min_from (k, v) d' else min_from best d'
  end.

(** [_evict_oldest] *)
Definition _evict_oldest (c : t) : result t :=
  match access_times c with
  | [] => Return c
  | first :: rest =>
      let oldest_key := min_from first rest in
      cache' <- del_item oldest_key (cache c) ;;
      access_times' <- del_item oldest_key (access_times c) ;;
      Return (Cache cache' access_times' (max_size c) (ttl c))
  end.

(** The body of [set] once [key] is computed.  [now] is the clock
    reading stored as the timestamp, [now'] the one stored as the access
    time. *)
Definition set_at (c : t) (key : str) (resp : payload) (now now' : Q)
  : result t :=
  c1 <- (if (max_size c <=? Z.of_nat (List.length (cache c)))%Z
         then _evict_oldest c else Return c) ;;
  Return (Cache (set_item key (Entry resp now) (cache c1))
                (set_item key now' (access_times c1))
                (max_size c1) (ttl c1)).

(** [set] *)
Definition set (c : t) (query : str) (resp : payload) (context model : str)
           (now now' : Q) : result t :=
  let key := _generate_key query context model in
  set_at c key resp now now'.

(** [clear] *)
Definition clear (c : t) : t := Cache [] [] (max_size c) (ttl c).

(** [min(values)] *)
Fixpoint min_value (best : Q) (vs : list Q) : Q :=
  match vs with
  | [] => best
  | v :: vs' => if Qltb v best then min_value v vs' else min_value best vs'
  end.

Record cache_stats : Type := Stats {
  stat_size : nat;
  stat_max_size : Z;
  stat_ttl : Q;
  stat_oldest_entry : option Q
}.

(** [stats] *)
Definition stats (c : t) : cache_stats :=
  Stats (List.length (cache c)) (max_size c) (ttl c)
        (match values (access_times c) with
         | [] => None
         | v :: vs => Some (min_value v vs)
         end).

(** One call on a cache object, with the clock readings it makes. *)
Inductive call : Type :=
| CallGet (key : str) (now now' : Q)
| CallSet (key : str) (resp : payload) (now now' : Q)
| CallClear.

Definition step (c : t) (op : call) : result t :=
  match op with
  | CallGet key now now' => Return (snd (get_at c key now now'))
  | CallSet key resp now now' => set_at c key resp now now'
  | CallClear => Return (clear c)
  end.

(** A sequence of calls, stopping at the first one that raises. *)
Fixpoint run (c : t) (ops : list call) : result t :=
  match ops with
  | [] => Return c
  | op :: ops' => c' <- step c op ;; run c' ops'
  end.

End Cache.

End ResponseCache.

(* ================================================================== *)
(** * [backend/enhanced_retrieval.py] *)
(* ================================================================== *)

Module EnhancedRetrieval.

Import PyStr Re Py.
Local Open Scope Q_scope.
Local Open Scope py_scope.

(** The payload of a point of the collection, as far as the code reads
    it: five optional fields. *)
Record payload : Type := Payload {
  page_content : option str;
  p_source_id : option str;
  p_topic : option str;
  p_grade_level : option str;
  p_educational_notes : option str
}.

(** A search hit of the index ([result.payload], [result.score]). *)
Record scored_point : Type := ScoredPoint {
  sp_payload : payload;
  sp_score : Q
}.

(** [doc["metadata"]] *)
Record metadata : Type := Metadata {
  source_id : option str;
  topic : option str;
  grade_level : option str;
  educational_notes : option str
}.

(** A candidate document: [{"content", "score", "metadata"}]. *)
Record doc : Type := Doc {
  content : str;
  score : Q;
  doc_metadata : metadata
}.

(** A value of [combined]: a copy of a document with ["final_score"]. *)
Record merged : Type := Merged {
  merged_doc : doc;
  final_score : Q
}.

(** The keyword arguments the searches read. *)
Record kwargs : Type := Kwargs {
  kw_top_k : option nat;
  kw_score_threshold : option Q;
  kw_topic : option str;
  kw_grade_level : option str
}.

(** [FieldCondition(key=..., match=MatchValue(value=...))] *)
Record field_condition : Type := FieldCondition {
  fc_key : str;
  fc_value : str
}.

Record search_params : Type := SearchParams {
  collection_name : str;
  query_vector : list Q;
  limit : nat;
  score_threshold : Q;
  query_filter : option (list field_condition)   (* [Filter(must=...)] *)
}.

(** The index, [self.qdrant_client]: an external collaborator whose two
    calls may raise. *)
Record qdrant_client : Type := QdrantClient {
  client_search : search_params -> result (list scored_point);
  client_scroll : str -> nat -> result (list payload * option nat)
}.

Definition get_default {A} (o : option A) (default : A) : A :=
  match o with
  | Some a => a
  | None => default
  end.

(** Truth value of [kwargs.get(name)] for a string-valued argument. *)
Definition truthy (o : option str) : bool :=
  match o with
  | Some (_ :: _) => true
  | _ => false
  end.

Definition metadata_of (p : payload) : metadata :=
  Metadata (p_source_id p) (p_topic p) (p_grade_level p)
           (p_educational_notes p).

(** [_format_results_with_metadata] *)
Definition _format_results_with_metadata (results : list scored_point)
  : list doc :=
  List.map (fun r =>
    Doc (get_default (page_content (sp_payload r)) [])
        (sp_score r)
        (metadata_of (sp_payload r))) results.

(** [[fx]\([^)]+\)\s*=\s*[^\s]+] *)
Definition math_pattern : pattern :=
  Cat (Class (one_of (py "fx")))
  (Cat (Lit (py "("))
  (Cat (Many1 (fun c => negb (N.eqb c 41)))
  (Cat (Lit (py ")"))
  (Cat (Many is_space)
  (Cat (Lit (py "="))
  (Cat (Many is_space)
       (Many1 (fun c => negb (is_space c))))))))).

(** [_extract_math_expression] *)
Definition _extract_math_expression (query content : str) : bool :=
  let query_math := findall math_pattern query in
  let content_math := findall math_pattern content in
  match query_math, content_math with
  | _ :: _, _ :: _ =>
      let query_expr := remove_char space (List.concat query_math) in
      let content_expr := remove_char space (List.concat content_math) in
      contains query_expr content_expr
  | _, _ => false
  end.

(** The score [_keyword_search] gives one document. *)
Definition keyword_score (query_lower : str) (query_words : list str)
           (content : str) : Q :=
  let content_lower := lower content in
  let exact_match := contains query_lower content_lower in
  let word_matches :=
    List.length (filter (fun word => contains word content_lower) query_words) in
  let math_expr_match := _extract_math_expression query_lower content_lower in
  let score := 0.0 in
  if exact_match then score + 1.0
  else if math_expr_match then score + 0.8
  else if (0 <? word_matches)%nat then
    score + (inject_Z (Z.of_nat word_matches)
             / inject_Z (Z.of_nat (List.length query_words))) * 0.6
  else score.

Section Retrieval.

Variable client : qdrant_client.   (* [self.qdrant_client] *)
Variable collection : str.         (* [self.collection]    *)

(** The arguments [_vector_search] passes to the index. *)
Definition search_params_of (query_vector : list Q) (kw : kwargs)
  : search_params :=
  let filter0 : option (list field_condition) :=
    if truthy (kw_topic kw)
    then Some [FieldCondition (py "topic") (get_default (kw_topic kw) [])]
    else None in
  let filter1 :=
    if truthy (kw_grade_level kw) then
      let grade :=
        FieldCondition (py "grade_level") (get_default (kw_grade_level kw) []) in
      match filter0 with
      | Some must => Some (must ++ [grade])
      | None => Some [grade]
      end
    else filter0 in
  SearchParams collection query_vector
               (get_default (kw_top_k kw) 5%nat)
               (get_default (kw_score_threshold kw) 0.3)
               filter1.

(** [_vector_search] *)
Definition _vector_search (query_vector : list Q) (kw : kwargs)
  : result (list doc) :=
  let search_params := search_params_of query_vector kw in
  try_except
    (results <- client_search client search_params ;;
     Return (_format_results_with_metadata results))
    (fun e => Return []).

(** [_keyword_search] *)
Definition _keyword_search (query : str) (kw : kwargs) : result (list doc) :=
  try_except
    (scrolled <- client_scroll client collection 100%nat ;;
     let results := fst scrolled in
     let query_lower := lower query in
     let query_words := distinct (words query_lower) in
     let keyword_matches :=
       List.flat_map (fun p =>
         let content := get_default (page_content p) [] in
         let score := keyword_score query_lower query_words content in
         if Qltb 0.3 score
         then [Doc content score (metadata_of p)]
         else []) results in
     Return (firstn (get_default (kw_top_k kw) 5%nat)
                    (sorted_desc score keyword_matches)))
    (fun e => Return []).

(** [doc["metadata"]["source_id"]] *)
Definition doc_id (d : doc) : option str := source_id (doc_metadata d).

(** The first loop of [_merge_and_rerank].  The products and sums of
    the two loops are taken without rounding; [RankMerger] has them as
    float operations. *)
Definition add_vector (combined : dict (K:=option str) merged) (d : doc)
  : dict (K:=option str) merged :=
  set_item (doc_id d) (Merged d (score d * 0.7)) combined.

(** The second loop of [_merge_and_rerank]. *)
Definition add_keyword (combined : dict (K:=option str) merged) (d : doc)
  : dict (K:=option str) merged :=
  match get_item (doc_id d) combined with
  | Some m =>
      set_item (doc_id d)
               (Merged (merged_doc m) (final_score m + score d * 0.3))
               combined
  | None => set_item (doc_id d) (Merged d (score d * 0.3)) combined
  end.

(** The dictionary [combined] after both loops. *)
Definition combine (vector_results keyword_results : list doc)
  : dict (K:=option str) merged :=
  fold_left add_keyword keyword_results
            (fold_left add_vector vector_results []).

(** [_merge_and_rerank] *)
Definition _merge_and_rerank (vector_results keyword_results : list doc)
           (query : str) : list merged :=
  let combined := combine vector_results keyword_results in
  let sorted_results := sorted_desc final_score (values combined) in
  firstn 5 sorted_results.

(** [hybrid_search] *)
Definition hybrid_search (query : str) (query_vector : list Q) (kw : kwargs)
  : result (list merged) :=
  vector_results <- _vector_search query_vector kw ;;
  keyword_results <- _keyword_search query kw ;;
  Return (_merge_and_rerank vector_results keyword_results query).

End Retrieval.

End EnhancedRetrieval.

(* ================================================================== *)
(** * Vocabulary of the properties *)
(* ================================================================== *)

(** ** Content gate *)

Module GateSpec.

Import PyStr Py Re AIGateway.


(** No character of the text is one of [<>{}]. *)
Definition bracket_free (s : str) : bool :=
  forallb (fun c => negb (one_of (py "<>{}") c)) s.

(** The text does not start with whitespace. *)
Definition head_ok (s : str) : bool :=
  match s with
  | [] => true
  | c :: _ => negb (is_space c)
  end.

(** Every whitespace character of the text is a single space standing
    alone; [after_space] tells that the character before the text is
    whitespace. *)
Fixpoint single_spaced (after_space : bool) (s : str) : bool :=
  match s with
  | [] => true
  | c :: s' =>
      if is_space c
      then N.eqb c space && negb after_space && single_spaced true s'
      else single_spaced false s'
  end.

(** The whitespace normal form: what [strip] and then [re.sub(r'\s+',
    ' ', _)] produce, and a fixed point of both. *)
Definition normal (s : str) : Prop :=
  head_ok s = true /\ head_ok (rev s) = true /\ single_spaced false s = true.

Local Open Scope Q_scope.

(** The flat bonus of a yes/no feature. *)
Definition bonus (present : bool) : Q := if present then 0.2 else 0.

(** The clamp of a number to the unit interval. *)
Definition clamp01 (x : Q) : Q := Qmax 0 (Qmin 1 x).

Definition symbol_count (text : str) : nat :=
  sum_counts (List.map (fun symbol => count text symbol) confidence_symbols).

Definition term_count (text : str) : nat :=
  sum_counts (List.map (fun term => count (lower text) term) math_terms).

(** The four terms of the confidence, before clamping. *)
Definition raw_confidence (text : str) : Q :=
  Qmin (of_nat (symbol_count text) * 0.1) 0.3
  + bonus (contains (py "step") (lower text))
  + Qmin (of_nat (term_count text) * 0.1) 0.3
  + bonus (100 <? List.length text)%nat.

End GateSpec.

(** ** Dictionaries *)

Module DictSpec.

Import PyStr Py.

(** The equality test of a key type decides equality. *)
Class KeyLaws (K : Type) `{Key K} : Prop :=
  key_eqb_eq : forall a b : K, key_eqb a b = true <-> a = b.

Arguments KeyLaws K {_}.
Arguments key_eqb_eq {K _ _} a b.

End DictSpec.

(** ** Response cache *)

Module CacheSpec.

Import PyStr Py ResponseCache.
Local Open Scope Q_scope.

Section Vocabulary.

Variable payload : Type.

Local Abbreviation t := (t payload).
Local Abbreviation call := (call payload).

(** The two dictionaries of a cache object hold the same keys in the
    same order, each once. *)
Definition wf (c : t) : Prop :=
  keys (cache c) = keys (access_times c) /\ NoDup (keys (cache c)).

(** A cache object as the program can have it: built by [__init__] and
    then used through [get], [set] and [clear] only. *)
Definition reachable (c : t) : Prop :=
  exists (m : Z) (life : Q) (ops : list call), run (init payload m life) ops = Return c.

Definition size (c : t) : Z := Z.of_nat (List.length (cache c)).

(** The state [set] assigns into: the cache itself, or what
    [_evict_oldest] leaves of it when it is full. *)
Definition before_insert (c : t) : result t :=
  if (max_size c <=? Z.of_nat (List.length (cache c)))%Z
  then _evict_oldest c else Return c.

Definition inserted (c1 : t) (key : str) (resp : payload) (now now' : Q) : t :=
  Cache (set_item key (Entry resp now) (cache c1))
        (set_item key now' (access_times c1))
        (max_size c1) (ttl c1).

(** The arguments of one [set] call: key, payload and the two clock
    readings. *)
Definition set_call (e : str * payload * Q * Q) : call :=
  let '(key, resp, now, now') := e in CallSet key resp now now'.

Definition key_of (e : str * payload * Q * Q) : str := fst (fst (fst e)).

End Vocabulary.

Arguments set_call {payload} e.
Arguments key_of {payload} e.

(** A cache of 2 entries living 60 seconds, right after [__init__];
    payloads are numbers. *)
Definition fresh_cache : ResponseCache.t nat := init nat 2 60.

(** The cache of the counterexample just before the third [set]. *)
Definition tied_cache : ResponseCache.t nat :=
  Cache [(py "b", Entry 1%nat 0); (py "a", Entry 2%nat 0)]
        [(py "b", 0); (py "a", 0)] 2 3600.

End CacheSpec.

(** ** Sorting *)

Module SortSpec.

Local Open Scope Q_scope.

(** [a] occurs in [l] somewhere before [b]. *)
Definition precedes {A} (a b : A) (l : list A) : Prop :=
  exists l1 l2 l3, l = l1 ++ a :: l2 ++ b :: l3.

Section Keyed.

Variable A : Type.
Variable key : A -> Q.

(** Descending order of keys. *)
Definition descending : list A -> Prop :=
  StronglySorted (fun a b => key b <= key a).

(** The items whose key equals [s]. *)
Definition with_key (s : Q) (a : A) : bool := Qeq_bool (key a) s.

End Keyed.

End SortSpec.

(** ** Rank merger *)

Module MergeSpec.

Import PyStr Py EnhancedRetrieval SortSpec.
Local Open Scope Q_scope.

(** The document ids of a candidate list, in order. *)
Definition ids (l : list doc) : list (option str) := List.map doc_id l.

(** The first candidate of a list with a given id. *)
Definition find_doc (id : option str) (l : list doc) : option doc :=
  find (fun d => key_eqb (doc_id d) id) l.

(** The id under which a merged entry is filed. *)
Definition merged_id (m : merged) : option str := doc_id (merged_doc m).

(** Every entry of the dictionary is filed under the id of its
    document. *)
Definition keyed (D : dict (K:=option str) merged) : Prop :=
  forall k m, In (k, m) D -> merged_id m = k.

Definition by_final_score : list merged -> Prop := descending final_score.

(** The ids in the order in which they are first seen. *)
Definition note_id (seen : list (option str)) (k : option str)
  : list (option str) :=
  if existsb (key_eqb k) seen then seen else seen ++ [k].

Definition first_seen (l : list (option str)) : list (option str) :=
  fold_left note_id l [].

(** A candidate with the given id and score and nothing else. *)
Definition candidate (id : string) (s : Q) : doc :=
  Doc [] s (Metadata (Some (py id)) None None None).

#[local] Set Warnings "-inexact-float".

(** The weighting of the two loops in binary64, the arithmetic of
    Python's [float]: a vector score times 0.7, to which a keyword score
    times 0.3 is added; and the keyword-only case. *)
Definition both_lists_binary64 (sv sk : float) : float :=
  (sv * 0.7 + sk * 0.3)%float.

Definition keyword_only_binary64 (sk : float) : float := (sk * 0.3)%float.

(** The decimal literals of the scenario, as Python reads them. *)
Definition f_0_9 : float := 0.9%float.
Definition f_0_5 : float := 0.5%float.
Definition f_0_6 : float := 0.6%float.
Definition f_0_78 : float := 0.78%float.
Definition f_0_18 : float := 0.18%float.

End MergeSpec.

(** ** Candidate sources *)

Module RetrievalSpec.

Import PyStr Py EnhancedRetrieval.

(** An index that is down: both calls raise. *)
Definition failing_client : qdrant_client :=
  QdrantClient (fun _ => Raise (Exception "ConnectionError"))
               (fun _ _ => Raise (Exception "ConnectionError")).

Definition no_kwargs : kwargs := Kwargs None None None None.

End RetrievalSpec.

(* ================================================================== *)
(** * Python's [float] arithmetic *)
(* ================================================================== *)

Module PyFloat.

Local Open Scope Q_scope.

(** The operations on [float] that the code uses.  A finite [float] is
    a rational number, and comparing two floats compares these numbers;
    an arithmetic operation returns the binary64 number nearest to the
    exact result.  The functions below that compute with floats take
    the operations as a parameter: what is proved of them for every
    [float_ops] holds of the rounded arithmetic the code runs on, and of
    the exact arithmetic of the modules above as well. *)
Record float_ops : Type := FloatOps {
  literal : Q -> Q;        (* a decimal literal such as [0.7] *)
  fadd : Q -> Q -> Q;      (* [x + y] *)
  fsub : Q -> Q -> Q;      (* [x - y] *)
  fmul : Q -> Q -> Q       (* [x * y] *)
}.

(** Arithmetic without rounding. *)
Definition exact_ops : float_ops :=
  FloatOps (fun x => x) Qplus Qminus Qmult.

(** The integer nearest to [x], the even one of two equally near. *)
Definition round_half_even (x : Q) : Z :=
  let f := Qfloor x in
  match Qcompare (x - inject_Z f) (1 # 2) with
  | Lt => f
  | Gt => (f + 1)%Z
  | Eq => if Z.even f then f else (f + 1)%Z
  end.

(** [floor (log2 x)] for a positive [x]. *)
Definition floor_log2 (x : Q) : Z :=
  let k := (Z.log2 (Qnum x) - Z.log2 (Zpos (Qden x)))%Z in
  if Qle_bool (2 ^ k) x then k else (k - 1)%Z.

(** IEEE 754 binary64, rounding to nearest, ties to even: 53 significant
    bits, the smallest unit [2^-1074].  Overflow to infinity, which
    starts near [1.8e308], is left out. *)
Definition round_binary64 (x : Q) : Q :=
  if Qeq_bool x 0 then 0
  else
    let e := Z.max (-1074) (floor_log2 (Qabs x) - 52) in
    inject_Z (round_half_even (x / 2 ^ e)) * 2 ^ e.

(** The arithmetic of Python's [float]. *)
Definition binary64_ops : float_ops :=
  FloatOps round_binary64
           (fun x y => round_binary64 (x + y))
           (fun x y => round_binary64 (x - y))
           (fun x y => round_binary64 (x * y)).

(** The number a finite primitive float stands for. *)
Definition float_value (f : float) : Q :=
  match Prim2SF f with
  | S754_finite s m e => (if s then -1 else 1) * inject_Z (Zpos m) * 2 ^ e
  | _ => 0
  end.

End PyFloat.

(* ================================================================== *)
(** * [backend/response_cache.py]: the methods as they are called *)
(* ================================================================== *)

(** [ResponseCache] above is the class once a key is derived and with
    an exact clock.  This module adds the two things that are left out
    there: [key_data.encode()], which raises on text that UTF-8 cannot
    encode, and the float subtraction of the expiry test. *)
Module CacheCalls.

Import PyStr Py PyFloat ResponseCache.
Local Open Scope Q_scope.
Local Open Scope py_scope.

Section Calls.

Variable payload : Type.

(** [hashlib.md5(data).hexdigest()] on the encoded key data. *)
Variable md5_hexdigest : str -> str.

Variable ops : float_ops.

Local Abbreviation t := (ResponseCache.t payload).

(** The surrogate code points, U+D800 to U+DFFF. *)
Definition is_surrogate (c : char) : bool :=
  ((55296 <=? c) && (c <=? 57343))%N.

(** [s.encode()]: UTF-8, strict.  A surrogate cannot be encoded; the
    encoded text is represented by the text itself. *)
Definition encode (s : str) : result str :=
  if existsb is_surrogate s then Raise (Exception "UnicodeEncodeError")
  else Return s.

(** [f"{query}_{context}_{model}"] *)
Definition key_data (query context model : str) : str :=
  query ++ py "_" ++ context ++ py "_" ++ model.

(** [_generate_key] *)
Definition _generate_key (query context model : str) : result str :=
  data <- encode (key_data query context model) ;;
  Return (md5_hexdigest data).

(** The body of [get] once [key] is computed; [now] is the clock
    reading of the expiry test and [now'] that of the access-time
    update. *)
Definition get_at (c : t) (key : str) (now now' : Q) : option payload * t :=
  match get_item key (cache c) with
  | Some e =>
      if Qltb (ttl c) (fsub ops now (timestamp e)) then
        let cache' := remove key (cache c) in
        let access_times' :=
          if mem key (access_times c) then remove key (access_times c)
          else access_times c in
        (None, Cache cache' access_times' (max_size c) (ttl c))
      else
        (Some (response e),
         Cache (cache c) (set_item key now' (access_times c))
               (max_size c) (ttl c))
  | None => (None, c)
  end.

(** [get]: the answer and the object afterwards. *)
Definition get (c : t) (query context model : str) (now now' : Q)
  : result (option payload * t) :=
  key <- _generate_key query context model ;;
  Return (get_at c key now now').

(** [set] *)
Definition set (c : t) (query : str) (resp : payload) (context model : str)
           (now now' : Q) : result t :=
  key <- _generate_key query context model ;;
  set_at c key resp now now'.

(** One call of a public method, with the clock readings it makes. *)
Inductive call : Type :=
| GetCall (query context model : str) (now now' : Q)
| SetCall (query : str) (resp : payload) (context model : str) (now now' : Q)
| ClearCall.

Definition step (c : t) (op : call) : result t :=
  match op with
  | GetCall query context model now now' =>
      r <- get c query context model now now' ;; Return (snd r)
  | SetCall query resp context model now now' =>
      set c query resp context model now now'
  | ClearCall => Return (clear c)
  end.

(** A sequence of calls, stopping at the first one that raises. *)
Fixpoint run (c : t) (ops : list call) : result t :=
  match ops with
  | [] => Return c
  | op :: ops' => c' <- step c op ;; run c' ops'
  end.

(** The key data of the call has no surrogate. *)
Definition encodable (op : call) : bool :=
  match op with
  | GetCall query context model _ _
  | SetCall query _ context model _ _ =>
      negb (existsb is_surrogate (key_data query context model))
  | ClearCall => true
  end.

End Calls.

Arguments ClearCall {payload}.

End CacheCalls.

(* ================================================================== *)
(** * [backend/enhanced_retrieval.py]: the merge on floats *)
(* ================================================================== *)

(** [EnhancedRetrieval._merge_and_rerank] with the float operations of
    its two loops as a parameter. *)
Module RankMerger.

Import PyStr Py PyFloat EnhancedRetrieval.
Local Open Scope Q_scope.

Section Merge.

Variable ops : float_ops.

(** The first loop of [_merge_and_rerank]. *)
Definition add_vector (combined : dict (K:=option str) merged) (d : doc)
  : dict (K:=option str) merged :=
  set_item (doc_id d)
           (Merged d (fmul ops (score d) (literal ops 0.7))) combined.

(** The second loop of [_merge_and_rerank]. *)
Definition add_keyword (combined : dict (K:=option str) merged) (d : doc)
  : dict (K:=option str) merged :=
  match get_item (doc_id d) combined with
  | Some m =>
      set_item (doc_id d)
               (Merged (merged_doc m)
                       (fadd ops (final_score m)
                                 (fmul ops (score d) (literal ops 0.3))))
               combined
  | None =>
      set_item (doc_id d)
               (Merged d (fmul ops (score d) (literal ops 0.3))) combined
  end.

(** The dictionary [combined] after both loops. *)
Definition combine (vector_results keyword_results : list doc)
  : dict (K:=option str) merged :=
  fold_left add_keyword keyword_results
            (fold_left add_vector vector_results []).

(** [_merge_and_rerank] *)
Definition _merge_and_rerank (vector_results keyword_results : list doc)
           (query : str) : list merged :=
  let combined := combine vector_results keyword_results in
  let sorted_results := sorted_desc final_score (values combined) in
  firstn 5 sorted_results.

End Merge.

End RankMerger.

(** ** Text on which the character tables are exact *)

Module TextSpec.

Import PyStr.


End TextSpec.

(* ================================================================== *)
(** * [backend/main.py]: the request validators *)
(* ================================================================== *)

Module SolveRequest.

Import PyStr.

(** The outcome of a validator: the value it returns, or the message of
    the [ValueError] it raises. *)
Inductive checked (A : Type) : Type :=
| Accepted (a : A)
| ValueError (msg : string).

Arguments Accepted {A} a.
Arguments ValueError {A} msg.

(** [not s] for a string. *)
Definition is_empty (s : str) : bool :=
  match s with
  | [] => true
  | _ :: _ => false
  end.

(** [validate_question] *)
Definition validate_question (v : str) : checked str :=
  if is_empty v || is_empty (strip v) then
    ValueError "Question cannot be empty"
  else if (List.length (strip v) <? 3)%nat then
    ValueError "Question too short"
  else if (1000 <? List.length (strip v))%nat then
    ValueError "Question too long (max 1000 characters)"
  else Accepted (strip v).

End SolveRequest.

(* ================================================================== *)
(** * [backend/model_manager.py] *)
(* ================================================================== *)

Module ModelManager.

Import PyStr Py.

(** The fields of a [ModelManager] object. *)
Record t : Type := Manager {
  embedding_models : dict (K:=str) str;
  llm_models : dict (K:=str) str;
  current_embedding : str;
  current_llm : str
}.

(** [__init__] *)
Definition init : t :=
  Manager
    [(py "granite", py "sentence-transformers/all-MiniLM-L6-v2");
     (py "mpnet", py "sentence-transformers/all-mpnet-base-v2");
     (py "distilbert", py "sentence-transformers/distilbert-base-nli-mean-tokens")]
    [(py "llama3.1", py "llama3.1:8b");
     (py "llama3.1-70b", py "llama3.1:70b");
     (py "codellama", py "codellama:7b");
     (py "mistral", py "mistral:7b")]
    (py "granite")
    (py "llama3.1").

(** [d[k]] *)
Definition subscript {V} (d : dict (K:=str) V) (k : str) : result V :=
  match get_item k d with
  | Some v => Return v
  | None => Raise KeyError
  end.

(** Truth value of an optional string argument. *)
Definition given (model_name : option str) : bool :=
  match model_name with
  | Some (_ :: _) => true
  | _ => false
  end.

Definition name_of (model_name : option str) : str :=
  match model_name with
  | Some name => name
  | None => []
  end.

(** [get_embedding_model] *)
Definition get_embedding_model (self : t) (model_name : option str)
  : result str :=
  if given model_name && mem (name_of model_name) (embedding_models self)
  then subscript (embedding_models self) (name_of model_name)
  else subscript (embedding_models self) (current_embedding self).

(** [get_llm_model] *)
Definition get_llm_model (self : t) (model_name : option str) : result str :=
  if given model_name && mem (name_of model_name) (llm_models self)
  then subscript (llm_models self) (name_of model_name)
  else subscript (llm_models self) (current_llm self).

(** [switch_embedding_model]: the answer and the object afterwards. *)
Definition switch_embedding_model (self : t) (model_name : str) : bool * t :=
  if mem model_name (embedding_models self)
  then (true, Manager (embedding_models self) (llm_models self)
                      model_name (current_llm self))
  else (false, self).

(** [switch_llm_model] *)
Definition switch_llm_model (self : t) (model_name : str) : bool * t :=
  if mem model_name (llm_models self)
  then (true, Manager (embedding_models self) (llm_models self)
                      (current_embedding self) model_name)
  else (false, self).

(** The dictionary [list_models] returns. *)
Record model_list : Type := ModelList {
  listed_embedding_models : list str;
  listed_llm_models : list str;
  listed_current_embedding : str;
  listed_current_llm : str
}.

(** [list_models] *)
Definition list_models (self : t) : model_list :=
  ModelList (keys (embedding_models self)) (keys (llm_models self))
            (current_embedding self) (current_llm self).

(** One of the two switch calls. *)
Inductive switch : Type :=
| SwitchEmbedding (model_name : str)
| SwitchLlm (model_name : str).

Definition apply_switch (self : t) (op : switch) : t :=
  match op with
  | SwitchEmbedding name => snd (switch_embedding_model self name)
  | SwitchLlm name => snd (switch_llm_model self name)
  end.

(** The object after a sequence of switch calls. *)
Definition after (ops : list switch) : t := fold_left apply_switch ops init.

End ModelManager.

(* ================================================================== *)
(** * Vocabulary of the further properties *)
(* ================================================================== *)

(** ** Response cache *)

Module CacheExtraSpec.

Import PyStr Py ResponseCache.
Local Open Scope Q_scope.

(** A full cache of two entries: "b" last used at time 0, "a" at
    time 5. *)
Definition aged_cache : ResponseCache.t nat :=
  Cache [(py "b", Entry 1%nat 0); (py "a", Entry 2%nat 5)]
        [(py "b", 0); (py "a", 5)] 2 3600.

(** A cache configured with [max_size = 0], right after [__init__]. *)
Definition zero_cache : ResponseCache.t nat := init nat 0 60.

(** A cache of capacity 2 that holds one entry, "f2", stored at time
    0. *)
Definition half_full_cache : ResponseCache.t nat :=
  Cache [(py "f2", Entry 5%nat 0)] [(py "f2", 0)] 2 60.

(** A digest for concrete runs of the public methods: the key data
    itself. *)
Definition plain_digest (data : str) : str := data.

End CacheExtraSpec.

(** ** Rank merger and candidate sources *)

Module RetrievalExtraSpec.

Import PyStr Py EnhancedRetrieval MergeSpec.
Local Open Scope Q_scope.

(** The candidate has the given id. *)
Definition has_id (id : option str) (d : doc) : bool := key_eqb (doc_id d) id.

(** What the first loop of the merge leaves under an id: the last vector
    result with that id, weighted. *)
Definition from_vector (id : option str) (vs : list doc) : option merged :=
  match find_doc id (rev vs) with
  | Some v => Some (Merged v (score v * 0.7))
  | None => None
  end.

(** One step of the second loop, seen from one id: a keyword result
    with that id boosts the entry that is there, or starts one. *)
Definition boost (o : option merged) (d : doc) : option merged :=
  match o with
  | Some m => Some (Merged (merged_doc m) (final_score m + score d * 0.3))
  | None => Some (Merged d (score d * 0.3))
  end.

(** The sum of the scores of a list of candidates. *)
Definition sum_scores (l : list doc) : Q :=
  fold_right (fun d acc => score d + acc) 0 l.

(** The score of the last vector result with the id, 0 if there is
    none. *)
Definition vector_score (id : option str) (vs : list doc) : Q :=
  match find_doc id (rev vs) with
  | Some v => score v
  | None => 0
  end.

(** The text has no equals sign. *)
Definition no_equals (s : str) : Prop := ~ In 61%N s.

(** A point of the collection with the given text and no other field. *)
Definition text_point (text : string) : payload :=
  Payload (Some (py text)) None None None None.

(** An index that answers every scroll with two points and every search
    with nothing. *)
Definition small_index : qdrant_client :=
  QdrantClient (fun _ => Return [])
               (fun _ _ => Return ([text_point "solve x + 1 = 2";
                                    text_point "area of a circle"], None)).

End RetrievalExtraSpec.

(** ** Content gate *)

Module GateExtraSpec.

Import PyStr Py Re AIGateway.

(** The text is empty or all whitespace. *)
Definition blank (s : str) : bool := forallb is_space s.

(** The text has no line break. *)
Definition one_line (s : str) : bool := forallb (fun c => negb (N.eqb c nl)) s.

(** The word is not empty and starts with a character that is not
    whitespace. *)
Definition solid (w : str) : bool :=
  match w with
  | [] => false
  | c :: _ => negb (is_space c)
  end.

(** The text has no digit. *)
Definition digit_free (s : str) : bool := forallb (fun c => negb (is_digit c)) s.

End GateExtraSpec.

(** ** Model manager *)

Module ManagerSpec.

Import PyStr Py ModelManager.

(** The current names are registered and the registries are those of
    [__init__]. *)
Definition manager_ok (self : ModelManager.t) : Prop :=
  embedding_models self = embedding_models init /\
  llm_models self = llm_models init /\
  mem (current_embedding self) (embedding_models self) = true /\
  mem (current_llm self) (llm_models self) = true.

End ManagerSpec.

(* ================================================================== *)
(** * Facts about numbers *)
(* ================================================================== *)

Unset Implicit Arguments.

Module NumFacts.

Import Py.
Local Open Scope Q_scope.

Lemma Qltb_spec (x y : Q) : reflect (x < y) (Qltb x y).
Proof.
  unfold Qltb. destruct (Qle_bool y x) eqn:E; simpl; constructor.
  - apply Qle_bool_iff in E. now apply Qle_not_lt.
  - apply Qnot_le_lt. intros H. apply Qle_bool_iff in H. congruence.
Qed.

Lemma py_min_spec (a b : Q) :
  (a <= b /\ py_min a b = a) \/ (b < a /\ py_min a b = b).
Proof.
  unfold py_min. destruct (Qltb_spec b a) as [H|H].
  - now right.
  - left. split; [now apply Qnot_lt_le | reflexivity].
Qed.

End NumFacts.

(* ================================================================== *)
(** * Properties of the content gate *)
(* ================================================================== *)

Module GateProperties.

Import PyStr Py Re AIGateway GateSpec NumFacts.

(** ** Input validation *)

(** The order of the two tests of [validate_input], read off its body. *)
Lemma validate_input_cases (q : str) :
  validate_input q =
    if _is_math_related q then
      if _contains_inappropriate_content q
      then InputVerdict false (Some msg_inappropriate) None
      else InputVerdict true None (Some (_sanitize_query q))
    else InputVerdict false (Some msg_out_of_domain) None.
Proof.
  unfold validate_input.
  destruct (_is_math_related q); reflexivity.
Qed.




(** The scenario "Solve 2x + 3 = 7": valid, by the operator symbols,
    and sanitized to itself. *)
Example solve_equation_is_valid :
  validate_input (py "Solve 2x + 3 = 7") =
    InputVerdict true None (Some (py "Solve 2x + 3 = 7")).
Proof. vm_compute. reflexivity. Qed.

(** The patterns of the gate on sample texts. *)
Example structural_patterns :
  search re_ratio (py "5 machines 5 hours") = true /\
  search re_ratio (py "5 machines, 5 hours") = false /\
  search re_operation (py "12^3") = true /\
  search re_operation (py "12 ^3") = false /\
  search re_measurement (py "run 3km") = true /\
  search re_measurement (py "run three km") = false.
Proof. repeat split; vm_compute; reflexivity. Qed.

Example disallowed_patterns_match_whole_words :
  _contains_inappropriate_content (py "Is it ILLEGAL?") = true /\
  _contains_inappropriate_content (py "a private matter") = true /\
  _contains_inappropriate_content (py "the hacker") = false /\
  _contains_inappropriate_content (py "pharmacy") = false.
Proof. repeat split; vm_compute; reflexivity. Qed.

(** ** Sanitization *)

Lemma lstrip_fixed (s : str) : head_ok s = true -> lstrip s = s.
Proof.
  destruct s as [|c s]; simpl; [reflexivity|].
  destruct (is_space c); [discriminate | reflexivity].
Qed.

Lemma head_ok_lstrip (s : str) : head_ok (lstrip s) = true.
Proof.
  induction s as [|c s IH]; simpl; [reflexivity|].
  destruct (is_space c) eqn:E; [exact IH | simpl; now rewrite E].
Qed.

Lemma lstrip_app (a b : str) :
  lstrip (a ++ b) =
    match lstrip a with
    | [] => lstrip b
    | _ :: _ => lstrip a ++ b
    end.
Proof.
  induction a as [|c a IH]; simpl; [reflexivity|].
  destruct (is_space c); [exact IH | reflexivity].
Qed.

(** [rstrip] keeps a first character that is not whitespace. *)
Lemma rstrip_cons (c : char) (s : str) :
  is_space c = false -> rstrip (c :: s) = c :: rstrip s.
Proof.
  intros Hc. unfold rstrip. simpl. rewrite lstrip_app.
  destruct (lstrip (rev s)) as [|d r] eqn:E.
  - simpl. now rewrite Hc.
  - now rewrite rev_app_distr.
Qed.

Lemma head_ok_rstrip (s : str) : head_ok s = true -> head_ok (rstrip s) = true.
Proof.
  destruct s as [|c s]; [reflexivity|]. simpl. intros Hc.
  apply negb_true_iff in Hc. rewrite (rstrip_cons _ _ Hc). simpl. now rewrite Hc.
Qed.

Lemma rev_rstrip (s : str) : rev (rstrip s) = lstrip (rev s).
Proof. unfold rstrip. apply rev_involutive. Qed.

(** What [strip] returns has no whitespace at either end, ... *)
Lemma strip_ends (s : str) :
  head_ok (strip s) = true /\ head_ok (rev (strip s)) = true.
Proof.
  unfold strip. split.
  - apply head_ok_rstrip, head_ok_lstrip.
  - rewrite rev_rstrip. apply head_ok_lstrip.
Qed.

(** ... and such a text is left alone by [strip]. *)
Lemma strip_fixed (s : str) :
  head_ok s = true -> head_ok (rev s) = true -> strip s = s.
Proof.
  intros Hh Hl. unfold strip. rewrite (lstrip_fixed _ Hh).
  unfold rstrip. rewrite (lstrip_fixed _ Hl). apply rev_involutive.
Qed.

Lemma sub_spaces_single_spaced (b : bool) (s : str) :
  single_spaced b (sub_spaces b s) = true.
Proof.
  revert b; induction s as [|c s IH]; intros b; simpl; [reflexivity|].
  destruct (is_space c) eqn:E.
  - destruct b; [apply IH|]. simpl. now rewrite IH.
  - simpl. rewrite E. apply IH.
Qed.

Lemma sub_spaces_fixed (b : bool) (s : str) :
  single_spaced b s = true -> sub_spaces b s = s.
Proof.
  revert b; induction s as [|c s IH]; intros b; simpl; [reflexivity|].
  destruct (is_space c) eqn:E; intros Hs.
  - apply andb_true_iff in Hs as [Hs Ht].
    apply andb_true_iff in Hs as [Hc Hb].
    apply N.eqb_eq in Hc. apply negb_true_iff in Hb. subst b c.
    now rewrite (IH _ Ht).
  - now rewrite (IH _ Hs).
Qed.

Lemma sub_spaces_snoc (b : bool) (s : str) (d : char) :
  is_space d = false -> sub_spaces b (s ++ [d]) = sub_spaces b s ++ [d].
Proof.
  intros Hd. revert b; induction s as [|c s IH]; intros b; simpl.
  - now rewrite Hd.
  - destruct (is_space c); [destruct b|]; now rewrite IH.
Qed.

Lemma head_ok_sub_spaces (b : bool) (s : str) :
  head_ok s = true -> head_ok (sub_spaces b s) = true.
Proof.
  destruct s as [|c s]; simpl; [reflexivity|].
  intros Hc. apply negb_true_iff in Hc. rewrite Hc. simpl. now rewrite Hc.
Qed.

Lemma last_ok_sub_spaces (b : bool) (s : str) :
  head_ok (rev s) = true -> head_ok (rev (sub_spaces b s)) = true.
Proof.
  destruct (rev s) as [|d r] eqn:E; intros Hd.
  - apply (f_equal (@rev char)) in E. rewrite rev_involutive in E.
    now subst s.
  - apply (f_equal (@rev char)) in E. rewrite rev_involutive in E.
    simpl in E, Hd. apply negb_true_iff in Hd. subst s.
    rewrite (sub_spaces_snoc _ _ _ Hd), rev_app_distr. simpl. now rewrite Hd.
Qed.

Lemma normal_collapse_strip (s : str) : normal (sub_spaces false (strip s)).
Proof.
  destruct (strip_ends s) as [Hh Hl]. repeat split.
  - now apply head_ok_sub_spaces.
  - now apply last_ok_sub_spaces.
  - apply sub_spaces_single_spaced.
Qed.

Lemma normal_fixed (s : str) : normal s -> sub_spaces false (strip s) = s.
Proof.
  intros (Hh & Hl & Hs). rewrite (strip_fixed _ Hh Hl).
  now apply sub_spaces_fixed.
Qed.

Lemma bracket_free_lstrip (s : str) :
  bracket_free s = true -> bracket_free (lstrip s) = true.
Proof.
  induction s as [|c s IH]; simpl; [reflexivity|]. intros H.
  destruct (is_space c); [|exact H].
  apply andb_true_iff in H as [_ H]. now apply IH.
Qed.

Lemma bracket_free_rev (s : str) :
  bracket_free s = true -> bracket_free (rev s) = true.
Proof.
  unfold bracket_free. rewrite !forallb_forall. intros H c Hc.
  apply H. now apply in_rev.
Qed.

Lemma bracket_free_strip (s : str) :
  bracket_free s = true -> bracket_free (strip s) = true.
Proof.
  intros H. unfold strip, rstrip.
  now apply bracket_free_rev, bracket_free_lstrip, bracket_free_rev,
    bracket_free_lstrip.
Qed.

Lemma bracket_free_sub_spaces (b : bool) (s : str) :
  bracket_free s = true -> bracket_free (sub_spaces b s) = true.
Proof.
  revert b; induction s as [|c s IH]; intros b; simpl; [reflexivity|].
  intros H. apply andb_true_iff in H as [Hc H].
  destruct (is_space c); [destruct b|]; simpl; rewrite ?Hc; now apply IH.
Qed.

Lemma filter_all {A} (p : A -> bool) (l : list A) :
  forallb p l = true -> filter p l = l.
Proof.
  induction l as [|a l IH]; simpl; [reflexivity|]. intros H.
  apply andb_true_iff in H as [Ha H]. rewrite Ha. now rewrite IH.
Qed.

Lemma sub_class_empty_fixed (s : str) :
  bracket_free s = true -> sub_class_empty (py "<>{}") s = s.
Proof. apply filter_all. Qed.

Lemma bracket_free_sanitize (s : str) : bracket_free (_sanitize_query s) = true.
Proof.
  unfold _sanitize_query, sub_class_empty, bracket_free.
  apply forallb_forall. intros c Hc. now apply filter_In in Hc.
Qed.

(** On a text without brackets the last step of [_sanitize_query] does
    nothing, so the result is the whitespace normal form. *)
Lemma sanitize_bracket_free (s : str) :
  bracket_free s = true -> _sanitize_query s = sub_spaces false (strip s).
Proof.
  intros H. unfold _sanitize_query.
  now apply sub_class_empty_fixed, bracket_free_sub_spaces, bracket_free_strip.
Qed.

Lemma sanitize_fixed_bracket_free (s : str) :
  bracket_free s = true -> _sanitize_query (_sanitize_query s) = _sanitize_query s.
Proof.
  intros H.
  rewrite (sanitize_bracket_free _ (bracket_free_sanitize s)).
  rewrite (sanitize_bracket_free _ H).
  apply normal_fixed, normal_collapse_strip.
Qed.

(** Where no bracket is deleted the sanitization is idempotent, and on
    an arbitrary text the result of the second application is a fixed
    point. *)
Lemma sanitize_idempotent_without_brackets (x : str) :
  (bracket_free x = true ->
   _sanitize_query (_sanitize_query x) = _sanitize_query x) /\
  _sanitize_query (_sanitize_query (_sanitize_query x)) =
    _sanitize_query (_sanitize_query x).
Proof.
  split.
  - apply sanitize_fixed_bracket_free.
  - apply sanitize_fixed_bracket_free, bracket_free_sanitize.
Qed.

(** C2: [_sanitize_query] is not idempotent, because it deletes the
    brackets after it has collapsed and trimmed the whitespace, and so
    brings back what these two steps removed.  The valid query
    "solve x < 3" is sanitized to "solve x  3", with a run of two
    spaces, and only a second pass gives "solve x 3"; the valid query
    "<> 2+2" is sanitized to " 2+2", with a leading space, and only a
    second pass gives "2+2".  The same on "a < b". *)
Theorem sanitize_query_undoes_collapse :
  (validate_input (py "solve x < 3") =
     InputVerdict true None (Some (py "solve x  3")) /\
   _sanitize_query (py "solve x  3") = py "solve x 3" /\
   _sanitize_query (_sanitize_query (py "solve x < 3")) <>
     _sanitize_query (py "solve x < 3")) /\
  (validate_input (py "<> 2+2") = InputVerdict true None (Some (py " 2+2")) /\
   _sanitize_query (py " 2+2") = py "2+2" /\
   _sanitize_query (_sanitize_query (py "<> 2+2")) <>
     _sanitize_query (py "<> 2+2")) /\
  (_sanitize_query (py "a < b") = py "a  b" /\
   _sanitize_query (_sanitize_query (py "a < b")) = py "a b" /\
   _sanitize_query (_sanitize_query (py "a < b")) <>
     _sanitize_query (py "a < b")).
Proof.
  repeat split; try (vm_compute; reflexivity); vm_compute; discriminate.
Qed.

(** ** Confidence *)

Local Open Scope Q_scope.

Lemma of_nat_nonneg (n : nat) : 0 <= of_nat n.
Proof.
  unfold of_nat, Qle. simpl. lia.
Qed.

Lemma raw_confidence_nonneg (text : str) : 0 <= raw_confidence text.
Proof.
  unfold raw_confidence, bonus.
  pose proof (of_nat_nonneg (symbol_count text)) as Hs.
  pose proof (of_nat_nonneg (term_count text)) as Ht.
  destruct (Q.min_spec (of_nat (symbol_count text) * 0.1) 0.3) as [[_ ->]|[_ ->]];
  destruct (Q.min_spec (of_nat (term_count text) * 0.1) 0.3) as [[_ ->]|[_ ->]];
  destruct (contains (py "step") (lower text));
  destruct (100 <? List.length text)%nat; lra.
Qed.

Lemma calculate_confidence_eq (text : str) :
  _calculate_confidence text == Qmin 1 (raw_confidence text).
Proof.
  unfold _calculate_confidence, raw_confidence, bonus.
  fold (symbol_count text). fold (term_count text).
  set (ns := of_nat (symbol_count text) * 0.1).
  set (nt := of_nat (term_count text) * 0.1).
  destruct (py_min_spec ns 0.3) as [[Hs ->]|[Hs ->]];
  destruct (py_min_spec nt 0.3) as [[Ht ->]|[Ht ->]];
  destruct (Q.min_spec ns 0.3) as [[Hs' ->]|[Hs' ->]];
  destruct (Q.min_spec nt 0.3) as [[Ht' ->]|[Ht' ->]];
  destruct (contains (py "step") (lower text));
  destruct (100 <? List.length text)%nat;
  match goal with
  | |- py_min ?a ?b == Qmin ?c ?d =>
      destruct (py_min_spec a b) as [[H1 ->]|[H1 ->]];
      destruct (Q.min_spec c d) as [[H2 ->]|[H2 ->]]
  end; lra.
Qed.

Lemma clamp01_bounds (x : Q) : 0 <= clamp01 x /\ clamp01 x <= 1.
Proof.
  unfold clamp01.
  destruct (Q.min_spec 1 x) as [[H1 E1]|[H1 E1]];
  destruct (Q.max_spec 0 (Qmin 1 x)) as [[H2 E2]|[H2 E2]];
  rewrite E2; try rewrite E1; split; lra.
Qed.

Lemma clamp01_nonneg (x : Q) : 0 <= x -> clamp01 x == Qmin 1 x.
Proof.
  unfold clamp01. intros Hx.
  destruct (Q.min_spec 1 x) as [[H1 E1]|[H1 E1]];
  destruct (Q.max_spec 0 (Qmin 1 x)) as [[H2 E2]|[H2 E2]];
  rewrite E2; try rewrite E1; try rewrite E1 in H2; lra.
Qed.

(** C8, as stated, fails: the confidence is not the formula of the
    claim taken on the response.  "= = =" has three symbols, for which
    the formula gives 0.3, but no educational marker, and gets 0; "step"
    followed by 97 newlines has 101 characters, for which the formula
    gives 0.2 + 0.2, but its blank lines are filtered out before the
    length is measured, and it gets 0.2. *)
Lemma confidence_formula_counterexample :
  (clamp01 (raw_confidence (py "= = =")) == 0.3 /\
   _calculate_confidence (py "= = =") == 0.3 /\
   confidence (validate_output (py "= = =")) == 0 /\
   ~ confidence (validate_output (py "= = =")) ==
       clamp01 (raw_confidence (py "= = ="))) /\
  (clamp01 (raw_confidence (py "step" ++ repeat nl 97)) == 0.4 /\
   _calculate_confidence (py "step" ++ repeat nl 97) == 0.4 /\
   confidence (validate_output (py "step" ++ repeat nl 97)) == 0.2 /\
   ~ confidence (validate_output (py "step" ++ repeat nl 97)) ==
       clamp01 (raw_confidence (py "step" ++ repeat nl 97))).
Proof.
  repeat split; try (vm_compute; reflexivity);
    intros H; vm_compute in H; discriminate H.
Qed.

(** C8, amended: the confidence [validate_output] returns lies in
    [0, 1].  A response without an educational marker is answered with
    the fallback message and the confidence 0.  Otherwise the verdict
    carries the filtered response, and the confidence is the clamp to
    [0, 1] of: the symbol count times 0.1 capped at 0.3, plus 0.2 if
    "step" occurs, plus the domain-term count times 0.1 capped at 0.3,
    plus 0.2 if the text has more than 100 characters, all measured on
    the filtered response and not on the response itself. *)
Theorem confidence_in_unit_interval (response : str) :
  let v := validate_output response in
  (0 <= confidence v /\ confidence v <= 1) /\
  (if _is_educational_response response
   then out_valid v = true /\
        filtered_response v = _filter_response response /\
        confidence v == clamp01 (raw_confidence (_filter_response response))
   else out_valid v = false /\
        filtered_response v = py msg_not_educational /\
        confidence v == 0).
Proof.
  unfold validate_output.
  destruct (_is_educational_response response); simpl.
  - pose proof (raw_confidence_nonneg (_filter_response response)) as Hr.
    pose proof (clamp01_nonneg _ Hr) as Hc.
    pose proof (clamp01_bounds (raw_confidence (_filter_response response))) as Hb.
    pose proof (calculate_confidence_eq (_filter_response response)) as He.
    rewrite <- Hc in He.
    split; [|split; [reflexivity | split; [reflexivity | exact He]]].
    rewrite He. exact Hb.
  - split; [split; lra | split; [reflexivity | split; [reflexivity | lra]]].
Qed.

Example confidence_of_worked_answer :
  confidence (validate_output
    (py "Step 1: x = 2. The equation formula theorem")) == 0.6.
Proof. vm_compute. reflexivity. Qed.

End GateProperties.

(* ================================================================== *)
(** * Facts about dictionaries *)
(* ================================================================== *)

Module DictFacts.

Import PyStr Py DictSpec.

Lemma str_eqb_spec (a b : str) : reflect (a = b) (str_eqb a b).
Proof.
  revert b; induction a as [|x a IH]; intros [|y b]; simpl;
    try (constructor; congruence).
  destruct (N.eqb_spec x y) as [->|Hne]; simpl.
  - destruct (IH b) as [->|Hne]; constructor; congruence.
  - constructor; congruence.
Qed.

#[export] Instance str_key_laws : KeyLaws str.
Proof.
  intros a b. unfold key_eqb, str_key.
  destruct (str_eqb_spec a b); split; congruence.
Qed.

#[export] Instance opt_str_key_laws : KeyLaws (option str).
Proof.
  intros [a|] [b|]; unfold key_eqb, opt_str_key;
    try (split; congruence).
  destruct (str_eqb_spec a b); split; congruence.
Qed.

Section Facts.

Context {K : Type} `{KeyLaws K} {V : Type}.

Implicit Types (k : K) (v : V) (d : dict (K:=K) V).

Lemma key_eqb_spec k k' : reflect (k = k') (key_eqb k k').
Proof.
  destruct (key_eqb k k') eqn:E; constructor.
  - now apply key_eqb_eq.
  - intros Heq. apply key_eqb_eq in Heq. congruence.
Qed.

Lemma key_eqb_refl k : key_eqb k k = true.
Proof. destruct (key_eqb_spec k k); congruence. Qed.

Lemma key_eqb_neq k k' : k <> k' -> key_eqb k k' = false.
Proof. destruct (key_eqb_spec k k'); congruence. Qed.

Lemma get_item_None k d : get_item k d = None <-> ~ In k (keys d).
Proof.
  induction d as [|[k' v'] d IH]; simpl.
  - tauto.
  - destruct (key_eqb_spec k k') as [->|Hne].
    + split; [discriminate | intros Hn; exfalso; apply Hn; now left].
    + rewrite IH. split; [intros Hn [E|Hi]; congruence | tauto].
Qed.

Lemma get_item_In k v d : get_item k d = Some v -> In (k, v) d.
Proof.
  induction d as [|[k' v'] d IH]; simpl; [discriminate|].
  destruct (key_eqb_spec k k') as [->|Hne].
  - intros [= ->]. now left.
  - intros Hg. right. now apply IH.
Qed.

Lemma In_get_item k v d :
  NoDup (keys d) -> In (k, v) d -> get_item k d = Some v.
Proof.
  induction d as [|[k' v'] d IH]; simpl; [tauto|].
  intros Hnd [E|Hi].
  - injection E as -> ->. now rewrite key_eqb_refl.
  - inversion Hnd as [|? ? Hnotin Hnd']; subst.
    destruct (key_eqb_spec k k') as [->|Hne].
    + exfalso. apply Hnotin. apply (in_map fst) in Hi. exact Hi.
    + now apply IH.
Qed.

Lemma mem_true k d : mem k d = true <-> In k (keys d).
Proof.
  unfold mem. destruct (get_item k d) eqn:E.
  - split; [intros _ | reflexivity].
    apply get_item_In in E. apply (in_map fst) in E. exact E.
  - apply get_item_None in E. split; [discriminate | tauto].
Qed.

Lemma get_item_set_same k v d : get_item k (set_item k v d) = Some v.
Proof.
  induction d as [|[k' v'] d IH]; simpl.
  - now rewrite key_eqb_refl.
  - destruct (key_eqb_spec k k') as [->|Hne]; simpl.
    + now rewrite key_eqb_refl.
    + now rewrite (key_eqb_neq _ _ Hne).
Qed.

Lemma get_item_set_other k k' v d :
  k <> k' -> get_item k (set_item k' v d) = get_item k d.
Proof.
  intros Hne. induction d as [|[k2 v2] d IH]; simpl.
  - now rewrite (key_eqb_neq _ _ Hne).
  - destruct (key_eqb_spec k' k2) as [->|Hne2]; simpl.
    + now rewrite (key_eqb_neq _ _ Hne).
    + now rewrite IH.
Qed.

(** Assigning to a new key appends it. *)
Lemma set_item_new k v d :
  get_item k d = None -> set_item k v d = d ++ [(k, v)].
Proof.
  induction d as [|[k' v'] d IH]; simpl; [reflexivity|].
  destruct (key_eqb_spec k k'); [discriminate|].
  intros Hg. now rewrite IH.
Qed.

(** Assigning to an existing key leaves the keys and their order. *)
Lemma keys_set_item_old k v d :
  mem k d = true -> keys (set_item k v d) = keys d.
Proof.
  unfold mem. induction d as [|[k' v'] d IH]; simpl; [discriminate|].
  destruct (key_eqb_spec k k') as [->|Hne]; simpl; [reflexivity|].
  intros Hm. now rewrite IH.
Qed.

Lemma keys_set_item k v d :
  keys (set_item k v d) = if mem k d then keys d else keys d ++ [k].
Proof.
  destruct (mem k d) eqn:E.
  - now apply keys_set_item_old.
  - unfold mem in E. destruct (get_item k d) eqn:G; [discriminate|].
    rewrite (set_item_new _ _ _ G). unfold keys. now rewrite map_app.
Qed.

Lemma NoDup_keys_set_item k v d :
  NoDup (keys d) -> NoDup (keys (set_item k v d)).
Proof.
  intros Hnd. rewrite keys_set_item. destruct (mem k d) eqn:E; [exact Hnd|].
  assert (~ In k (keys d)) as Hn.
  { intros Hi. apply mem_true in Hi. congruence. }
  clear E. induction (keys d) as [|a l IH]; simpl.
  - constructor; [tauto | constructor].
  - inversion Hnd; subst. constructor.
    + rewrite in_app_iff. simpl. intros [Hi|[E|[]]]; [tauto|].
      apply Hn. now left.
    + apply IH; [assumption|]. intros Hi. apply Hn. now right.
Qed.

Lemma remove_absent k d : ~ In k (keys d) -> remove k d = d.
Proof.
  induction d as [|[k' v'] d IH]; simpl; [reflexivity|].
  intros Hn. destruct (key_eqb_spec k k') as [->|Hne]; [tauto|].
  rewrite IH; [reflexivity | tauto].
Qed.

Lemma length_remove k d :
  mem k d = true -> S (List.length (remove k d)) = List.length d.
Proof.
  unfold mem. induction d as [|[k' v'] d IH]; simpl; [discriminate|].
  destruct (key_eqb_spec k k'); simpl; [reflexivity|].
  intros Hm. now rewrite IH.
Qed.

Lemma In_keys_remove k k' d :
  In k' (keys (remove k d)) -> In k' (keys d).
Proof.
  induction d as [|[k2 v2] d IH]; simpl; [tauto|].
  destruct (key_eqb_spec k k2); simpl; tauto.
Qed.

Lemma NoDup_keys_remove k d :
  NoDup (keys d) -> NoDup (keys (remove k d)).
Proof.
  induction d as [|[k' v'] d IH]; simpl; [tauto|].
  intros Hnd. inversion Hnd; subst.
  destruct (key_eqb_spec k k'); simpl; [assumption|].
  constructor; [|now apply IH].
  intros Hi. now apply In_keys_remove in Hi.
Qed.

Lemma get_item_remove_same k d :
  NoDup (keys d) -> get_item k (remove k d) = None.
Proof.
  induction d as [|[k' v'] d IH]; simpl; [reflexivity|].
  intros Hnd. inversion Hnd; subst.
  destruct (key_eqb_spec k k') as [->|Hne]; simpl.
  - now apply get_item_None.
  - rewrite (key_eqb_neq _ _ Hne). now apply IH.
Qed.

Lemma get_item_remove_other k k' d :
  k <> k' -> get_item k (remove k' d) = get_item k d.
Proof.
  intros Hne. induction d as [|[k2 v2] d IH]; simpl; [reflexivity|].
  destruct (key_eqb_spec k' k2) as [->|Hne2]; simpl.
  - now rewrite (key_eqb_neq _ _ Hne).
  - now rewrite IH.
Qed.

(** Deleting a key of a dictionary without repeated keys takes out its
    one item. *)
Lemma remove_middle k v (l1 l2 : dict (K:=K) V) :
  ~ In k (keys l1) -> remove k (l1 ++ (k, v) :: l2) = l1 ++ l2.
Proof.
  induction l1 as [|[k' v'] l1 IH]; simpl.
  - now rewrite key_eqb_refl.
  - intros Hn. destruct (key_eqb_spec k k') as [->|Hne]; [tauto|].
    rewrite IH; [reflexivity | tauto].
Qed.

Lemma keys_app (d e : dict (K:=K) V) : keys (d ++ e) = keys d ++ keys e.
Proof. apply map_app. Qed.

Lemma length_set_item k v d :
  List.length (set_item k v d) =
    if mem k d then List.length d else S (List.length d).
Proof.
  pose proof (keys_set_item k v d) as Hk.
  apply (f_equal (@List.length K)) in Hk. unfold keys in Hk.
  rewrite length_map in Hk. rewrite Hk.
  destruct (mem k d); rewrite ?length_app, length_map; simpl; lia.
Qed.

End Facts.

(** Two dictionaries over the same keys lose the same key together. *)
Lemma keys_remove_same_keys {K : Type} `{KeyLaws K} {V W : Type}
    (k : K) (d : dict (K:=K) V) (e : dict (K:=K) W) :
  keys d = keys e -> keys (remove k d) = keys (remove k e).
Proof.
  revert e; induction d as [|[k1 v1] d IH]; intros [|[k2 w2] e]; simpl;
    try discriminate; [reflexivity|].
  intros [= -> Hk]. destruct (key_eqb k k2); simpl; [exact Hk|].
  f_equal. now apply IH.
Qed.

Lemma keys_set_same_keys {K : Type} `{KeyLaws K} {V W : Type}
    (k : K) (v : V) (w : W) (d : dict (K:=K) V) (e : dict (K:=K) W) :
  keys d = keys e ->
  keys (set_item k v d) = keys (set_item k w e).
Proof.
  revert e; induction d as [|[k1 v1] d IH]; intros [|[k2 w2] e]; simpl;
    try discriminate; [reflexivity|].
  intros [= -> Hk]. destruct (key_eqb k k2); simpl; [now f_equal|].
  f_equal. now apply IH.
Qed.

End DictFacts.

(* ================================================================== *)
(** * Properties of the response cache *)
(* ================================================================== *)

Module CacheProperties.

Import PyStr Py PyFloat ResponseCache DictSpec CacheSpec DictFacts NumFacts.
Local Open Scope Q_scope.

Section Props.

Variable payload : Type.

Local Abbreviation t := (t payload).
Local Abbreviation call := (call payload).

(** ** [get] *)

Lemma get_at_cases (c : t) (key : str) (now now' : Q) :
  get_at c key now now' =
    match get_item key (cache c) with
    | None => (None, c)
    | Some e =>
        if Qltb (ttl c) (now - timestamp e)
        then (None, Cache (remove key (cache c)) (remove key (access_times c))
                          (max_size c) (ttl c))
        else (Some (response e),
              Cache (cache c) (set_item key now' (access_times c))
                    (max_size c) (ttl c))
    end.
Proof.
  unfold get_at. destruct (get_item key (cache c)) as [e|]; [|reflexivity].
  destruct (Qltb (ttl c) (now - timestamp e)); [|reflexivity].
  destruct (mem key (access_times c)) eqn:E; [reflexivity|].
  rewrite (remove_absent key (access_times c)); [reflexivity|].
  intros Hi. apply mem_true in Hi. congruence.
Qed.

Lemma get_at_wf (c : t) (key : str) (now now' : Q) :
  wf c -> wf (snd (get_at c key now now')).
Proof.
  intros [Hk Hnd]. rewrite get_at_cases.
  destruct (get_item key (cache c)) as [e|] eqn:G; [|now split].
  destruct (Qltb (ttl c) (now - timestamp e)); simpl; split; simpl.
  - now apply keys_remove_same_keys.
  - now apply NoDup_keys_remove.
  - rewrite keys_set_item_old; [exact Hk|].
    apply mem_true. rewrite <- Hk. apply mem_true. unfold mem. now rewrite G.
  - exact Hnd.
Qed.

Lemma get_at_size (c : t) (key : str) (now now' : Q) :
  (size (snd (get_at c key now now')) <= size c)%Z /\
  max_size (snd (get_at c key now now')) = max_size c /\
  ttl (snd (get_at c key now now')) = ttl c.
Proof.
  rewrite get_at_cases. unfold size.
  destruct (get_item key (cache c)) as [e|] eqn:G;
    [|simpl; repeat split; lia].
  destruct (Qltb (ttl c) (now - timestamp e)); simpl; repeat split; try lia.
  assert (mem key (cache c) = true) as Hm by (unfold mem; now rewrite G).
  apply length_remove in Hm. lia.
Qed.

(** ** [_evict_oldest] *)

(** [min] returns the first of the items with the least value: the
    items before it are strictly larger, those after it are not
    smaller. *)
Lemma min_from_split (d pre mid : list (str * Q)) (b : str * Q) :
  (forall x, In x pre -> snd b < snd x) ->
  (forall x, In x mid -> snd b <= snd x) ->
  exists l1 tv l2,
    pre ++ b :: mid ++ d = l1 ++ (min_from b d, tv) :: l2 /\
    (forall x, In x l1 -> tv < snd x) /\
    (forall x, In x l2 -> tv <= snd x).
Proof.
  revert pre mid b. induction d as [|[k v] d IH]; intros pre mid b Hpre Hmid.
  - exists pre, (snd b), mid. rewrite app_nil_r. simpl.
    destruct b; simpl; auto.
  - simpl. destruct (Qltb_spec v (snd b)) as [Hlt|Hge].
    + destruct (IH (pre ++ b :: mid) [] (k, v)) as (l1 & tv & l2 & E & H1 & H2).
      * intros x Hx. simpl. apply in_app_or in Hx as [Hx|[<-|Hx]].
        -- apply Qlt_trans with (snd b); auto.
        -- exact Hlt.
        -- apply Qlt_le_trans with (snd b); auto.
      * intros x [].
      * exists l1, tv, l2. split; [|auto].
        rewrite <- E. simpl. now rewrite <- app_assoc.
    + apply Qnot_lt_le in Hge.
      destruct (IH pre (mid ++ [(k, v)]) b) as (l1 & tv & l2 & E & H1 & H2).
      * exact Hpre.
      * intros x Hx. apply in_app_or in Hx as [Hx|[<-|[]]]; auto.
      * exists l1, tv, l2. split; [|auto].
        rewrite <- E. now rewrite <- app_assoc.
Qed.

Lemma min_first (first : str * Q) (rest : list (str * Q)) :
  exists l1 tv l2,
    first :: rest = l1 ++ (min_from first rest, tv) :: l2 /\
    (forall x, In x l1 -> tv < snd x) /\
    (forall x, In x l2 -> tv <= snd x).
Proof.
  destruct (min_from_split rest [] [] first) as (l1 & tv & l2 & E & H1 & H2);
    try (intros x []).
  exists l1, tv, l2. auto.
Qed.

(** On a well-formed cache that holds something, [_evict_oldest] does
    not raise and deletes exactly the item [min] picks. *)
Lemma evict_oldest_wf (c : t) :
  wf c -> access_times c <> [] ->
  exists l1 victim tv l2,
    access_times c = l1 ++ (victim, tv) :: l2 /\
    (forall x, In x l1 -> tv < snd x) /\
    (forall x, In x l2 -> tv <= snd x) /\
    mem victim (cache c) = true /\
    _evict_oldest c =
      Return (Cache (remove victim (cache c)) (l1 ++ l2) (max_size c) (ttl c)).
Proof.
  intros [Hk Hnd] Hne. unfold _evict_oldest.
  destruct (access_times c) as [|first rest] eqn:Ea; [congruence|].
  destruct (min_first first rest) as (l1 & tv & l2 & E & H1 & H2).
  set (victim := min_from first rest) in *.
  exists l1, victim, tv, l2. rewrite E in *.
  assert (In victim (keys (cache c))) as Hin.
  { rewrite Hk, keys_app, in_app_iff. right. now left. }
  assert (~ In victim (keys l1)) as Hn1.
  { rewrite Hk, keys_app in Hnd. simpl in Hnd.
    apply NoDup_remove_2 in Hnd. rewrite in_app_iff in Hnd. tauto. }
  repeat split; auto.
  - now apply mem_true.
  - unfold del_item. apply mem_true in Hin. rewrite Hin. simpl.
    assert (mem victim (l1 ++ (victim, tv) :: l2) = true) as ->.
    { apply mem_true. rewrite keys_app, in_app_iff. right. now left. }
    simpl. now rewrite remove_middle.
Qed.

(** [_evict_oldest] never raises on a well-formed cache. *)
Lemma evict_oldest_total (c : t) :
  wf c ->
  exists c1,
    _evict_oldest c = Return c1 /\ wf c1 /\
    max_size c1 = max_size c /\ ttl c1 = ttl c /\
    (forall k, get_item k (cache c) = None -> get_item k (cache c1) = None) /\
    (cache c <> [] -> (size c1 = size c - 1)%Z) /\
    (cache c = [] -> c1 = c).
Proof.
  intros Hwf. destruct (access_times c) as [|first rest] eqn:Ea.
  - exists c. unfold _evict_oldest. rewrite Ea. repeat split; try apply Hwf; auto.
    intros Hne. destruct Hwf as [Hk _]. rewrite Ea in Hk.
    destruct (cache c); [congruence | discriminate].
  - destruct (evict_oldest_wf c Hwf) as (l1 & victim & tv & l2 & E & _ & _ & Hm & Hev).
    { congruence. }
    eexists. split; [exact Hev|]. destruct Hwf as [Hk Hnd].
    simpl. repeat split; simpl.
    + rewrite (keys_remove_same_keys victim _ _ Hk), E.
      f_equal. apply remove_middle.
      rewrite Hk, E, keys_app in Hnd. simpl in Hnd.
      apply NoDup_remove_2 in Hnd. rewrite in_app_iff in Hnd. tauto.
    + now apply NoDup_keys_remove.
    + intros k Hg. apply get_item_None. apply get_item_None in Hg.
      intros Hi. apply Hg. now apply In_keys_remove in Hi.
    + intros _. unfold size. simpl. apply length_remove in Hm. lia.
    + intros Hc. rewrite Hc in Hk. rewrite Ea in Hk. discriminate.
Qed.

(** ** [set] *)

Lemma set_at_unfold (c : t) (key : str) (resp : payload) (now now' : Q) :
  set_at c key resp now now' =
    bind (before_insert c) (fun c1 => Return (inserted c1 key resp now now')).
Proof. reflexivity. Qed.

Lemma inserted_wf (c1 : t) (key : str) (resp : payload) (now now' : Q) :
  wf c1 -> wf (inserted c1 key resp now now').
Proof.
  intros [Hk Hnd]. split; simpl.
  - now apply keys_set_same_keys.
  - now apply NoDup_keys_set_item.
Qed.

Lemma before_insert_total (c : t) :
  wf c ->
  exists c1,
    before_insert c = Return c1 /\ wf c1 /\
    max_size c1 = max_size c /\ ttl c1 = ttl c /\
    (forall k, get_item k (cache c) = None -> get_item k (cache c1) = None) /\
    ((size c < max_size c)%Z -> c1 = c) /\
    ((1 <= max_size c <= size c)%Z -> (size c1 = size c - 1)%Z).
Proof.
  intros Hwf. unfold before_insert, size.
  destruct (Z.leb_spec (max_size c) (Z.of_nat (List.length (cache c)))) as [Hfull|Hroom].
  - destruct (evict_oldest_total c Hwf) as (c1 & E & Hwf1 & Hm & Ht & Hg & Hs & _).
    exists c1. repeat split; try apply Hwf1; auto.
    + lia.
    + intros Hr. apply Hs. destruct (cache c); simpl in *; [lia | discriminate].
  - exists c. repeat split; try apply Hwf; auto. lia.
Qed.

(** [set] never raises on a well-formed cache, leaves it well-formed
    and stores the entry. *)
Lemma set_at_total (c : t) (key : str) (resp : payload) (now now' : Q) :
  wf c ->
  exists c',
    set_at c key resp now now' = Return c' /\ wf c' /\
    max_size c' = max_size c /\ ttl c' = ttl c /\
    get_item key (cache c') = Some (Entry resp now) /\
    get_item key (access_times c') = Some now'.
Proof.
  intros Hwf. rewrite set_at_unfold.
  destruct (before_insert_total c Hwf) as (c1 & E & Hwf1 & Hm & Ht & _).
  rewrite E. simpl. eexists. split; [reflexivity|].
  split; [now apply inserted_wf|]. simpl.
  repeat split; auto; apply get_item_set_same.
Qed.

(** With room for at least one entry, [set] keeps the size within
    [max_size]. *)
Lemma set_at_bounded (c c' : t) (key : str) (resp : payload) (now now' : Q) :
  wf c -> (1 <= max_size c)%Z -> (size c <= max_size c)%Z ->
  set_at c key resp now now' = Return c' ->
  (size c' <= max_size c)%Z.
Proof.
  intros Hwf H1 Hb. rewrite set_at_unfold.
  destruct (before_insert_total c Hwf) as (c1 & E & _ & _ & _ & _ & Hroom & Hfull).
  rewrite E. simpl. intros [= <-]. unfold size, inserted. simpl.
  rewrite length_set_item.
  destruct (Z.ltb_spec (size c) (max_size c)) as [Hlt|Hge].
  - rewrite (Hroom Hlt). unfold size in *. destruct (mem key (cache c)); lia.
  - assert (size c1 = size c - 1)%Z as Hs by (apply Hfull; lia).
    unfold size in *. destruct (mem key (cache c1)); lia.
Qed.

(** ** Sequences of calls *)

Lemma init_wf (m : Z) (life : Q) : wf (init payload m life).
Proof. split; [reflexivity | constructor]. Qed.

Lemma step_wf (c : t) (op : call) :
  wf c ->
  exists c', step c op = Return c' /\ wf c' /\
             max_size c' = max_size c /\ ttl c' = ttl c.
Proof.
  intros Hwf. destruct op as [key now now'|key resp now now'|]; simpl.
  - eexists. split; [reflexivity|]. split; [now apply get_at_wf|].
    apply get_at_size.
  - destruct (set_at_total c key resp now now' Hwf) as (c' & E & Hw & Hm & Ht & _).
    exists c'. auto.
  - eexists. split; [reflexivity|]. split; [|split; reflexivity].
    split; [reflexivity | constructor].
Qed.

Lemma run_wf (ops : list call) (c : t) :
  wf c ->
  exists c', run c ops = Return c' /\ wf c' /\
             max_size c' = max_size c /\ ttl c' = ttl c.
Proof.
  revert c; induction ops as [|op ops IH]; intros c Hwf; simpl.
  - exists c. auto.
  - destruct (step_wf c op Hwf) as (c1 & E & Hw1 & Hm1 & Ht1). rewrite E. simpl.
    destruct (IH c1 Hw1) as (c' & E' & Hw' & Hm' & Ht').
    exists c'. repeat split; try apply Hw'; congruence.
Qed.

Lemma reachable_wf (c : t) : reachable c -> wf c.
Proof.
  intros (m & life & ops & E).
  destruct (run_wf ops _ (init_wf m life)) as (c' & E' & Hw & _).
  congruence.
Qed.

Lemma run_bounded (ops : list call) (c : t) :
  wf c -> (1 <= max_size c)%Z -> (size c <= max_size c)%Z ->
  exists c', run c ops = Return c' /\ wf c' /\
             max_size c' = max_size c /\ (size c' <= max_size c')%Z.
Proof.
  revert c; induction ops as [|op ops IH]; intros c Hwf H1 Hb; simpl.
  - exists c. auto.
  - destruct (step_wf c op Hwf) as (c1 & E & Hw1 & Hm1 & _). rewrite E. simpl.
    assert (size c1 <= max_size c1)%Z as Hb1.
    { rewrite Hm1. destruct op as [key now now'|key resp now now'|]; simpl in E.
      - injection E as <-. pose proof (get_at_size c key now now'). lia.
      - now apply (set_at_bounded c c1 key resp now now').
      - injection E as <-. unfold size, clear. simpl. lia. }
    destruct (IH c1 Hw1) as (c' & E' & Hw' & Hm' & Hb'); [lia | exact Hb1 |].
    exists c'. repeat split; try apply Hw'; auto. congruence.
Qed.

(** ** The claims about [get] *)

Lemma reachable_from_init (m : Z) (life : Q) (ops : list call) (c : t) :
  run (init payload m life) ops = Return c ->
  wf c /\ max_size c = m /\ ttl c = life.
Proof.
  intros E. destruct (run_wf ops _ (init_wf m life)) as (c' & E' & Hw & Hm & Ht).
  rewrite E in E'. injection E' as <-. auto.
Qed.

(** [get] with the float subtraction of the code. *)
Lemma calls_get_at_cases (ops : float_ops) (c : t) (key : str) (now now' : Q) :
  CacheCalls.get_at ops c key now now' =
    match get_item key (cache c) with
    | None => (None, c)
    | Some e =>
        if Qltb (ttl c) (fsub ops now (timestamp e))
        then (None, Cache (remove key (cache c)) (remove key (access_times c))
                          (max_size c) (ttl c))
        else (Some (response e),
              Cache (cache c) (set_item key now' (access_times c))
                    (max_size c) (ttl c))
    end.
Proof.
  unfold CacheCalls.get_at.
  destruct (get_item key (cache c)) as [e|]; [|reflexivity].
  destruct (Qltb (ttl c) (fsub ops now (timestamp e))); [|reflexivity].
  destruct (mem key (access_times c)) eqn:E; [reflexivity|].
  rewrite (remove_absent key (access_times c)); [reflexivity|].
  intros Hi. apply mem_true in Hi. congruence.
Qed.

(** With exact arithmetic it is the [get_at] of the core. *)
Lemma calls_get_at_exact (c : t) (key : str) (now now' : Q) :
  CacheCalls.get_at exact_ops c key now now' = get_at c key now now'.
Proof. reflexivity. Qed.

Lemma calls_get_at_wf (ops : float_ops) (c : t) (key : str) (now now' : Q) :
  wf c ->
  wf (snd (CacheCalls.get_at ops c key now now')) /\
  max_size (snd (CacheCalls.get_at ops c key now now')) = max_size c /\
  ttl (snd (CacheCalls.get_at ops c key now now')) = ttl c.
Proof.
  intros [Hk Hnd]. rewrite calls_get_at_cases.
  destruct (get_item key (cache c)) as [e|] eqn:G; [|now repeat split].
  destruct (Qltb (ttl c) (fsub ops now (timestamp e))); simpl;
    (split; [split; simpl | split; reflexivity]).
  - now apply keys_remove_same_keys.
  - now apply NoDup_keys_remove.
  - rewrite keys_set_item_old; [exact Hk|].
    apply mem_true. rewrite <- Hk. apply mem_true. unfold mem. now rewrite G.
  - exact Hnd.
Qed.

(** C5, amended: [get] answers [None] exactly when the fingerprint is
    absent or the difference [now - created_at], as the float
    subtraction of the code gives it, is greater than [ttl]; an expired
    entry is deleted from both dictionaries by that very call;
    otherwise the call is a hit that stores the new access time and
    returns the stored payload as it is.  This holds whatever the
    rounding of the subtraction, in every state in which the two
    dictionaries hold the same keys, as they do after any sequence of
    calls.  Where the subtraction is exact, an entry set at [t0] is a
    hit at every time up to [t0 + ttl] and a miss at every later
    time. *)
Theorem get_hit_or_miss
    (ops : float_ops) (c : t) (key : str) (now now' : Q) :
  wf c ->
  (fst (CacheCalls.get_at ops c key now now') = None <->
     get_item key (cache c) = None \/
     exists e, get_item key (cache c) = Some e /\
               ttl c < fsub ops now (timestamp e)) /\
  (get_item key (cache c) = None ->
     CacheCalls.get_at ops c key now now' = (None, c)) /\
  (forall e, get_item key (cache c) = Some e ->
     ttl c < fsub ops now (timestamp e) ->
     CacheCalls.get_at ops c key now now' =
       (None, Cache (remove key (cache c)) (remove key (access_times c))
                    (max_size c) (ttl c)) /\
     get_item key (remove key (cache c)) = None /\
     get_item key (remove key (access_times c)) = None) /\
  (forall e, get_item key (cache c) = Some e ->
     ~ ttl c < fsub ops now (timestamp e) ->
     CacheCalls.get_at ops c key now now' =
       (Some (response e),
        Cache (cache c) (set_item key now' (access_times c))
              (max_size c) (ttl c)) /\
     get_item key (set_item key now' (access_times c)) = Some now') /\
  (forall (resp : payload) (t0 t0' : Q),
     exists c1,
       set_at c key resp t0 t0' = Return c1 /\
       (fsub ops now t0 == now - t0 ->
        (now <= t0 + ttl c ->
           fst (CacheCalls.get_at ops c1 key now now') = Some resp) /\
        (t0 + ttl c < now ->
           fst (CacheCalls.get_at ops c1 key now now') = None))).
Proof.
  intros Hwf.
  split; [|split; [|split; [|split]]].
  - rewrite calls_get_at_cases. split.
    + destruct (get_item key (cache c)) as [e|]; [|now left].
      destruct (Qltb_spec (ttl c) (fsub ops now (timestamp e))); simpl;
        [|discriminate].
      intros _. right. now exists e.
    + intros [->|(e & -> & Hexp)]; [reflexivity|].
      destruct (Qltb_spec (ttl c) (fsub ops now (timestamp e)));
        [reflexivity | tauto].
  - intros Hg. rewrite calls_get_at_cases. now rewrite Hg.
  - intros e Hg Hexp. split; [|split].
    + rewrite calls_get_at_cases, Hg.
      destruct (Qltb_spec (ttl c) (fsub ops now (timestamp e)));
        [reflexivity | tauto].
    + apply get_item_remove_same, Hwf.
    + apply get_item_remove_same. destruct Hwf as [Hk Hnd]. now rewrite <- Hk.
  - intros e Hg Hlive. split.
    + rewrite calls_get_at_cases, Hg.
      destruct (Qltb_spec (ttl c) (fsub ops now (timestamp e)));
        [tauto | reflexivity].
    + apply get_item_set_same.
  - intros resp t0 t0'.
    destruct (set_at_total c key resp t0 t0' Hwf) as (c1 & E & _ & _ & Ht & Hg & _).
    exists c1. split; [exact E|]. intros Hexact.
    rewrite !calls_get_at_cases, Hg, Ht. simpl.
    destruct (Qltb_spec (ttl c) (fsub ops now t0)) as [Hlt|Hge]; simpl.
    + split; [intros Hle; lra | reflexivity].
    + split; [reflexivity | intros Hlt; lra].
Qed.

(** ** The claims about [set] and eviction *)

(** What [set] does to a full cache: the first item with the least
    access time goes, then the entry is assigned. *)
Lemma set_at_full (c : t) (key : str) (resp : payload) (now now' : Q) :
  wf c -> (1 <= max_size c <= size c)%Z ->
  exists l1 victim tv l2 c1,
    access_times c = l1 ++ (victim, tv) :: l2 /\
    (forall x, In x l1 -> tv < snd x) /\
    (forall x, In x l2 -> tv <= snd x) /\
    mem victim (cache c) = true /\
    before_insert c = Return c1 /\
    cache c1 = remove victim (cache c) /\
    access_times c1 = l1 ++ l2 /\
    wf c1 /\
    set_at c key resp now now' = Return (inserted c1 key resp now now').
Proof.
  intros Hwf Hfull.
  assert (access_times c <> []) as Hne.
  { destruct Hwf as [Hk _]. unfold size in Hfull.
    destruct (cache c); simpl in *; [lia|].
    destruct (access_times c); [discriminate | congruence]. }
  destruct (evict_oldest_wf c Hwf Hne) as (l1 & victim & tv & l2 & E & H1 & H2 & Hm & Hev).
  assert (before_insert c = _evict_oldest c) as Hb.
  { unfold before_insert, size in *.
    destruct (Z.leb_spec (max_size c) (Z.of_nat (List.length (cache c)))); [reflexivity | lia]. }
  destruct (evict_oldest_total c Hwf) as (c1 & E1 & Hwf1 & _).
  exists l1, victim, tv, l2, c1.
  rewrite set_at_unfold, Hb, E1. rewrite Hev in E1. injection E1 as <-.
  simpl. repeat split; auto; apply Hwf1.
Qed.

(** Setting keys that are all new and all different fills the cache up
    to [max_size] and keeps it there. *)
Lemma run_distinct_sets (entries : list (str * payload * Q * Q)) (c : t) :
  wf c -> (1 <= max_size c)%Z -> (size c <= max_size c)%Z ->
  NoDup (List.map key_of entries) ->
  (forall e, In e entries -> get_item (key_of e) (cache c) = None) ->
  exists c',
    run c (List.map set_call entries) = Return c' /\
    size c' = Z.min (size c + Z.of_nat (List.length entries)) (max_size c).
Proof.
  revert c; induction entries as [|[[[key resp] now] now'] entries IH];
    intros c Hwf H1 Hb Hnd Hnew.
  - exists c. split; [reflexivity|]. simpl. lia.
  - simpl. rewrite set_at_unfold.
    destruct (before_insert_total c Hwf) as (c1 & E & Hwf1 & Hm1 & _ & Hg1 & Hroom & Hfull).
    rewrite E. simpl.
    inversion Hnd as [|? ? Hnotin Hnd']; subst.
    assert (get_item key (cache c1) = None) as Hk1.
    { apply Hg1. apply (Hnew (key, resp, now, now')). now left. }
    assert (size (inserted c1 key resp now now') = size c1 + 1)%Z as Hs.
    { unfold size, inserted. simpl. rewrite length_set_item. unfold mem.
      rewrite Hk1. lia. }
    assert (size c1 + 1 = Z.min (size c + 1) (max_size c))%Z as Hs1.
    { destruct (Z.ltb_spec (size c) (max_size c)) as [Hlt|Hge].
      - rewrite (Hroom Hlt). lia.
      - rewrite Hfull; lia. }
    destruct (IH (inserted c1 key resp now now')) as (c' & E' & Hs').
    + now apply inserted_wf.
    + simpl. lia.
    + simpl. lia.
    + exact Hnd'.
    + intros e He. simpl.
      assert (key_of e <> key) as Hne.
      { intros Heq. apply Hnotin. unfold key_of at 1. simpl.
        rewrite <- Heq. now apply in_map. }
      rewrite (get_item_set_other _ _ _ _ Hne).
      apply Hg1. apply Hnew. now right.
    + exists c'. split; [exact E'|]. rewrite Hs'.
      change (max_size (inserted c1 key resp now now')) with (max_size c1).
      rewrite Hs, Hm1. lia.
Qed.

(** C4, amended: for a configured [max_size >= 1], no sequence of calls
    raises or takes the cache above [max_size]; a [set] of a new
    fingerprint at capacity evicts exactly one entry, one whose
    last-access time is the least, and appends the new one, so the size
    stays [max_size]; inserting [max_size + 1] distinct fingerprints
    into a new cache leaves exactly [max_size] entries.  With
    [max_size = 1], after [set("f1", p1)] and [set("f2", p2)],
    [get("f1")] misses and, within the time to live, [get("f2")] hits. *)
Theorem capacity_respected (m : Z) (life : Q) :
  (1 <= m)%Z ->
  (forall ops, exists c,
     run (init payload m life) ops = Return c /\ (size c <= m)%Z) /\
  (forall ops c key resp now now',
     run (init payload m life) ops = Return c ->
     size c = m -> get_item key (cache c) = None ->
     exists l1 victim tv l2,
       access_times c = l1 ++ (victim, tv) :: l2 /\
       (forall x, In x (access_times c) -> tv <= snd x) /\
       mem victim (cache c) = true /\
       set_at c key resp now now' =
         Return (Cache (remove victim (cache c) ++ [(key, Entry resp now)])
                       ((l1 ++ l2) ++ [(key, now')]) m life) /\
       List.length (remove victim (cache c) ++ [(key, Entry resp now)]) =
         List.length (cache c)) /\
  (forall entries,
     NoDup (List.map key_of entries) ->
     Z.of_nat (List.length entries) = (m + 1)%Z ->
     exists c,
       run (init payload m life) (List.map set_call entries) = Return c /\
       size c = m) /\
  (forall p1 p2 t1 t1' t2 t2' now now',
     m = 1%Z -> ~ life < now - t2 ->
     exists c,
       run (init payload m life)
           [CallSet (py "f1") p1 t1 t1'; CallSet (py "f2") p2 t2 t2'] = Return c /\
       fst (get_at c (py "f1") now now') = None /\
       fst (get_at c (py "f2") now now') = Some p2).
Proof.
  intros Hm.
  assert (size (init payload m life) <= max_size (init payload m life))%Z
    as Hinit by (unfold size; simpl; lia).
  split; [|split; [|split]].
  - intros ops.
    destruct (run_bounded ops (init payload m life) (init_wf m life) Hm Hinit)
      as (c & E & _ & Hmax & Hb).
    exists c. split; [exact E|]. simpl in Hmax. lia.
  - intros ops c key resp now now' E Hs Hnew.
    destruct (reachable_from_init m life ops c E) as (Hwf & Hmax & Hlife).
    destruct (set_at_full c key resp now now' Hwf)
      as (l1 & victim & tv & l2 & c1 & Ea & H1 & H2 & Hmem & _ & Ec1 & Ea1 & Hwf1 & Eset);
      [lia|].
    exists l1, victim, tv, l2. split; [exact Ea|]. split; [|split; [exact Hmem|]].
    + intros x Hx. rewrite Ea in Hx. apply in_app_or in Hx as [Hx|[<-|Hx]].
      * apply Qlt_le_weak. now apply H1.
      * simpl. apply Qle_refl.
      * now apply H2.
    + assert (get_item key (cache c1) = None) as Hk1.
      { rewrite Ec1. apply get_item_None. apply get_item_None in Hnew.
        intros Hi. apply Hnew. now apply In_keys_remove in Hi. }
      assert (get_item key (access_times c1) = None) as Hk2.
      { apply get_item_None. destruct Hwf1 as [Hk _]. rewrite <- Hk.
        now apply get_item_None. }
      split.
      * rewrite Eset. unfold inserted.
        rewrite (set_item_new _ _ _ Hk1), (set_item_new _ _ _ Hk2).
        rewrite Ec1, Ea1.
        assert (max_size c1 = m /\ ttl c1 = life) as [-> ->]; [|reflexivity].
        { destruct (set_at_total c key resp now now' Hwf) as (c' & E' & _ & Hm' & Ht' & _).
          rewrite Eset in E'. injection E' as <-. simpl in *. split; congruence. }
      * rewrite length_app. simpl. apply length_remove in Hmem. lia.
  - intros entries Hnd Hlen.
    destruct (run_distinct_sets entries (init payload m life)
                (init_wf m life) Hm Hinit Hnd) as (c & E & Hs);
      [reflexivity|].
    exists c. split; [exact E|]. rewrite Hs. unfold size. simpl. lia.
  - intros p1 p2 t1 t1' t2 t2' now now' -> Hlive.
    eexists. split; [reflexivity|]. split; [reflexivity|].
    rewrite get_at_cases. simpl.
    destruct (Qltb_spec life (now - t2)); [tauto | reflexivity].
Qed.

(** C6, amended: the entry evicted at capacity is determined by the
    state alone; among the entries that share the least last-access
    time it is the one that comes first in the dictionary, that is the
    one whose fingerprint was inserted first (every entry before it is
    strictly more recent, none after it is older).  The order of the
    fingerprints as strings plays no part. *)
Theorem eviction_tie_break_first_inserted
    (c : t) (key : str) (resp : payload) (now now' : Q) :
  reachable c -> (1 <= max_size c <= size c)%Z ->
  exists l1 victim tv l2 c1,
    access_times c = l1 ++ (victim, tv) :: l2 /\
    (forall x, In x l1 -> tv < snd x) /\
    (forall x, In x l2 -> tv <= snd x) /\
    _evict_oldest c = Return c1 /\
    cache c1 = remove victim (cache c) /\
    access_times c1 = l1 ++ l2 /\
    get_item victim (cache c1) = None /\
    set_at c key resp now now' = Return (inserted c1 key resp now now').
Proof.
  intros Hr Hfull. pose proof (reachable_wf c Hr) as Hwf.
  destruct (set_at_full c key resp now now' Hwf Hfull)
    as (l1 & victim & tv & l2 & c1 & Ea & H1 & H2 & Hmem & Hb & Ec1 & Ea1 & Hwf1 & Eset).
  exists l1, victim, tv, l2, c1. repeat split; auto.
  - unfold before_insert, size in *.
    destruct (Z.leb_spec (max_size c) (Z.of_nat (List.length (cache c))));
      [exact Hb | lia].
  - rewrite Ec1. apply get_item_remove_same, Hwf.
Qed.

(** ** The fingerprint *)

Variable md5_hexdigest : str -> str.

(** C10: the fingerprint is not injective.  The triples ("a_b", "c", m)
    and ("a", "b_c", m) differ and get the same key, whatever the digest
    function does, because both are joined to the text "a_b_c_m"; so a
    [get] for the second returns the payload a [set] stored for the
    first (here in a cache with the default size and time to live, one
    second after the [set]). *)
Theorem fingerprint_not_injective (model : str) (resp : payload) :
  (py "a_b", py "c", model) <> (py "a", py "b_c", model) /\
  _generate_key md5_hexdigest (py "a_b") (py "c") model =
    _generate_key md5_hexdigest (py "a") (py "b_c") model /\
  exists c,
    set md5_hexdigest (init payload 1000 3600)
        (py "a_b") resp (py "c") model 0 0 = Return c /\
    fst (get md5_hexdigest c (py "a") (py "b_c") model 1 1) = Some resp.
Proof.
  split; [discriminate|]. split; [reflexivity|].
  eexists. split; [reflexivity|].
  unfold get. rewrite get_at_cases. simpl.
  rewrite (key_eqb_refl (K:=str)). reflexivity.
Qed.

End Props.

Lemma fresh_cache_reachable : reachable fresh_cache.
Proof. exists 2%Z, 60, []. reflexivity. Defined.

#[local] Set Warnings "-inexact-float".

(** C5, as stated, fails in the arithmetic of the code.  An entry set
    at the float 0.1 with [ttl = 60] and queried at the float 60.1 is
    queried later than [t0 + ttl]: the two floats differ by a little
    more than 60.  The claim makes it a miss, but the float subtraction
    rounds the difference to 60, which is not greater than [ttl], and
    the call is a hit. *)
Lemma expiry_rounding_counterexample :
  exists t0 now eps c1,
    t0 = float_value 0.1 /\ now = float_value 60.1 /\
    0 < eps /\ now == t0 + 60 + eps /\
    set_at (init nat 1000 60) (py "f1") 7%nat t0 t0 = Return c1 /\
    fst (CacheCalls.get_at binary64_ops c1 (py "f1") now now) = Some 7%nat /\
    fsub binary64_ops now t0 == 60 /\
    float_value (60.1 - 0.1) == 60 /\
    PrimFloat.ltb 60 (60.1 - 0.1) = false.
Proof.
  exists (float_value 0.1), (float_value 60.1),
         (float_value 60.1 - float_value 0.1 - 60).
  eexists. split; [reflexivity|]. split; [reflexivity|].
  split; [vm_compute; reflexivity|].
  split; [vm_compute; reflexivity|].
  split; [reflexivity|].
  repeat split; vm_compute; reflexivity.
Qed.

Lemma get_hit_or_miss_witness :
  wf fresh_cache /\
  fsub binary64_ops 159 100 == 159 - 100 /\ 159 <= 100 + ttl fresh_cache /\
  fsub binary64_ops 161 100 == 161 - 100 /\ 100 + ttl fresh_cache < 161 /\
  exists c1,
    set_at fresh_cache (py "f1") 7%nat 100 100 = Return c1 /\
    fst (CacheCalls.get_at binary64_ops c1 (py "f1") 159 0) = Some 7%nat /\
    fst (CacheCalls.get_at binary64_ops c1 (py "f1") 161 0) = None.
Proof.
  assert (wf fresh_cache) as Hwf by apply (init_wf nat 2 60).
  assert (fsub binary64_ops 159 100 == 159 - 100) as He1
    by (vm_compute; reflexivity).
  assert (fsub binary64_ops 161 100 == 161 - 100) as He2
    by (vm_compute; reflexivity).
  assert (159 <= 100 + ttl fresh_cache) as Hle by (vm_compute; discriminate).
  assert (100 + ttl fresh_cache < 161) as Hlt by (vm_compute; reflexivity).
  split; [exact Hwf|]. split; [exact He1|]. split; [exact Hle|].
  split; [exact He2|]. split; [exact Hlt|].
  destruct (get_hit_or_miss nat binary64_ops fresh_cache (py "f1") 159 0 Hwf)
    as (_ & _ & _ & _ & H1).
  destruct (get_hit_or_miss nat binary64_ops fresh_cache (py "f1") 161 0 Hwf)
    as (_ & _ & _ & _ & H2).
  destruct (H1 7%nat 100 100) as (c1 & E1 & Hhit).
  destruct (H2 7%nat 100 100) as (c2 & E2 & Hmiss).
  assert (c2 = c1) as -> by congruence.
  exists c1. split; [exact E1|].
  split; [apply (proj1 (Hhit He1) Hle) | apply (proj2 (Hmiss He2) Hlt)].
Defined.

(** C4, as stated, fails for [max_size = 0]: the first [set] finds
    nothing to evict and stores its entry, so the cache holds one entry,
    more than [max_size], and inserting [max_size + 1 = 1] fingerprint
    leaves 1 entry, not 0. *)
Lemma capacity_zero_counterexample :
  exists c,
    run (init nat 0 3600) [CallSet (py "f1") 1%nat 0 0] = Return c /\
    max_size c = 0%Z /\ size c = 1%Z /\ (size c > max_size c)%Z.
Proof.
  eexists. split; [reflexivity|]. repeat split.
Qed.

Lemma capacity_respected_witness :
  (1 <= 2)%Z /\
  forall ops, exists c,
    run fresh_cache ops = Return c /\ (size c <= 2)%Z.
Proof.
  split; [lia|].
  exact (proj1 (capacity_respected nat 2 60 ltac:(lia))).
Defined.

(** C6, as stated, fails: with "b" set before "a" and both last
    accessed at time 0, a [set] at capacity evicts "b", although "a" is
    the lexicographically smaller fingerprint. *)
Lemma eviction_tie_break_counterexample :
  exists c,
    run (init nat 2 3600)
        [CallSet (py "b") 1%nat 0 0; CallSet (py "a") 2%nat 0 0;
         CallSet (py "c") 3%nat 1 1] = Return c /\
    access_times c = [(py "a", 0); (py "c", 1)] /\
    get_item (py "b") (cache c) = None /\
    get_item (py "a") (cache c) = Some (Entry 2%nat 0) /\
    str_ltb (py "a") (py "b") = true.
Proof.
  eexists. split; [reflexivity|]. repeat split.
Qed.

Lemma tied_cache_reachable : reachable tied_cache.
Proof.
  exists 2%Z, 3600,
    [CallSet (py "b") 1%nat 0 0; CallSet (py "a") 2%nat 0 0].
  reflexivity.
Defined.

Lemma eviction_tie_break_first_inserted_witness :
  reachable tied_cache /\
  (1 <= max_size tied_cache <= size tied_cache)%Z /\
  exists l1 victim tv l2 c1,
    access_times tied_cache = l1 ++ (victim, tv) :: l2 /\
    (forall x, In x l1 -> tv < snd x) /\
    (forall x, In x l2 -> tv <= snd x) /\
    _evict_oldest tied_cache = Return c1 /\
    cache c1 = remove victim (cache tied_cache) /\
    access_times c1 = l1 ++ l2 /\
    get_item victim (cache c1) = None /\
    set_at tied_cache (py "c") 3%nat 1 1 =
      Return (inserted c1 (py "c") 3%nat 1 1).
Proof.
  split; [exact tied_cache_reachable|].
  split; [unfold size; simpl; lia|].
  apply (eviction_tie_break_first_inserted nat tied_cache (py "c") 3%nat 1 1
           tied_cache_reachable).
  unfold size; simpl; lia.
Defined.

End CacheProperties.

(* ================================================================== *)
(** * Facts about the stable descending sort *)
(* ================================================================== *)

Module SortFacts.

Import Py SortSpec NumFacts.
Local Open Scope Q_scope.

Lemma In_firstn {A} (n : nat) (l : list A) (x : A) :
  In x (firstn n l) -> In x l.
Proof.
  revert n. induction l as [|y l IH]; intros [|n]; simpl; try tauto.
  intros [E|Hi]; [now left | right; now apply (IH n)].
Qed.

Section Sorting.

Variable A : Type.
Variable key : A -> Q.

Local Abbreviation descending := (descending key).
Local Abbreviation with_key := (with_key key).

Lemma insert_desc_perm (x : A) (l : list A) :
  Permutation (insert_desc key x l) (x :: l).
Proof.
  induction l as [|y l IH]; simpl; [apply Permutation_refl|].
  destruct (Qltb (key x) (key y)); [|apply Permutation_refl].
  apply Permutation_trans with (y :: x :: l);
    [now apply perm_skip | apply perm_swap].
Qed.

Lemma sorted_desc_perm (l : list A) : Permutation (sorted_desc key l) l.
Proof.
  induction l as [|x l IH]; simpl; [apply perm_nil|].
  apply Permutation_trans with (x :: sorted_desc key l);
    [apply insert_desc_perm | now apply perm_skip].
Qed.

Lemma insert_desc_descending (x : A) (l : list A) :
  descending l -> descending (insert_desc key x l).
Proof.
  unfold SortSpec.descending. induction l as [|y l IH]; simpl; intros Hs.
  - constructor; constructor.
  - apply StronglySorted_inv in Hs as [Hs Hy].
    destruct (Qltb_spec (key x) (key y)) as [Hlt|Hge].
    + constructor; [now apply IH|].
      apply (Permutation_Forall (Permutation_sym (insert_desc_perm x l))).
      constructor; [now apply Qlt_le_weak | exact Hy].
    + apply Qnot_lt_le in Hge. constructor.
      * now constructor.
      * constructor; [exact Hge|].
        apply Forall_impl with (2 := Hy). intros z Hz.
        now apply Qle_trans with (key y).
Qed.

Lemma sorted_desc_descending (l : list A) : descending (sorted_desc key l).
Proof.
  induction l as [|x l IH]; simpl; [constructor|].
  now apply insert_desc_descending.
Qed.

Lemma descending_firstn (n : nat) (l : list A) :
  descending l -> descending (firstn n l).
Proof.
  unfold SortSpec.descending. revert n. induction l as [|x l IH]; intros [|n] Hs; simpl;
    try constructor.
  - apply IH. now apply StronglySorted_inv in Hs.
  - apply StronglySorted_inv in Hs as [_ Hx].
    apply Forall_forall. intros z Hz. apply In_firstn in Hz.
    revert z Hz. now apply Forall_forall.
Qed.

(** Stability: an inserted item only passes items with a strictly
    larger key, so the items of one key keep their order. *)
Lemma filter_insert_desc (s : Q) (x : A) (l : list A) :
  filter (with_key s) (insert_desc key x l) = filter (with_key s) (x :: l).
Proof.
  induction l as [|y l IH]; [reflexivity|].
  simpl insert_desc. destruct (Qltb_spec (key x) (key y)) as [Hlt|Hge];
    [|reflexivity].
  simpl filter at 1. rewrite IH. simpl. unfold SortSpec.with_key.
  destruct (Qeq_bool (key x) s) eqn:Ex; destruct (Qeq_bool (key y) s) eqn:Ey;
    try reflexivity.
  apply Qeq_bool_iff in Ex, Ey. rewrite Ex, Ey in Hlt.
  now apply Qlt_irrefl in Hlt.
Qed.

Lemma filter_sorted_desc (s : Q) (l : list A) :
  filter (with_key s) (sorted_desc key l) = filter (with_key s) l.
Proof.
  induction l as [|x l IH]; [reflexivity|].
  simpl sorted_desc. rewrite filter_insert_desc. simpl. now rewrite IH.
Qed.

End Sorting.

Section Precedes.

Variable A : Type.
Implicit Types (a b : A) (l : list A) (p : A -> bool).

Lemma filter_split p l u a v :
  filter p l = u ++ a :: v ->
  exists l1 l2, l = l1 ++ a :: l2 /\ filter p l1 = u /\ filter p l2 = v.
Proof.
  revert u. induction l as [|x l IH]; intros u; simpl.
  - destruct u; discriminate.
  - destruct (p x) eqn:Px.
    + destruct u as [|y u]; simpl; intros [= -> E].
      * exists [], l. simpl. auto.
      * destruct (IH _ E) as (l1 & l2 & -> & <- & <-).
        exists (y :: l1), l2. simpl. now rewrite Px.
    + intros E. destruct (IH _ E) as (l1 & l2 & -> & <- & <-).
      exists (x :: l1), l2. simpl. now rewrite Px.
Qed.

Lemma precedes_filter p a b l : precedes a b (filter p l) -> precedes a b l.
Proof.
  intros (u & v & w & E).
  destruct (filter_split _ _ _ _ _ E) as (l1 & l2 & -> & _ & E2).
  destruct (filter_split _ _ _ _ _ E2) as (l3 & l4 & -> & _ & _).
  now exists l1, l3, l4.
Qed.

Lemma precedes_in_filter p a b l :
  p a = true -> p b = true -> precedes a b l -> precedes a b (filter p l).
Proof.
  intros Pa Pb (l1 & l2 & l3 & ->).
  exists (filter p l1), (filter p l2), (filter p l3).
  rewrite filter_app. simpl. rewrite Pa, filter_app. simpl. now rewrite Pb.
Qed.

Lemma precedes_firstn n a b l : precedes a b (firstn n l) -> precedes a b l.
Proof.
  intros (l1 & l2 & l3 & E). exists l1, l2, (l3 ++ skipn n l).
  rewrite <- (firstn_skipn n l) at 1. rewrite E.
  rewrite <- !app_assoc. simpl. rewrite <- !app_assoc. reflexivity.
Qed.

End Precedes.

(** Two items of the sorted list with equal keys stand in the order
    they had before sorting. *)
Lemma sorted_desc_stable {A} (key : A -> Q) (a b : A) (l : list A) :
  key a == key b ->
  precedes a b (sorted_desc key l) -> precedes a b l.
Proof.
  intros Heq Hp.
  apply (precedes_in_filter _ (SortSpec.with_key key (key a))) in Hp.
  - rewrite filter_sorted_desc in Hp. now apply precedes_filter in Hp.
  - unfold SortSpec.with_key. apply Qeq_bool_iff. reflexivity.
  - unfold SortSpec.with_key. apply Qeq_bool_iff. now symmetry.
Qed.

End SortFacts.

(* ================================================================== *)
(** * Properties of the rank merger *)
(* ================================================================== *)

Module MergeProperties.

Import PyStr Py PyFloat EnhancedRetrieval DictSpec SortSpec MergeSpec.
Import DictFacts NumFacts SortFacts.
Local Open Scope Q_scope.

Lemma find_doc_None (id : option str) (l : list doc) :
  ~ In id (ids l) -> find_doc id l = None.
Proof.
  induction l as [|d l IH]; simpl; [reflexivity|]. intros Hn.
  destruct (key_eqb_spec (doc_id d) id) as [E|Hne]; [tauto|].
  apply IH. tauto.
Qed.

Lemma find_doc_Some (id : option str) (l : list doc) (d : doc) :
  find_doc id l = Some d -> In d l /\ doc_id d = id.
Proof.
  unfold find_doc. intros Hf. apply find_some in Hf as [Hi He].
  split; [exact Hi|]. now destruct (key_eqb_spec (doc_id d) id).
Qed.

(** ** The dictionary [combined] *)

Lemma In_set_item {V} (k k' : option str) (v v' : V) (D : dict (K:=option str) V) :
  In (k', v') (set_item k v D) -> (k', v') = (k, v) \/ In (k', v') D.
Proof.
  induction D as [|[k2 v2] D IH]; simpl.
  - intros [E|[]]. now left.
  - destruct (key_eqb_spec k k2) as [->|Hne]; simpl.
    + intros [E|Hi]; [now left | tauto].
    + intros [E|Hi]; [tauto|]. apply IH in Hi. tauto.
Qed.

Lemma add_vector_keyed D d : keyed D -> keyed (add_vector D d).
Proof.
  intros HD k m Hi. apply In_set_item in Hi as [[= -> ->]|Hi]; [reflexivity|].
  now apply HD.
Qed.

Lemma add_keyword_keyed D d : keyed D -> keyed (add_keyword D d).
Proof.
  intros HD k m. unfold add_keyword.
  destruct (get_item (doc_id d) D) as [m0|] eqn:G; intros Hi;
    apply In_set_item in Hi as [[= -> ->]|Hi]; try (now apply HD).
  - apply get_item_In in G. now apply HD in G.
  - reflexivity.
Qed.

Lemma keys_add_vector D d :
  keys (add_vector D d) = if mem (doc_id d) D then keys D else keys D ++ [doc_id d].
Proof. apply keys_set_item. Qed.

Lemma keys_add_keyword D d :
  keys (add_keyword D d) = if mem (doc_id d) D then keys D else keys D ++ [doc_id d].
Proof.
  unfold add_keyword, mem at 1.
  destruct (get_item (doc_id d) D) eqn:G.
  - rewrite keys_set_item. unfold mem. now rewrite G.
  - rewrite keys_set_item. unfold mem. now rewrite G.
Qed.

Lemma fold_vector_inv vs D :
  keyed D -> NoDup (keys D) ->
  let D' := fold_left add_vector vs D in
  keyed D' /\ NoDup (keys D') /\
  (forall k, In k (keys D') <-> In k (keys D) \/ In k (ids vs)).
Proof.
  revert D. induction vs as [|d vs IH]; intros D HD Hnd; simpl.
  - repeat split; auto. tauto.
  - destruct (IH (add_vector D d)) as (Hk & Hn & Hin).
    + now apply add_vector_keyed.
    + now apply NoDup_keys_set_item.
    + repeat split; auto.
      * intros Hi. apply Hin in Hi as [Hi|Hi]; [|tauto].
        rewrite keys_add_vector in Hi.
        destruct (mem (doc_id d) D); [tauto|].
        apply in_app_or in Hi as [Hi|[<-|[]]]; tauto.
      * intros Hi. apply Hin. rewrite keys_add_vector.
        destruct (mem (doc_id d) D) eqn:Em; destruct Hi as [Hi|[<-|Hi]];
          rewrite ?in_app_iff; simpl; try tauto.
        left. now apply mem_true.
Qed.

(** The second loop only appends keys that are not there yet. *)
Lemma fold_keyword_inv ks D :
  keyed D -> NoDup (keys D) ->
  let D' := fold_left add_keyword ks D in
  keyed D' /\ NoDup (keys D') /\
  exists extra, keys D' = keys D ++ extra /\
                forall k, In k extra -> ~ In k (keys D).
Proof.
  revert D. induction ks as [|d ks IH]; intros D HD Hnd; simpl.
  - repeat split; auto. exists []. rewrite app_nil_r. split; [reflexivity|].
    intros k [].
  - assert (NoDup (keys (add_keyword D d))) as Hnd'.
    { unfold add_keyword. destruct (get_item (doc_id d) D);
        now apply NoDup_keys_set_item. }
    destruct (IH (add_keyword D d) (add_keyword_keyed D d HD) Hnd')
      as (Hk & Hn & extra & E & Hex).
    repeat split; auto. rewrite keys_add_keyword in E, Hex.
    destruct (mem (doc_id d) D) eqn:Em.
    + exists extra. auto.
    + exists (doc_id d :: extra). split.
      * rewrite E, <- app_assoc. reflexivity.
      * intros k [<-|Hi].
        -- intros Hin. apply mem_true in Hin. congruence.
        -- intros Hin. apply (Hex k Hi). apply in_or_app. now left.
Qed.

(** What the first loop files under an id, when ids do not repeat. *)
Lemma get_fold_vector vs D id :
  NoDup (ids vs) ->
  get_item id (fold_left add_vector vs D) =
    match find_doc id vs with
    | Some v => Some (Merged v (score v * 0.7))
    | None => get_item id D
    end.
Proof.
  revert D. induction vs as [|d vs IH]; intros D Hnd; [reflexivity|].
  inversion Hnd as [|? ? Hnotin Hnd']; subst. simpl fold_left.
  rewrite (IH _ Hnd'). unfold find_doc. simpl find.
  destruct (key_eqb_spec (doc_id d) id) as [<-|Hne].
  - fold (find_doc (doc_id d) vs). rewrite (find_doc_None _ _ Hnotin).
    apply get_item_set_same.
  - fold (find_doc id vs). destruct (find_doc id vs); [reflexivity|].
    apply get_item_set_other. congruence.
Qed.

(** What the second loop makes of it. *)
Lemma get_fold_keyword ks D id :
  NoDup (ids ks) ->
  get_item id (fold_left add_keyword ks D) =
    match find_doc id ks with
    | None => get_item id D
    | Some k =>
        match get_item id D with
        | Some m => Some (Merged (merged_doc m) (final_score m + score k * 0.3))
        | None => Some (Merged k (score k * 0.3))
        end
    end.
Proof.
  revert D. induction ks as [|d ks IH]; intros D Hnd; [reflexivity|].
  inversion Hnd as [|? ? Hnotin Hnd']; subst. simpl fold_left.
  rewrite (IH _ Hnd'). unfold find_doc. simpl find.
  destruct (key_eqb_spec (doc_id d) id) as [<-|Hne].
  - fold (find_doc (doc_id d) ks). rewrite (find_doc_None _ _ Hnotin).
    unfold add_keyword. destruct (get_item (doc_id d) D); apply get_item_set_same.
  - fold (find_doc id ks).
    assert (get_item id (add_keyword D d) = get_item id D) as ->; [|reflexivity].
    unfold add_keyword. destruct (get_item (doc_id d) D);
      apply get_item_set_other; congruence.
Qed.

Lemma combine_inv vs ks :
  keyed (combine vs ks) /\ NoDup (keys (combine vs ks)) /\
  exists extra,
    keys (combine vs ks) = keys (fold_left add_vector vs []) ++ extra /\
    (forall k, In k (keys (fold_left add_vector vs [])) -> In k (ids vs)) /\
    (forall k, In k extra -> ~ In k (ids vs)).
Proof.
  destruct (fold_vector_inv vs []) as (Hk & Hn & Hin);
    [intros k m [] | constructor |].
  destruct (fold_keyword_inv ks _ Hk Hn) as (Hk' & Hn' & extra & E & Hex).
  unfold combine. repeat split; auto. exists extra. repeat split; auto.
  - intros k Hi. apply Hin in Hi as [[]|Hi]. exact Hi.
  - intros k Hi Hv. apply (Hex k Hi). apply Hin. now right.
Qed.

Lemma values_keys_merged D : keyed D -> List.map merged_id (values D) = keys D.
Proof.
  unfold values, keys. induction D as [|[k m] D IH]; intros HD; [reflexivity|].
  simpl. f_equal.
  - apply HD. now left.
  - apply IH. intros k' m' Hi. apply HD. now right.
Qed.

Lemma mem_existsb {V} (k : option str) (D : dict (K:=option str) V) :
  mem k D = existsb (key_eqb k) (keys D).
Proof.
  unfold mem. induction D as [|[k' v] D IH]; simpl; [reflexivity|].
  destruct (key_eqb k k'); [reflexivity | exact IH].
Qed.

Lemma keys_fold_vector vs D :
  keys (fold_left add_vector vs D) = fold_left note_id (ids vs) (keys D).
Proof.
  revert D. induction vs as [|d vs IH]; intros D; [reflexivity|].
  simpl. rewrite IH, keys_add_vector, mem_existsb. reflexivity.
Qed.

Lemma keys_fold_keyword ks D :
  keys (fold_left add_keyword ks D) = fold_left note_id (ids ks) (keys D).
Proof.
  revert D. induction ks as [|d ks IH]; intros D; [reflexivity|].
  simpl. rewrite IH, keys_add_keyword, mem_existsb. reflexivity.
Qed.

(** The order of [combined]: the ids of the vector results as they are
    first seen, then those of the keyword results that are new. *)
Lemma keys_combine vs ks : keys (combine vs ks) = first_seen (ids vs ++ ids ks).
Proof.
  unfold combine, first_seen.
  now rewrite keys_fold_keyword, keys_fold_vector, fold_left_app.
Qed.

Lemma precedes_map {A B} (f : A -> B) (a b : A) (l : list A) :
  precedes a b l -> precedes (f a) (f b) (List.map f l).
Proof.
  intros (l1 & l2 & l3 & ->).
  exists (List.map f l1), (List.map f l2), (List.map f l3).
  rewrite map_app. simpl. rewrite map_app. reflexivity.
Qed.

(** ** The claims about the merge *)

(** C3, as stated, fails on lists in which an id repeats: two keyword
    results with id "A" and scores 0.5 and 0.6 give "A" the final score
    0.33, which is 0.3 times neither of them. *)
Lemma merge_repeated_id_counterexample :
  exists m,
    _merge_and_rerank [] [candidate "A" 0.5; candidate "A" 0.6] [] = [m] /\
    merged_id m = Some (py "A") /\
    final_score m == 0.33 /\
    ~ final_score m == 0.3 * 0.5 /\
    ~ final_score m == 0.3 * 0.6.
Proof.
  eexists. split; [reflexivity|]. simpl.
  repeat split; try reflexivity; intros H; vm_compute in H; discriminate.
Qed.

(** C3, amended: for candidate lists in each of which the document ids
    are distinct, the merge files under each id present in both lists
    the score [0.7*sv + 0.3*sk], under a vector-only id [0.7*sv], under
    a keyword-only id [0.3*sk], and nothing under any other id; the
    output is the first 5 entries of these in descending order of final
    score.  The scenario of the claim gives [(A, 0.78); (B, 0.18)]. *)
Theorem merge_weights_and_order (vs ks : list doc) (query : str) :
  NoDup (ids vs) -> NoDup (ids ks) ->
  (forall id,
     match get_item id (combine vs ks), find_doc id vs, find_doc id ks with
     | Some m, Some v, Some k => final_score m == 0.7 * score v + 0.3 * score k
     | Some m, Some v, None => final_score m == 0.7 * score v
     | Some m, None, Some k => final_score m == 0.3 * score k
     | None, None, None => True
     | _, _, _ => False
     end) /\
  (forall m, In m (_merge_and_rerank vs ks query) ->
     get_item (merged_id m) (combine vs ks) = Some m) /\
  (exists sorted,
     Permutation sorted (values (combine vs ks)) /\
     by_final_score sorted /\
     _merge_and_rerank vs ks query = firstn 5 sorted) /\
  by_final_score (_merge_and_rerank vs ks query) /\
  (List.length (_merge_and_rerank vs ks query) <= 5)%nat /\
  List.map (fun m => (merged_id m, Qred (final_score m)))
    (_merge_and_rerank [candidate "A" 0.9]
                       [candidate "A" 0.5; candidate "B" 0.6] query) =
    [(Some (py "A"), Qred 0.78); (Some (py "B"), Qred 0.18)].
Proof.
  intros Hv Hk.
  destruct (combine_inv vs ks) as (Hkeyed & Hnd & _).
  split; [|split; [|split; [|split; [|split]]]].
  - intros id. unfold combine.
    rewrite (get_fold_keyword _ _ _ Hk), (get_fold_vector _ _ _ Hv).
    destruct (find_doc id vs) as [v|]; destruct (find_doc id ks) as [k|];
      simpl; try exact I; lra.
  - intros m Hi. unfold _merge_and_rerank in Hi. apply In_firstn in Hi.
    apply (Permutation_in _ (sorted_desc_perm _ final_score _)) in Hi.
    unfold values in Hi. apply in_map_iff in Hi as ([k m'] & E & Hi).
    simpl in E. subst m'. rewrite (Hkeyed _ _ Hi).
    now apply In_get_item.
  - exists (sorted_desc final_score (values (combine vs ks))).
    split; [apply sorted_desc_perm|].
    split; [apply sorted_desc_descending | reflexivity].
  - apply descending_firstn, sorted_desc_descending.
  - apply firstn_le_length.
  - vm_compute. reflexivity.
Qed.

Lemma merge_weights_and_order_witness :
  NoDup (ids [candidate "A" 0.9]) /\
  NoDup (ids [candidate "A" 0.5; candidate "B" 0.6]) /\
  by_final_score
    (_merge_and_rerank [candidate "A" 0.9]
                       [candidate "A" 0.5; candidate "B" 0.6] []).
Proof.
  assert (NoDup (ids [candidate "A" 0.9])) as Hv.
  { repeat constructor. simpl. tauto. }
  assert (NoDup (ids [candidate "A" 0.5; candidate "B" 0.6])) as Hk.
  { repeat constructor; simpl; [|tauto]. intros [E|[]]. discriminate. }
  split; [exact Hv|]. split; [exact Hk|].
  apply (merge_weights_and_order _ _ [] Hv Hk).
Defined.

(** The scores of the scenario do not depend on the exact arithmetic of
    the model: in binary64 they are the floats nearest to 0.78 and
    0.18. *)
Example scenario_scores_binary64 :
  PrimFloat.eqb (both_lists_binary64 f_0_9 f_0_5) f_0_78 = true /\
  PrimFloat.eqb (keyword_only_binary64 f_0_6) f_0_18 = true.
Proof. split; vm_compute; reflexivity. Qed.

(** C7, as stated, fails: two vector results with equal final scores
    come out in the order of the input, "B" before "A"; so they do in
    the arithmetic of floats, where equal scores give equal products. *)
Lemma merge_tie_by_id_counterexample :
  List.map (fun m => (merged_id m, Qred (final_score m)))
    (_merge_and_rerank [candidate "B" 0.5; candidate "A" 0.5] [] []) =
    [(Some (py "B"), Qred 0.35); (Some (py "A"), Qred 0.35)] /\
  str_ltb (py "A") (py "B") = true /\
  List.map merged_id
    (RankMerger._merge_and_rerank binary64_ops
       [candidate "B" 0.5; candidate "A" 0.5] [] []) =
    [Some (py "B"); Some (py "A")].
Proof. repeat split; vm_compute; reflexivity. Qed.

(** ** The merge on floats *)

(** With exact arithmetic the merge on floats is the merge above. *)
Lemma merge_exact (vs ks : list doc) (query : str) :
  RankMerger._merge_and_rerank exact_ops vs ks query =
    _merge_and_rerank vs ks query.
Proof. reflexivity. Qed.

Section Floats.

Variable ops : float_ops.

Lemma float_add_vector_keyed D d :
  keyed D -> keyed (RankMerger.add_vector ops D d).
Proof.
  intros HD k m Hi. apply In_set_item in Hi as [[= -> ->]|Hi]; [reflexivity|].
  now apply HD.
Qed.

Lemma float_add_keyword_keyed D d :
  keyed D -> keyed (RankMerger.add_keyword ops D d).
Proof.
  intros HD k m. unfold RankMerger.add_keyword.
  destruct (get_item (doc_id d) D) as [m0|] eqn:G; intros Hi;
    apply In_set_item in Hi as [[= -> ->]|Hi]; try (now apply HD).
  - apply get_item_In in G. now apply HD in G.
  - reflexivity.
Qed.

Lemma float_keys_add_vector D d :
  keys (RankMerger.add_vector ops D d) =
    if mem (doc_id d) D then keys D else keys D ++ [doc_id d].
Proof. apply keys_set_item. Qed.

Lemma float_keys_add_keyword D d :
  keys (RankMerger.add_keyword ops D d) =
    if mem (doc_id d) D then keys D else keys D ++ [doc_id d].
Proof.
  unfold RankMerger.add_keyword, mem at 1.
  destruct (get_item (doc_id d) D) eqn:G.
  - rewrite keys_set_item. unfold mem. now rewrite G.
  - rewrite keys_set_item. unfold mem. now rewrite G.
Qed.

Lemma float_fold_vector vs D :
  keyed D ->
  keyed (fold_left (RankMerger.add_vector ops) vs D) /\
  keys (fold_left (RankMerger.add_vector ops) vs D) =
    fold_left note_id (ids vs) (keys D).
Proof.
  revert D. induction vs as [|d vs IH]; intros D HD; [now split|].
  simpl. destruct (IH _ (float_add_vector_keyed D d HD)) as [Hk E].
  split; [exact Hk|].
  rewrite E, float_keys_add_vector, mem_existsb. reflexivity.
Qed.

Lemma float_fold_keyword ks D :
  keyed D ->
  keyed (fold_left (RankMerger.add_keyword ops) ks D) /\
  keys (fold_left (RankMerger.add_keyword ops) ks D) =
    fold_left note_id (ids ks) (keys D).
Proof.
  revert D. induction ks as [|d ks IH]; intros D HD; [now split|].
  simpl. destruct (IH _ (float_add_keyword_keyed D d HD)) as [Hk E].
  split; [exact Hk|].
  rewrite E, float_keys_add_keyword, mem_existsb. reflexivity.
Qed.

(** The keys of [combined] and their order do not depend on the
    arithmetic. *)
Lemma float_combine_keys vs ks :
  keyed (RankMerger.combine ops vs ks) /\
  keys (RankMerger.combine ops vs ks) = keys (combine vs ks).
Proof.
  unfold RankMerger.combine.
  destruct (float_fold_vector vs []) as [Hk1 E1]; [intros k m []|].
  destruct (float_fold_keyword ks _ Hk1) as [Hk2 E2].
  split; [exact Hk2|].
  rewrite E2, E1, keys_combine. unfold first_seen.
  now rewrite fold_left_app.
Qed.

End Floats.

(** C7, amended: whatever the rounding of the float operations that
    compute the final scores, whenever two entries of the merged list
    have equal final scores, they stand in the order in which their ids
    were first seen, going through the vector results and then the
    keyword results; so a vector-sourced entry comes before a
    keyword-only one, and two entries of the same source are in the
    order of their input list.  The ids themselves are not compared. *)
Theorem merge_ties_keep_input_order
    (ops : float_ops) (vs ks : list doc) (query : str) (a b : merged) :
  precedes a b (RankMerger._merge_and_rerank ops vs ks query) ->
  final_score a == final_score b ->
  precedes a b (values (RankMerger.combine ops vs ks)) /\
  precedes (merged_id a) (merged_id b) (first_seen (ids vs ++ ids ks)) /\
  (In (merged_id b) (ids vs) -> In (merged_id a) (ids vs)).
Proof.
  intros Hp Heq. unfold RankMerger._merge_and_rerank in Hp.
  apply precedes_firstn in Hp. apply (sorted_desc_stable _ _ _ _ Heq) in Hp.
  destruct (float_combine_keys ops vs ks) as [Hkeyed Hkeys].
  destruct (combine_inv vs ks) as (_ & _ & extra & E & Hvec & Hex).
  pose proof (precedes_map merged_id _ _ _ Hp) as Hids.
  rewrite (values_keys_merged _ Hkeyed), Hkeys in Hids.
  split; [exact Hp|]. split; [now rewrite <- keys_combine|].
  intros Hb. destruct Hids as (l1 & l2 & l3 & El). rewrite E in El.
  assert (forall l, In (merged_id b) (l ++ merged_id a :: l2 ++ merged_id b :: l3))
    as Hin.
  { intros l. rewrite in_app_iff. right. right. rewrite in_app_iff. right. now left. }
  symmetry in El. apply app_eq_app in El as (l & [[-> Ex]|[Ev Er]]).
  - exfalso. apply (Hex (merged_id b)); [|exact Hb].
    rewrite Ex. apply Hin.
  - destruct l as [|z l]; simpl in Er.
    + exfalso. apply (Hex (merged_id b)); [|exact Hb].
      rewrite <- Er. apply (Hin []).
    + injection Er as <- _. apply Hvec. rewrite Ev, in_app_iff. right. now left.
Qed.

Lemma merge_ties_keep_input_order_witness :
  let half := literal binary64_ops 0.5 in
  let weighted := fmul binary64_ops half (literal binary64_ops 0.7) in
  let a := Merged (candidate "B" half) weighted in
  let b := Merged (candidate "A" half) weighted in
  let vs := [candidate "B" half; candidate "A" half] in
  precedes a b (RankMerger._merge_and_rerank binary64_ops vs [] []) /\
  final_score a == final_score b /\
  precedes (merged_id a) (merged_id b) (first_seen (ids vs ++ ids [])).
Proof.
  intros half weighted a b vs.
  assert (precedes a b (RankMerger._merge_and_rerank binary64_ops vs [] []))
    as Hp.
  { exists [], [], []. vm_compute. reflexivity. }
  assert (final_score a == final_score b) as Heq by reflexivity.
  split; [exact Hp|]. split; [exact Heq|].
  apply (merge_ties_keep_input_order binary64_ops vs [] [] a b Hp Heq).
Defined.

#[local] Set Warnings "-inexact-float".

(** Scores that tie only without rounding: 0.39 times 0.7 and 0.91
    times 0.3 are both 0.273, but the float products differ, and the
    code puts the keyword result first. *)
Example near_tie_is_no_tie :
  List.map merged_id
    (RankMerger._merge_and_rerank binary64_ops
       [candidate "V" (literal binary64_ops 0.39)]
       [candidate "K" (literal binary64_ops 0.91)] []) =
    [Some (py "K"); Some (py "V")] /\
  List.map merged_id
    (_merge_and_rerank [candidate "V" 0.39] [candidate "K" 0.91] []) =
    [Some (py "V"); Some (py "K")] /\
  fmul binary64_ops (literal binary64_ops 0.39) (literal binary64_ops 0.7) ==
    float_value (0.39 * 0.7) /\
  fmul binary64_ops (literal binary64_ops 0.91) (literal binary64_ops 0.3) ==
    float_value (0.91 * 0.3) /\
  PrimFloat.ltb (0.39 * 0.7) (0.91 * 0.3) = true.
Proof. repeat split; vm_compute; reflexivity. Qed.

End MergeProperties.

(* ================================================================== *)
(** * Properties of the candidate sources *)
(* ================================================================== *)

Module RetrievalProperties.

Import PyStr Py EnhancedRetrieval RetrievalSpec.

(** C9: when the call to the index raises, the vector search and the
    keyword search return the empty list; whatever the index does,
    neither search nor their combination raises. *)
Theorem search_failures_absorbed
    (client : qdrant_client) (collection : str) (kw : kwargs) :
  (forall query_vector e,
     client_search client (search_params_of collection query_vector kw) = Raise e ->
     _vector_search client collection query_vector kw = Return []) /\
  (forall query e,
     client_scroll client collection 100%nat = Raise e ->
     _keyword_search client collection query kw = Return []) /\
  (forall query_vector, exists docs,
     _vector_search client collection query_vector kw = Return docs) /\
  (forall query, exists docs,
     _keyword_search client collection query kw = Return docs) /\
  (forall query query_vector, exists results,
     hybrid_search client collection query query_vector kw = Return results).
Proof.
  assert (forall qv, exists docs,
            _vector_search client collection qv kw = Return docs) as Hv.
  { intros qv. unfold _vector_search.
    destruct (client_search client (search_params_of collection qv kw));
      simpl; eauto. }
  assert (forall q, exists docs,
            _keyword_search client collection q kw = Return docs) as Hk.
  { intros q. unfold _keyword_search.
    destruct (client_scroll client collection 100%nat); simpl; eauto. }
  repeat split; auto.
  - intros qv e E. unfold _vector_search. now rewrite E.
  - intros q e E. unfold _keyword_search. now rewrite E.
  - intros q qv. unfold hybrid_search.
    destruct (Hv qv) as (vr & ->). destruct (Hk q) as (kr & ->).
    simpl. eauto.
Qed.

Lemma search_failures_absorbed_witness :
  client_search failing_client
    (search_params_of (py "math") [] no_kwargs) = Raise (Exception "ConnectionError") /\
  _vector_search failing_client (py "math") [] no_kwargs = Return [] /\
  client_scroll failing_client (py "math") 100%nat = Raise (Exception "ConnectionError") /\
  _keyword_search failing_client (py "math") (py "solve x") no_kwargs = Return [].
Proof.
  destruct (search_failures_absorbed failing_client (py "math") no_kwargs)
    as (Hv & Hk & _).
  split; [reflexivity|].
  split; [apply (Hv [] (Exception "ConnectionError")); reflexivity|].
  split; [reflexivity|].
  apply (Hk (py "solve x") (Exception "ConnectionError")). reflexivity.
Defined.

End RetrievalProperties.

(* ================================================================== *)
(** * Further properties of the response cache *)
(* ================================================================== *)

Module CacheExtras.

Import PyStr Py PyFloat ResponseCache DictSpec CacheSpec CacheExtraSpec.
Import DictFacts NumFacts CacheProperties.
Local Open Scope Q_scope.

Lemma min_value_least (vs : list Q) (best : Q) :
  In (min_value best vs) (best :: vs) /\
  forall v, In v (best :: vs) -> min_value best vs <= v.
Proof.
  revert best. induction vs as [|v vs IH]; intros best; simpl.
  - split; [now left|]. intros v [<-|[]]. apply Qle_refl.
  - destruct (Qltb_spec v best) as [Hlt|Hge].
    + destruct (IH v) as [Hin Hle]. split; [now right|].
      intros w [<-|Hw]; [|now apply Hle].
      apply Qle_trans with v; [apply Hle; now left | now apply Qlt_le_weak].
    + apply Qnot_lt_le in Hge. destruct (IH best) as [Hin Hle]. split.
      * destruct Hin as [E|Hin]; [now left | right; now right].
      * intros w [<-|[<-|Hw]].
        -- apply Hle. now left.
        -- apply Qle_trans with best; [apply Hle; now left | exact Hge].
        -- apply Hle. now right.
Qed.

Section Props.

Variable payload : Type.

Local Abbreviation t := (t payload).
Local Abbreviation call := (call payload).

(** X2: [stats] counts the entries, and its [oldest_entry] is [None]
    exactly for the empty cache and otherwise the least last-access time
    of the entries: the time of one of them, and no later than any. *)
Theorem stats_reports_least_access_time (c : t) :
  reachable c ->
  stat_size (stats c) = List.length (cache c) /\
  (stat_oldest_entry (stats c) = None <-> cache c = []) /\
  (forall oldest, stat_oldest_entry (stats c) = Some oldest ->
     (exists k, In (k, oldest) (access_times c)) /\
     (forall k' t', In (k', t') (access_times c) -> oldest <= t')).
Proof.
  intros Hr. destruct (reachable_wf payload c Hr) as [Hk _].
  unfold stats. simpl. split; [reflexivity|]. split.
  - destruct (access_times c) as [|[k v] d]; destruct (cache c) as [|e l];
      simpl in *; try discriminate; split; congruence.
  - intros oldest. unfold values.
    destruct (access_times c) as [|[k v] d]; simpl; [discriminate|].
    intros [= <-]. destruct (min_value_least (List.map snd d) v) as [Hin Hle].
    split.
    + destruct Hin as [E|Hin].
      * exists k. left. now f_equal.
      * apply in_map_iff in Hin as ([k1 t1] & E & Hin). simpl in E. subst t1.
        exists k1. now right.
    + intros k' t' [[= <- <-]|Hi].
      * apply Hle. now left.
      * apply Hle. right. now apply (in_map snd) in Hi.
Qed.

(** X4: calls on one fingerprint leave the entries of every other
    fingerprint as they are: a [get] always, a [set] whenever the cache
    has room. *)
Theorem other_keys_untouched
    (c : t) (key k : str) (resp : payload) (now now' : Q) :
  reachable c -> k <> key ->
  (get_item k (cache (snd (get_at c key now now'))) = get_item k (cache c) /\
   get_item k (access_times (snd (get_at c key now now'))) =
     get_item k (access_times c)) /\
  ((size c < max_size c)%Z ->
   exists c',
     set_at c key resp now now' = Return c' /\
     get_item k (cache c') = get_item k (cache c) /\
     get_item k (access_times c') = get_item k (access_times c)).
Proof.
  intros Hr Hne. pose proof (reachable_wf payload c Hr) as Hwf. split.
  - rewrite get_at_cases. destruct (get_item key (cache c)) as [e|]; [|now split].
    destruct (Qltb (ttl c) (now - timestamp e)); simpl.
    + split; now apply get_item_remove_other.
    + split; [reflexivity | now apply get_item_set_other].
  - intros Hroom. rewrite set_at_unfold.
    destruct (before_insert_total payload c Hwf) as (c1 & E & _ & _ & _ & _ & Hsame & _).
    rewrite E, (Hsame Hroom). simpl. eexists. split; [reflexivity|].
    split; now apply get_item_set_other.
Qed.

(** X5: least-recently-used eviction spares what was used more
    recently: when a [set] finds the cache full, an entry whose last
    access is later than that of some other entry is still there
    afterwards, unchanged. *)
Theorem recently_used_survives
    (c : t) (key k k0 : str) (tk t0 : Q) (resp : payload) (now now' : Q) :
  reachable c -> (1 <= max_size c <= size c)%Z -> k <> key ->
  In (k, tk) (access_times c) -> In (k0, t0) (access_times c) -> t0 < tk ->
  exists c',
    set_at c key resp now now' = Return c' /\
    mem k (cache c) = true /\
    get_item k (cache c') = get_item k (cache c) /\
    get_item k (access_times c') = Some tk.
Proof.
  intros Hr Hfull Hne Hk H0 Hlt.
  pose proof (reachable_wf payload c Hr) as Hwf.
  destruct (set_at_full payload c key resp now now' Hwf Hfull)
    as (l1 & victim & tv & l2 & c1 & Ea & H1 & H2 & Hmem & _ & Ec1 & Ea1 & Hwf1 & Eset).
  destruct Hwf as [Hkeys Hnd].
  assert (NoDup (keys (access_times c))) as Hnda by now rewrite <- Hkeys.
  assert (forall x, In x (access_times c) -> tv <= snd x) as Hleast.
  { intros x Hx. rewrite Ea in Hx. apply in_app_or in Hx as [Hx|[<-|Hx]].
    - now apply Qlt_le_weak, H1.
    - apply Qle_refl.
    - now apply H2. }
  assert (victim <> k) as Hvk.
  { intros ->. apply (In_get_item _ _ _ Hnda) in Hk.
    assert (In (k, tv) (access_times c)) as Hv.
    { rewrite Ea. apply in_or_app. right. now left. }
    apply (In_get_item _ _ _ Hnda) in Hv. rewrite Hv in Hk. injection Hk as ->.
    apply Hleast in H0. simpl in H0. now apply (Qlt_not_le _ _ Hlt). }
  exists (inserted c1 key resp now now'). split; [exact Eset|]. split; [|split].
  - apply mem_true. rewrite Hkeys. apply (in_map fst) in Hk. exact Hk.
  - simpl. rewrite (get_item_set_other _ _ _ _ Hne), Ec1.
    apply get_item_remove_other. congruence.
  - simpl. rewrite (get_item_set_other _ _ _ _ Hne).
    assert (access_times c1 = remove victim (access_times c)) as ->.
    { rewrite Ea1, Ea. symmetry. apply remove_middle.
      rewrite Ea, keys_app in Hnda. simpl in Hnda.
      apply NoDup_remove_2 in Hnda. rewrite in_app_iff in Hnda. tauto. }
    rewrite get_item_remove_other; [|congruence].
    now apply In_get_item.
Qed.

(** What [set] does when [max_size] is zero or less and the cache holds
    at most one entry: that entry goes and the new one is alone. *)
Lemma set_at_without_capacity
    (c : t) (key : str) (resp : payload) (now now' : Q) :
  wf c -> (max_size c <= 0)%Z -> (size c <= 1)%Z ->
  set_at c key resp now now' =
    Return (Cache [(key, Entry resp now)] [(key, now')] (max_size c) (ttl c)).
Proof.
  intros [Hk _] Hm Hs. destruct c as [entries times m life].
  unfold set_at, size in *. simpl in *.
  destruct (Z.leb_spec m (Z.of_nat (List.length entries))) as [_|Hlt]; [|lia].
  unfold _evict_oldest. simpl.
  destruct entries as [|[k1 e1] [|x l]]; simpl in Hs; try lia;
    destruct times as [|[k2 t2] [|y d]]; try discriminate.
  - reflexivity.
  - simpl in Hk. injection Hk as <-.
    unfold del_item, mem. simpl.
    rewrite !(key_eqb_refl (K:=str) k1). reflexivity.
Qed.

Lemma run_without_capacity (ops : list call) (c : t) :
  wf c -> (max_size c <= 0)%Z -> (size c <= 1)%Z ->
  exists c', run c ops = Return c' /\ wf c' /\
             max_size c' = max_size c /\ ttl c' = ttl c /\ (size c' <= 1)%Z.
Proof.
  revert c; induction ops as [|op ops IH]; intros c Hwf Hm Hs; simpl.
  - exists c. auto.
  - destruct (step_wf payload c op Hwf) as (c1 & E & Hw1 & Hm1 & Ht1).
    rewrite E. simpl.
    assert (size c1 <= 1)%Z as Hs1.
    { destruct op as [key now now'|key resp now now'|]; simpl in E.
      - injection E as <-. pose proof (get_at_size payload c key now now'). lia.
      - rewrite (set_at_without_capacity c key resp now now' Hwf Hm Hs) in E.
        injection E as <-. unfold size. simpl. lia.
      - injection E as <-. unfold size. simpl. lia. }
    destruct (IH c1 Hw1) as (c' & E' & Hw' & Hm' & Ht' & Hs'); [lia | exact Hs1 |].
    exists c'. repeat split; try apply Hw'; auto; congruence.
Qed.

(** X6: a cache configured with [max_size <= 0] never holds more than
    one entry: each [set] drops whatever is there and leaves the entry
    it stores alone. *)
Theorem nonpositive_capacity_holds_one (m : Z) (life : Q) (ops : list call) :
  (m <= 0)%Z ->
  exists c,
    run (init payload m life) ops = Return c /\ (size c <= 1)%Z /\
    forall key resp now now',
      set_at c key resp now now' =
        Return (Cache [(key, Entry resp now)] [(key, now')] m life).
Proof.
  intros Hm.
  destruct (run_without_capacity ops (init payload m life)
              (init_wf payload m life)) as (c & E & Hwf & Hmax & Ht & Hs).
  - exact Hm.
  - unfold size. simpl. lia.
  - exists c. split; [exact E|]. split; [exact Hs|].
    intros key resp now now'. simpl in Hmax, Ht.
    rewrite (set_at_without_capacity c key resp now now' Hwf); [|lia|exact Hs].
    now rewrite Hmax, Ht.
Qed.

(** X7: updating a fingerprint that is already stored, in a full cache,
    still evicts the least recently used entry first.  If that entry is
    another one, it is lost and the cache ends one entry smaller; if it
    is the updated one itself, the size is kept. *)
Theorem update_at_capacity_evicts
    (c : t) (key : str) (resp : payload) (now now' : Q) :
  reachable c -> (1 <= max_size c <= size c)%Z -> mem key (cache c) = true ->
  exists victim tv c',
    In (victim, tv) (access_times c) /\
    (forall x, In x (access_times c) -> tv <= snd x) /\
    set_at c key resp now now' = Return c' /\
    get_item key (cache c') = Some (Entry resp now) /\
    (victim = key -> size c' = size c) /\
    (victim <> key ->
       (size c' = size c - 1)%Z /\ get_item victim (cache c') = None).
Proof.
  intros Hr Hfull Hkey. pose proof (reachable_wf payload c Hr) as Hwf.
  destruct (set_at_full payload c key resp now now' Hwf Hfull)
    as (l1 & victim & tv & l2 & c1 & Ea & H1 & H2 & Hmem & _ & Ec1 & Ea1 & Hwf1 & Eset).
  exists victim, tv, (inserted c1 key resp now now').
  assert (S (List.length (cache c1)) = List.length (cache c)) as Hlen.
  { rewrite Ec1. now apply length_remove. }
  split; [|split; [|split; [exact Eset|split; [|split]]]].
  - rewrite Ea. apply in_or_app. right. now left.
  - intros x Hx. rewrite Ea in Hx. apply in_app_or in Hx as [Hx|[<-|Hx]].
    + now apply Qlt_le_weak, H1.
    + apply Qle_refl.
    + now apply H2.
  - simpl. apply get_item_set_same.
  - intros ->. unfold size. simpl. rewrite length_set_item.
    assert (mem key (cache c1) = false) as ->.
    { unfold mem. rewrite Ec1. now rewrite (get_item_remove_same _ _ (proj2 Hwf)). }
    lia.
  - intros Hne. split.
    + unfold size. simpl. rewrite length_set_item.
      assert (mem key (cache c1) = true) as ->; [|lia].
      unfold mem in *. rewrite Ec1. rewrite get_item_remove_other; [exact Hkey|].
      congruence.
    + simpl. rewrite get_item_set_other; [|exact Hne].
      rewrite Ec1. apply get_item_remove_same, Hwf.
Qed.

(** ** The public methods *)

Variable md5_hexdigest : str -> str.

Local Abbreviation method := (CacheCalls.call payload).

Lemma generate_key_encodable (query context model : str) :
  existsb CacheCalls.is_surrogate (CacheCalls.key_data query context model)
    = false ->
  CacheCalls._generate_key md5_hexdigest query context model =
    Return (md5_hexdigest (CacheCalls.key_data query context model)).
Proof.
  intros H. unfold CacheCalls._generate_key, CacheCalls.encode.
  now rewrite H.
Qed.

Lemma generate_key_raises (query context model : str) :
  existsb CacheCalls.is_surrogate (CacheCalls.key_data query context model)
    = true ->
  CacheCalls._generate_key md5_hexdigest query context model =
    Raise (Exception "UnicodeEncodeError").
Proof.
  intros H. unfold CacheCalls._generate_key, CacheCalls.encode.
  now rewrite H.
Qed.

Lemma calls_step_wf (ops : float_ops) (c : t) (op : method) :
  wf c -> CacheCalls.encodable op = true ->
  exists c', CacheCalls.step md5_hexdigest ops c op = Return c' /\ wf c' /\
             max_size c' = max_size c /\ ttl c' = ttl c.
Proof.
  intros Hwf He.
  destruct op as [query context model now now'
                 |query resp context model now now'|]; simpl in *.
  - apply negb_true_iff in He. unfold CacheCalls.get.
    rewrite (generate_key_encodable _ _ _ He). simpl.
    eexists. split; [reflexivity|]. now apply calls_get_at_wf.
  - apply negb_true_iff in He. unfold CacheCalls.set.
    rewrite (generate_key_encodable _ _ _ He). simpl.
    destruct (set_at_total payload c
                (md5_hexdigest (CacheCalls.key_data query context model))
                resp now now' Hwf) as (c' & E & Hw & Hm & Ht & _).
    exists c'. auto.
  - eexists. split; [reflexivity|]. split; [|split; reflexivity].
    split; [reflexivity | constructor].
Qed.

Lemma calls_run_wf (ops : float_ops) (calls : list method) (c : t) :
  wf c -> forallb (@CacheCalls.encodable payload) calls = true ->
  exists c', CacheCalls.run md5_hexdigest ops c calls = Return c' /\ wf c' /\
             max_size c' = max_size c /\ ttl c' = ttl c.
Proof.
  revert c; induction calls as [|op calls IH]; intros c Hwf He; simpl.
  - exists c. auto.
  - simpl in He. apply andb_true_iff in He as [He1 He].
    destruct (calls_step_wf ops c op Hwf He1) as (c1 & E & Hw1 & Hm1 & Ht1).
    rewrite E. simpl.
    destruct (IH c1 Hw1 He) as (c' & E' & Hw' & Hm' & Ht').
    exists c'. repeat split; try apply Hw'; congruence.
Qed.

(** X1: through the public methods, for any digest function and
    whatever the rounding of the clock arithmetic: no sequence of [get],
    [set] and [clear] calls on a new cache raises as long as the key
    data of each call can be encoded, and after it the two dictionaries
    hold the same keys in the same order, each once, with [max_size] and
    [ttl] unchanged.  A [get] or [set] whose key data holds a surrogate
    raises [UnicodeEncodeError], in any state. *)
Theorem calls_never_raise
    (ops : float_ops) (m : Z) (life : Q) (calls : list method) :
  (forallb (@CacheCalls.encodable payload) calls = true ->
   exists c,
     CacheCalls.run md5_hexdigest ops (init payload m life) calls = Return c /\
     keys (cache c) = keys (access_times c) /\
     NoDup (keys (cache c)) /\
     max_size c = m /\ ttl c = life) /\
  (forall (c : t) (op : method),
     CacheCalls.encodable op = false ->
     CacheCalls.step md5_hexdigest ops c op =
       Raise (Exception "UnicodeEncodeError")).
Proof.
  split.
  - intros He.
    destruct (calls_run_wf ops calls _ (init_wf payload m life) He)
      as (c & E & [Hk Hnd] & Hm & Ht).
    exists c. auto.
  - intros c op He.
    destruct op as [query context model now now'
                   |query resp context model now now'|]; simpl in *;
      [| |discriminate].
    + apply negb_false_iff in He. unfold CacheCalls.get.
      now rewrite (generate_key_raises _ _ _ He).
    + apply negb_false_iff in He. unfold CacheCalls.set.
      now rewrite (generate_key_raises _ _ _ He).
Qed.

(** X3: through the public methods, for any digest function and
    whatever the rounding of the clock arithmetic: when the key data can
    be encoded, after two [set] calls for the same (query, context,
    model), a [get] for it that the expiry test of the second entry lets
    pass returns the second payload. *)
Theorem later_set_wins
    (ops : float_ops) (c : t) (query context model : str) (p1 p2 : payload)
    (t1 t1' t2 t2' now now' : Q) :
  wf c ->
  existsb CacheCalls.is_surrogate (CacheCalls.key_data query context model)
    = false ->
  ~ ttl c < fsub ops now t2 ->
  exists c1 c2 c3,
    CacheCalls.set md5_hexdigest c query p1 context model t1 t1' = Return c1 /\
    CacheCalls.set md5_hexdigest c1 query p2 context model t2 t2' = Return c2 /\
    CacheCalls.get md5_hexdigest ops c2 query context model now now' =
      Return (Some p2, c3).
Proof.
  intros Hwf He Hlive. unfold CacheCalls.set, CacheCalls.get.
  rewrite (generate_key_encodable _ _ _ He). simpl.
  set (key := md5_hexdigest (CacheCalls.key_data query context model)).
  destruct (set_at_total payload c key p1 t1 t1' Hwf)
    as (c1 & E1 & Hwf1 & _ & Ht1 & _).
  destruct (set_at_total payload c1 key p2 t2 t2' Hwf1)
    as (c2 & E2 & _ & _ & Ht2 & Hg & _).
  exists c1, c2. eexists. split; [exact E1|]. split; [exact E2|].
  rewrite calls_get_at_cases, Hg. simpl. rewrite Ht2, Ht1.
  destruct (Qltb_spec (ttl c) (fsub ops now t2)); [tauto | reflexivity].
Qed.

End Props.

Lemma aged_cache_reachable : reachable aged_cache.
Proof.
  exists 2%Z, 3600,
    [CallSet (py "b") 1%nat 0 0; CallSet (py "a") 2%nat 5 5].
  reflexivity.
Defined.

Lemma stats_reports_least_access_time_witness :
  reachable aged_cache /\
  stat_size (stats aged_cache) = 2%nat /\
  stat_oldest_entry (stats aged_cache) = Some 0.
Proof.
  split; [exact aged_cache_reachable|].
  split; [|reflexivity].
  apply (stats_reports_least_access_time nat aged_cache aged_cache_reachable).
Defined.

Lemma half_full_cache_reachable : reachable half_full_cache.
Proof.
  exists 2%Z, 60, [CallSet (py "f2") 5%nat 0 0].
  reflexivity.
Defined.

Lemma other_keys_untouched_witness :
  reachable half_full_cache /\ py "f2" <> py "f1" /\
  (size half_full_cache < max_size half_full_cache)%Z /\
  get_item (py "f2") (cache (snd (get_at half_full_cache (py "f1") 1 1))) =
    Some (Entry 5%nat 0) /\
  exists c',
    set_at half_full_cache (py "f1") 7%nat 1 1 = Return c' /\
    get_item (py "f2") (cache c') = Some (Entry 5%nat 0) /\
    get_item (py "f2") (access_times c') = Some 0.
Proof.
  assert (py "f2" <> py "f1") as Hne by discriminate.
  assert (size half_full_cache < max_size half_full_cache)%Z as Hroom
    by (unfold size; simpl; lia).
  split; [exact half_full_cache_reachable|]. split; [exact Hne|].
  split; [exact Hroom|].
  destruct (other_keys_untouched nat half_full_cache (py "f1") (py "f2")
              7%nat 1 1 half_full_cache_reachable Hne) as [[Hget _] Hset].
  split; [exact Hget|].
  destruct (Hset Hroom) as (c' & E & Hc & Ha).
  exists c'. split; [exact E|]. split; [exact Hc | exact Ha].
Defined.

Lemma recently_used_survives_witness :
  reachable aged_cache /\
  (1 <= max_size aged_cache <= size aged_cache)%Z /\
  py "a" <> py "c" /\
  In (py "a", 5) (access_times aged_cache) /\
  In (py "b", 0) (access_times aged_cache) /\ 0 < 5 /\
  exists c',
    set_at aged_cache (py "c") 3%nat 9 9 = Return c' /\
    mem (py "a") (cache aged_cache) = true /\
    get_item (py "a") (cache c') = get_item (py "a") (cache aged_cache) /\
    get_item (py "a") (access_times c') = Some 5.
Proof.
  assert (1 <= max_size aged_cache <= size aged_cache)%Z as Hfull
    by (unfold size; simpl; lia).
  assert (py "a" <> py "c") as Hne by discriminate.
  assert (In (py "a", 5) (access_times aged_cache)) as Ha by (right; now left).
  assert (In (py "b", 0) (access_times aged_cache)) as Hb by now left.
  assert (0 < 5) as Hlt by reflexivity.
  repeat (split; [assumption || exact aged_cache_reachable|]).
  apply (recently_used_survives nat aged_cache (py "c") (py "a") (py "b") 5 0
           3%nat 9 9 aged_cache_reachable Hfull Hne Ha Hb Hlt).
Defined.

Lemma nonpositive_capacity_holds_one_witness :
  (0 <= 0)%Z /\
  exists c,
    run zero_cache [CallSet (py "f1") 1%nat 0 0; CallSet (py "f2") 2%nat 1 1]
      = Return c /\
    (size c <= 1)%Z /\
    forall key resp now now',
      set_at c key resp now now' =
        Return (Cache [(key, Entry resp now)] [(key, now')] 0 60).
Proof.
  split; [lia|].
  apply (nonpositive_capacity_holds_one nat 0 60
           [CallSet (py "f1") 1%nat 0 0; CallSet (py "f2") 2%nat 1 1]).
  lia.
Defined.

Lemma update_at_capacity_evicts_witness :
  reachable aged_cache /\
  (1 <= max_size aged_cache <= size aged_cache)%Z /\
  mem (py "a") (cache aged_cache) = true /\
  exists victim tv c',
    In (victim, tv) (access_times aged_cache) /\
    (forall x, In x (access_times aged_cache) -> tv <= snd x) /\
    set_at aged_cache (py "a") 4%nat 9 9 = Return c' /\
    get_item (py "a") (cache c') = Some (Entry 4%nat 9) /\
    (victim = py "a" -> size c' = size aged_cache) /\
    (victim <> py "a" ->
       (size c' = size aged_cache - 1)%Z /\ get_item victim (cache c') = None).
Proof.
  assert (1 <= max_size aged_cache <= size aged_cache)%Z as Hfull
    by (unfold size; simpl; lia).
  split; [exact aged_cache_reachable|]. split; [exact Hfull|].
  split; [reflexivity|].
  apply (update_at_capacity_evicts nat aged_cache (py "a") 4%nat 9 9
           aged_cache_reachable Hfull).
  reflexivity.
Defined.

Lemma later_set_wins_witness :
  wf fresh_cache /\
  existsb CacheCalls.is_surrogate (CacheCalls.key_data (py "2+2") [] [])
    = false /\
  ~ ttl fresh_cache < fsub binary64_ops 30 10 /\
  exists c1 c2 c3,
    CacheCalls.set plain_digest fresh_cache (py "2+2") 1%nat [] [] 0 0
      = Return c1 /\
    CacheCalls.set plain_digest c1 (py "2+2") 2%nat [] [] 10 10 = Return c2 /\
    CacheCalls.get plain_digest binary64_ops c2 (py "2+2") [] [] 30 30 =
      Return (Some 2%nat, c3).
Proof.
  assert (wf fresh_cache) as Hwf by apply (init_wf nat 2 60).
  assert (~ ttl fresh_cache < fsub binary64_ops 30 10) as Hlive.
  { intros H. vm_compute in H. discriminate. }
  split; [exact Hwf|]. split; [reflexivity|]. split; [exact Hlive|].
  apply (later_set_wins nat plain_digest binary64_ops fresh_cache
           (py "2+2") [] [] 1%nat 2%nat 0 0 10 10 30 30 Hwf eq_refl Hlive).
Defined.

Lemma calls_never_raise_witness :
  forallb (@CacheCalls.encodable nat)
    [CacheCalls.SetCall (py "2+2") 4%nat [] [] 0 0;
     CacheCalls.GetCall nat (py "2+2") [] [] 1 1] = true /\
  (exists c,
     CacheCalls.run plain_digest binary64_ops (init nat 2 60)
       [CacheCalls.SetCall (py "2+2") 4%nat [] [] 0 0;
        CacheCalls.GetCall nat (py "2+2") [] [] 1 1] = Return c /\
     keys (cache c) = keys (access_times c) /\
     NoDup (keys (cache c)) /\
     max_size c = 2%Z /\ ttl c = 60) /\
  CacheCalls.encodable (CacheCalls.GetCall nat [55296%N] [] [] 1 1) = false /\
  CacheCalls.step plain_digest binary64_ops fresh_cache
    (CacheCalls.GetCall nat [55296%N] [] [] 1 1) =
    Raise (Exception "UnicodeEncodeError").
Proof.
  destruct (calls_never_raise nat plain_digest binary64_ops 2 60
              [CacheCalls.SetCall (py "2+2") 4%nat [] [] 0 0;
               CacheCalls.GetCall nat (py "2+2") [] [] 1 1]) as [Hrun Hraise].
  split; [reflexivity|]. split; [exact (Hrun eq_refl)|].
  split; [reflexivity|]. apply Hraise. reflexivity.
Defined.

End CacheExtras.

(* ================================================================== *)
(** * Further properties of the rank merger *)
(* ================================================================== *)

Module MergeExtras.

Import PyStr Py EnhancedRetrieval DictSpec SortSpec MergeSpec RetrievalExtraSpec.
Import DictFacts NumFacts SortFacts MergeProperties.
Local Open Scope Q_scope.

Lemma find_doc_app (id : option str) (l1 l2 : list doc) :
  find_doc id (l1 ++ l2) =
    match find_doc id l1 with
    | Some d => Some d
    | None => find_doc id l2
    end.
Proof.
  unfold find_doc. induction l1 as [|d l1 IH]; simpl; [reflexivity|].
  destruct (key_eqb (doc_id d) id); [reflexivity | exact IH].
Qed.

(** The first loop, for arbitrary lists: the last vector result of an id
    is the one that stays. *)
Lemma get_fold_vector_last (vs : list doc) D (id : option str) :
  get_item id (fold_left add_vector vs D) =
    match from_vector id vs with
    | Some m => Some m
    | None => get_item id D
    end.
Proof.
  revert D. induction vs as [|d vs IH]; intros D; [reflexivity|].
  simpl fold_left. rewrite IH. unfold from_vector. simpl rev.
  rewrite find_doc_app. destruct (find_doc id (rev vs)); [reflexivity|].
  unfold find_doc, add_vector. simpl.
  destruct (key_eqb_spec (doc_id d) id) as [<-|Hne].
  - apply get_item_set_same.
  - apply get_item_set_other. congruence.
Qed.

(** The second loop, for arbitrary lists: every keyword result of an id
    boosts its entry. *)
Lemma get_fold_keyword_all (ks : list doc) D (id : option str) :
  get_item id (fold_left add_keyword ks D) =
    fold_left boost (filter (has_id id) ks) (get_item id D).
Proof.
  revert D. induction ks as [|d ks IH]; intros D; [reflexivity|].
  simpl fold_left. rewrite IH. simpl filter. unfold has_id at 2.
  destruct (key_eqb_spec (doc_id d) id) as [<-|Hne]; simpl.
  - f_equal. unfold add_keyword, boost.
    destruct (get_item (doc_id d) D); apply get_item_set_same.
  - f_equal. unfold add_keyword.
    destruct (get_item (doc_id d) D); apply get_item_set_other; congruence.
Qed.

Lemma fold_boost_score (l : list doc) (o : option merged) (m : merged) :
  fold_left boost l o = Some m ->
  final_score m ==
    match o with Some m0 => final_score m0 | None => 0 end + 0.3 * sum_scores l.
Proof.
  revert o. induction l as [|d l IH]; intros o; simpl.
  - intros ->. lra.
  - intros E. rewrite (IH _ E). destruct o as [m0|]; simpl; lra.
Qed.

Lemma fold_boost_None (l : list doc) (o : option merged) :
  fold_left boost l o = None <-> l = [] /\ o = None.
Proof.
  revert o. induction l as [|d l IH]; intros o; simpl.
  - split; [auto | tauto].
  - rewrite IH. split; [|intros [E _]; discriminate].
    intros [_ E]. destruct o; discriminate.
Qed.

Lemma filter_has_id_nil (id : option str) (l : list doc) :
  filter (has_id id) l = [] <-> find_doc id l = None.
Proof.
  unfold find_doc, has_id. induction l as [|d l IH]; simpl; [tauto|].
  destruct (key_eqb (doc_id d) id); [split; discriminate | exact IH].
Qed.

(** X10: the merge on arbitrary candidate lists.  Under each id the
    dictionary holds the last vector result with that id (weight 0.7),
    boosted once by every keyword result with that id (weight 0.3 each),
    or the first such keyword result boosted by the others; so the final
    score is 0.7 times the last vector score plus 0.3 times the sum of
    all keyword scores of the id.  Ids absent from both lists have no
    entry. *)
Theorem merge_accumulates_repeated_ids
    (vs ks : list doc) (id : option str) :
  get_item id (combine vs ks) =
    fold_left boost (filter (has_id id) ks) (from_vector id vs) /\
  (forall m, get_item id (combine vs ks) = Some m ->
     final_score m ==
       0.7 * vector_score id vs + 0.3 * sum_scores (filter (has_id id) ks)) /\
  (get_item id (combine vs ks) = None <->
     find_doc id vs = None /\ find_doc id ks = None).
Proof.
  assert (get_item id (combine vs ks) =
          fold_left boost (filter (has_id id) ks) (from_vector id vs)) as E.
  { unfold combine. rewrite get_fold_keyword_all, get_fold_vector_last.
    now destruct (from_vector id vs). }
  split; [exact E|]. rewrite E. split.
  - intros m Hm. rewrite (fold_boost_score _ _ _ Hm).
    unfold from_vector, vector_score.
    destruct (find_doc id (rev vs)); simpl; lra.
  - rewrite fold_boost_None. unfold from_vector.
    assert (find_doc id (rev vs) = None <-> find_doc id vs = None) as Hrev.
    { unfold find_doc. split; intros Hn.
      - destruct (find _ vs) as [d|] eqn:F; [|reflexivity].
        apply find_some in F as [Hi He]. apply in_rev in Hi.
        pose proof (find_none _ _ Hn d Hi) as Hf. simpl in Hf. congruence.
      - destruct (find _ (rev vs)) as [d|] eqn:F; [|reflexivity].
        apply find_some in F as [Hi He]. apply in_rev in Hi.
        pose proof (find_none _ _ Hn d Hi) as Hf. simpl in Hf. congruence. }
    rewrite filter_has_id_nil. destruct (find_doc id (rev vs)) eqn:F.
    + split; [intros [_ H]; discriminate|].
      intros [Hv _]. apply Hrev in Hv. discriminate.
    + split; intros [H1 H2]; split; auto. now apply Hrev.
Qed.

Lemma merge_accumulates_repeated_ids_witness :
  exists m,
    get_item (Some (py "A"))
      (combine [candidate "A" 0.9] [candidate "A" 0.5; candidate "A" 0.4])
      = Some m /\
    final_score m == 0.7 * 0.9 + 0.3 * (0.5 + 0.4).
Proof.
  destruct (merge_accumulates_repeated_ids [candidate "A" 0.9]
              [candidate "A" 0.5; candidate "A" 0.4] (Some (py "A")))
    as (_ & Hs & _).
  eexists. split; [vm_compute; reflexivity|].
  rewrite Hs by (vm_compute; reflexivity). vm_compute. reflexivity.
Defined.

(** ** Ids of the output *)

Lemma existsb_key_eqb (k : option str) (l : list (option str)) :
  existsb (key_eqb k) l = true <-> In k l.
Proof.
  rewrite existsb_exists. split.
  - intros (x & Hi & He). now destruct (key_eqb_spec k x) as [->|].
  - intros Hi. exists k. split; [exact Hi | apply key_eqb_refl].
Qed.

Lemma In_fold_note_id (k : option str) (l seen : list (option str)) :
  In k (fold_left note_id l seen) <-> In k seen \/ In k l.
Proof.
  revert seen. induction l as [|x l IH]; intros seen; simpl; [tauto|].
  rewrite IH. unfold note_id.
  destruct (existsb (key_eqb x) seen) eqn:E.
  - apply existsb_key_eqb in E. split; [tauto|].
    intros [H|[<-|H]]; tauto.
  - rewrite in_app_iff. simpl. split; [intros [[H|[H|[]]]|H] | intros [H|[H|H]]];
      tauto.
Qed.

Lemma In_first_seen (k : option str) (l : list (option str)) :
  In k (first_seen l) <-> In k l.
Proof. unfold first_seen. rewrite In_fold_note_id. simpl. tauto. Qed.

Lemma NoDup_firstn {A} (n : nat) (l : list A) : NoDup l -> NoDup (firstn n l).
Proof.
  intros H. rewrite <- (firstn_skipn n l) in H. now apply NoDup_app_remove_r in H.
Qed.

Lemma sorted_values_ids (vs ks : list doc) :
  Permutation (List.map merged_id
                 (sorted_desc final_score (values (combine vs ks))))
              (first_seen (ids vs ++ ids ks)).
Proof.
  destruct (combine_inv vs ks) as (Hkeyed & _).
  rewrite <- keys_combine, <- (values_keys_merged _ Hkeyed).
  apply Permutation_map, sorted_desc_perm.
Qed.

Lemma merge_ids_NoDup (vs ks : list doc) (query : str) :
  NoDup (List.map merged_id (_merge_and_rerank vs ks query)).
Proof.
  unfold _merge_and_rerank. rewrite <- firstn_map. apply NoDup_firstn.
  destruct (combine_inv vs ks) as (_ & Hnd & _).
  apply (Permutation_NoDup (Permutation_sym (sorted_values_ids vs ks))).
  now rewrite <- keys_combine.
Qed.

(** X11: the merged list names each document id at most once and only
    ids of the input; its length is the number of distinct input ids,
    capped at 5; and when there are at most 5 distinct ids, every input
    candidate's id is in the output. *)
Theorem merge_keeps_each_id_once (vs ks : list doc) (query : str) :
  NoDup (List.map merged_id (_merge_and_rerank vs ks query)) /\
  (forall m, In m (_merge_and_rerank vs ks query) ->
     In (merged_id m) (ids vs ++ ids ks)) /\
  List.length (_merge_and_rerank vs ks query) =
    Nat.min 5 (List.length (first_seen (ids vs ++ ids ks))) /\
  ((List.length (first_seen (ids vs ++ ids ks)) <= 5)%nat ->
   forall d, In d (vs ++ ks) ->
     exists m, In m (_merge_and_rerank vs ks query) /\ merged_id m = doc_id d).
Proof.
  pose proof (sorted_values_ids vs ks) as Hperm.
  split; [apply merge_ids_NoDup|]. split; [|split].
  - intros m Hi. unfold _merge_and_rerank in Hi. apply In_firstn in Hi.
    apply (in_map merged_id) in Hi.
    apply (Permutation_in _ Hperm) in Hi.
    exact (proj1 (In_first_seen _ _) Hi).
  - unfold _merge_and_rerank. rewrite length_firstn.
    apply Permutation_length in Hperm. rewrite length_map in Hperm.
    now rewrite Hperm.
  - intros Hfew d Hd. unfold _merge_and_rerank.
    pose proof (Permutation_length Hperm) as Hlen. rewrite length_map in Hlen.
    rewrite firstn_all2; [|lia].
    assert (In (doc_id d) (first_seen (ids vs ++ ids ks))) as Hin.
    { apply In_first_seen. unfold ids. rewrite <- map_app. now apply in_map. }
    apply (Permutation_in _ (Permutation_sym Hperm)) in Hin.
    apply in_map_iff in Hin as (m & E & Hm). now exists m.
Qed.

Lemma merge_keeps_each_id_once_witness :
  (List.length (first_seen (ids [candidate "A" 0.9] ++
                            ids [candidate "A" 0.5; candidate "B" 0.6]))
     <= 5)%nat /\
  In (candidate "B" 0.6) ([candidate "A" 0.9] ++
                          [candidate "A" 0.5; candidate "B" 0.6]) /\
  exists m,
    In m (_merge_and_rerank [candidate "A" 0.9]
                            [candidate "A" 0.5; candidate "B" 0.6] []) /\
    merged_id m = doc_id (candidate "B" 0.6).
Proof.
  assert (List.length (first_seen (ids [candidate "A" 0.9] ++
            ids [candidate "A" 0.5; candidate "B" 0.6])) <= 5)%nat as Hfew.
  { vm_compute. lia. }
  assert (In (candidate "B" 0.6) ([candidate "A" 0.9] ++
            [candidate "A" 0.5; candidate "B" 0.6])) as Hd.
  { right. right. now left. }
  split; [exact Hfew|]. split; [exact Hd|].
  exact (proj2 (proj2 (proj2 (merge_keeps_each_id_once
           [candidate "A" 0.9] [candidate "A" 0.5; candidate "B" 0.6] [])))
         Hfew _ Hd).
Defined.

End MergeExtras.

(* ================================================================== *)
(** * Further properties of the candidate sources *)
(* ================================================================== *)

Module RetrievalExtras.

Import PyStr Py Re EnhancedRetrieval DictSpec SortSpec MergeSpec.
Import RetrievalSpec RetrievalExtraSpec.
Import DictFacts NumFacts SortFacts MergeProperties MergeExtras.
Local Open Scope Q_scope.

(** ** The matcher on texts that lack a required character *)

Section Failing.

(** A property of texts that every tail of a text inherits. *)
Variable P : str -> Prop.
Hypothesis P_tail : forall c s, P (c :: s) -> P s.

Lemma lit_fails (w : str) (k : cont) :
  (forall p s, P s -> k p s = None) ->
  forall prev s, P s -> lit w k prev s = None.
Proof.
  intros Hk. induction w as [|x w IH]; intros prev s Hs; simpl.
  - now apply Hk.
  - destruct s as [|c s]; [reflexivity|].
    destruct (N.eqb x c); [|reflexivity]. apply IH. now apply P_tail in Hs.
Qed.

Lemma many_fails (p : char -> bool) (k : cont) :
  (forall q s, P s -> k q s = None) ->
  forall prev s, P s -> many p k prev s = None.
Proof.
  intros Hk prev s. revert prev. induction s as [|c s IH]; intros prev Hs; simpl.
  - now apply Hk.
  - rewrite (Hk _ _ Hs). destruct (p c); [|reflexivity].
    rewrite IH; [reflexivity|]. now apply P_tail in Hs.
Qed.

(** If the continuation fails on every text with the property, so does
    the whole match: a match only ever hands a tail of its input on. *)
Lemma matches_fails (r : pattern) :
  forall k : cont,
  (forall p s, P s -> k p s = None) ->
  forall prev s, P s -> matches r k prev s = None.
Proof.
  induction r as [p|w|r1 IH1 r2 IH2|r1 IH1 r2 IH2|r IH|p|p|];
    intros k Hk prev s Hs; simpl.
  - destruct s as [|c s]; [reflexivity|].
    destruct (p c); [|reflexivity]. apply Hk. now apply P_tail in Hs.
  - now apply lit_fails.
  - apply IH1; [|exact Hs]. intros q s' Hs'. now apply IH2.
  - rewrite (IH1 k Hk prev s Hs). simpl. now apply IH2.
  - rewrite (IH k Hk prev s Hs). simpl. now apply Hk.
  - now apply many_fails.
  - destruct s as [|c s]; [reflexivity|].
    destruct (p c); [|reflexivity]. apply many_fails; [exact Hk|].
    now apply P_tail in Hs.
  - destruct (at_boundary prev s); [now apply Hk | reflexivity].
Qed.

(** A sequence fails as soon as its second part always does. *)
Lemma cat_fails (r1 r2 : pattern) :
  (forall (k : cont) prev s, P s -> matches r2 k prev s = None) ->
  forall (k : cont) prev s, P s -> matches (Cat r1 r2) k prev s = None.
Proof.
  intros H2 k prev s Hs.
  change (matches r1 (matches r2 k) prev s = None).
  apply matches_fails; [|exact Hs]. intros q s' Hs'. now apply H2.
Qed.

Lemma findall_from_fails (r : pattern) :
  (forall prev s, P s -> match_here r prev s = None) ->
  forall s prev skip, P s -> findall_from r prev s skip = [].
Proof.
  intros Hr s. induction s as [|c s IH]; intros prev skip Hs; [reflexivity|].
  simpl. destruct skip as [|n].
  - rewrite (Hr _ _ Hs). apply IH. now apply P_tail in Hs.
  - apply IH. now apply P_tail in Hs.
Qed.

End Failing.

Lemma no_equals_tail (c : char) (s : str) : no_equals (c :: s) -> no_equals s.
Proof. unfold no_equals. simpl. tauto. Qed.

(** The expression pattern needs an equals sign. *)
Lemma math_pattern_needs_equals (k : cont) (prev : option char) (s : str) :
  no_equals s -> matches math_pattern k prev s = None.
Proof.
  revert k prev s. unfold math_pattern.
  do 5 apply (cat_fails no_equals no_equals_tail).
  intros k prev s Hs.
  change (lit (py "=") (matches (Cat (Many is_space)
            (Many1 (fun c => negb (is_space c)))) k) prev s = None).
  destruct s as [|c s]; [reflexivity|].
  change (py "=") with [61%N]. cbn [lit].
  destruct (N.eqb_spec 61 c) as [<-|Hne]; [|reflexivity].
  exfalso. apply Hs. now left.
Qed.

Lemma findall_math_pattern_nil (s : str) :
  no_equals s -> findall math_pattern s = [].
Proof.
  intros Hs. unfold findall.
  apply (findall_from_fails no_equals no_equals_tail); [|exact Hs].
  intros prev s' Hs'. unfold match_here.
  now rewrite (math_pattern_needs_equals _ _ _ Hs').
Qed.

(** X13: the expression match of the keyword search needs an equals
    sign on both sides: it is false whenever the query or the content
    has none. *)
Theorem math_expression_needs_equals (query content : str) :
  no_equals query \/ no_equals content ->
  _extract_math_expression query content = false.
Proof.
  intros [Hq|Hc]; unfold _extract_math_expression.
  - now rewrite (findall_math_pattern_nil _ Hq).
  - rewrite (findall_math_pattern_nil _ Hc).
    now destruct (findall math_pattern query).
Qed.

Lemma math_expression_needs_equals_witness :
  (no_equals (py "solve f(x) now") \/ no_equals (py "f(x) = 2")) /\
  _extract_math_expression (py "solve f(x) now") (py "f(x) = 2") = false.
Proof.
  assert (no_equals (py "solve f(x) now")) as Hq.
  { intros H. vm_compute in H. repeat destruct H as [H|H]; try discriminate H.
    exact H. }
  split; [now left|].
  apply math_expression_needs_equals. now left.
Defined.

(** ** Scores of the keyword search *)

Lemma of_nat_ratio_le_1 (a b : nat) :
  (0 < a)%nat -> (a <= b)%nat ->
  inject_Z (Z.of_nat a) / inject_Z (Z.of_nat b) <= 1.
Proof.
  intros Ha Hab. apply Qle_shift_div_r.
  - rewrite <- (Zlt_Qlt 0). lia.
  - rewrite Qmult_1_l. rewrite <- Zle_Qle. lia.
Qed.

Lemma filter_length_le {A} (p : A -> bool) (l : list A) :
  (List.length (filter p l) <= List.length l)%nat.
Proof.
  induction l as [|a l IH]; simpl; [lia|]. destruct (p a); simpl; lia.
Qed.

Lemma keyword_score_le_1 (query_lower : str) (query_words : list str)
    (content : str) :
  keyword_score query_lower query_words content <= 1.
Proof.
  unfold keyword_score.
  destruct (contains query_lower (lower content));
    [unfold Qle; simpl; lia|].
  destruct (_extract_math_expression query_lower (lower content));
    [unfold Qle; simpl; lia|].
  set (wm := List.length (filter _ query_words)).
  destruct (Nat.ltb_spec 0 wm) as [Hpos|_]; [|unfold Qle; simpl; lia].
  pose proof (of_nat_ratio_le_1 wm (List.length query_words) Hpos
                (filter_length_le _ _)) as Hr.
  set (ratio := inject_Z (Z.of_nat wm) /
                inject_Z (Z.of_nat (List.length query_words))) in *.
  lra.
Qed.

Lemma keyword_search_returns
    (client : qdrant_client) (collection query : str) (kw : kwargs) :
  exists docs, _keyword_search client collection query kw = Return docs.
Proof.
  unfold _keyword_search.
  destruct (client_scroll client collection 100%nat); simpl; eauto.
Qed.

(** X8: whatever the index returns, the keyword search answers with
    documents whose scores lie above 0.3 and at most at 1, in descending
    order of score, and no more of them than [top_k] (5 by default). *)
Theorem keyword_results_bounded
    (client : qdrant_client) (collection query : str) (kw : kwargs) :
  exists docs,
    _keyword_search client collection query kw = Return docs /\
    (forall d, In d docs -> 0.3 < score d /\ score d <= 1) /\
    descending score docs /\
    (List.length docs <= get_default (kw_top_k kw) 5)%nat.
Proof.
  unfold _keyword_search.
  destruct (client_scroll client collection 100%nat) as [[results offset]|e];
    simpl.
  - eexists. split; [reflexivity|]. split; [|split].
    + intros d Hd. apply In_firstn in Hd.
      apply (Permutation_in _ (sorted_desc_perm _ score _)) in Hd.
      apply in_flat_map in Hd as (p & _ & Hd).
      destruct (Qltb_spec 0.3
                  (keyword_score (lower query) (distinct (words (lower query)))
                     (get_default (page_content p) []))) as [Hlt|_];
        [|destruct Hd].
      destruct Hd as [<-|[]]. simpl. split; [exact Hlt|].
      apply keyword_score_le_1.
    + apply descending_firstn, sorted_desc_descending.
    + apply firstn_le_length.
  - exists []. split; [reflexivity|]. split; [intros d []|].
    split; [constructor | simpl; lia].
Qed.

Lemma keyword_results_bounded_witness :
  exists d,
    _keyword_search small_index (py "math") (py "Area of a circle") no_kwargs
      = Return [d] /\
    In d [d] /\ 0.3 < score d /\ score d <= 1.
Proof.
  destruct (keyword_results_bounded small_index (py "math")
              (py "Area of a circle") no_kwargs) as (docs & E & H & _).
  pose proof E as E'. vm_compute in E'. injection E' as <-.
  eexists. split; [exact E|].
  split; [now left|]. apply H. now left.
Defined.

(** X9: a document that matches neither the whole query nor its
    expression passes the 0.3 threshold of the keyword search exactly
    when it contains more than half of the distinct words of the
    query. *)
Theorem word_overlap_needs_majority
    (query_lower : str) (query_words : list str) (content : str) :
  contains query_lower (lower content) = false ->
  _extract_math_expression query_lower (lower content) = false ->
  (Qltb 0.3 (keyword_score query_lower query_words content) = true <->
   (List.length query_words <
      2 * List.length (filter (fun word => contains word (lower content))
                              query_words))%nat).
Proof.
  intros Hexact Hmath. unfold keyword_score. rewrite Hexact, Hmath.
  pose proof (filter_length_le (fun word => contains word (lower content))
                query_words) as Hle.
  set (wm := List.length (filter _ query_words)) in *.
  set (n := List.length query_words) in *.
  destruct (Nat.ltb_spec 0 wm) as [Hpos|Hzero].
  - destruct n as [|n']; [lia|].
    destruct (Qltb_spec 0.3
                (0.0 + inject_Z (Z.of_nat wm) / inject_Z (Z.of_nat (S n')) * 0.6))
      as [Hlt|Hge]; split; try discriminate; try reflexivity.
    + intros _. unfold Qlt, Qplus, Qmult, Qdiv, Qinv, inject_Z in Hlt.
      simpl in Hlt. lia.
    + intros Hmaj. exfalso. apply Hge.
      unfold Qlt, Qplus, Qmult, Qdiv, Qinv, inject_Z. simpl. lia.
  - assert (wm = 0%nat) as -> by lia. split; [|lia].
    intros H. vm_compute in H. discriminate.
Qed.

Lemma word_overlap_needs_majority_witness :
  contains (py "area of a circle") (lower (py "The circle has area 3")) = false /\
  _extract_math_expression (py "area of a circle")
    (lower (py "The circle has area 3")) = false /\
  Qltb 0.3 (keyword_score (py "area of a circle")
              (distinct (words (py "area of a circle")))
              (py "The circle has area 3")) = true.
Proof.
  split; [reflexivity|]. split; [reflexivity|].
  apply (word_overlap_needs_majority (py "area of a circle")
           (distinct (words (py "area of a circle")))
           (py "The circle has area 3")); [reflexivity | reflexivity |].
  vm_compute. lia.
Defined.

(** ** The hybrid search *)

(** X12: the hybrid search never raises; its answer has at most 5
    entries, in descending order of final score, with no document id
    twice; and when both calls to the index fail it is empty. *)
Theorem hybrid_search_result
    (client : qdrant_client) (collection query : str)
    (query_vector : list Q) (kw : kwargs) :
  exists results,
    hybrid_search client collection query query_vector kw = Return results /\
    (List.length results <= 5)%nat /\
    by_final_score results /\
    NoDup (List.map merged_id results) /\
    (forall e1 e2,
       client_search client (search_params_of collection query_vector kw)
         = Raise e1 ->
       client_scroll client collection 100%nat = Raise e2 ->
       results = []).
Proof.
  destruct (keyword_search_returns client collection query kw) as (kr & Ek).
  unfold hybrid_search, _vector_search.
  destruct (client_search client (search_params_of collection query_vector kw))
    as [hits|e]; simpl; rewrite Ek; simpl;
    (eexists; split; [reflexivity|]; split; [apply firstn_le_length|];
     split; [apply descending_firstn, sorted_desc_descending|];
     split; [apply merge_ids_NoDup|]).
  - intros e1 e2 H. discriminate H.
  - intros e1 e2 _ Es. unfold _keyword_search in Ek. rewrite Es in Ek.
    simpl in Ek. injection Ek as <-. reflexivity.
Qed.

Lemma hybrid_search_result_witness :
  client_search failing_client (search_params_of (py "math") [] no_kwargs)
    = Raise (Exception "ConnectionError") /\
  client_scroll failing_client (py "math") 100%nat
    = Raise (Exception "ConnectionError") /\
  hybrid_search failing_client (py "math") (py "solve x") [] no_kwargs
    = Return [].
Proof.
  split; [reflexivity|]. split; [reflexivity|].
  destruct (hybrid_search_result failing_client (py "math") (py "solve x") []
              no_kwargs) as (results & E & _ & _ & _ & H).
  rewrite E. f_equal.
  apply (H (Exception "ConnectionError") (Exception "ConnectionError"));
    reflexivity.
Defined.

End RetrievalExtras.

(* ================================================================== *)
(** * Further properties of the content gate *)
(* ================================================================== *)

Module GateExtras.

Import PyStr Py Re AIGateway GateSpec GateExtraSpec NumFacts GateProperties.

(** ** Character classes *)

Lemma upper_not_space (c : char) : is_upper c = true -> is_space c = false.
Proof.
  unfold is_upper. intros H. apply andb_true_iff in H as [H1 H2].
  apply N.leb_le in H1, H2. unfold is_space.
  repeat (apply orb_false_intro); try (apply N.eqb_neq; lia);
    apply andb_false_iff; rewrite !N.leb_gt; lia.
Qed.

Lemma digit_not_space (c : char) : is_digit c = true -> is_space c = false.
Proof.
  unfold is_digit. intros H. apply andb_true_iff in H as [H1 H2].
  apply N.leb_le in H1, H2. unfold is_space.
  repeat (apply orb_false_intro); try (apply N.eqb_neq; lia);
    apply andb_false_iff; rewrite !N.leb_gt; lia.
Qed.

Lemma lower_char_space (c : char) : is_space c = true -> lower_char c = c.
Proof.
  intros Hs. unfold lower_char. destruct (is_upper c) eqn:E; [|reflexivity].
  apply upper_not_space in E. congruence.
Qed.

(** Lower-casing keeps whitespace whitespace and the rest the rest. *)
Lemma is_space_lower_char (c : char) : is_space (lower_char c) = is_space c.
Proof.
  unfold lower_char. destruct (is_upper c) eqn:E; [|reflexivity].
  rewrite (upper_not_space _ E).
  unfold is_upper in E. apply andb_true_iff in E as [H1 H2].
  apply N.leb_le in H1, H2. unfold is_space.
  repeat (apply orb_false_intro); try (apply N.eqb_neq; lia);
    apply andb_false_iff; rewrite !N.leb_gt; lia.
Qed.

Lemma blank_lower (s : str) : blank (lower s) = blank s.
Proof.
  unfold blank, lower. induction s as [|c s IH]; simpl; [reflexivity|].
  now rewrite is_space_lower_char, IH.
Qed.

Lemma blank_digit_free (s : str) : blank s = true -> digit_free s = true.
Proof.
  unfold blank, digit_free. rewrite !forallb_forall. intros H c Hc.
  destruct (is_digit c) eqn:E; [|reflexivity].
  apply digit_not_space in E. rewrite (H c Hc) in E. discriminate.
Qed.

(** ** Substrings *)

Lemma startswith_head (x : char) (w s : str) :
  startswith (x :: w) s = true -> exists s', s = x :: s'.
Proof.
  destruct s as [|c s]; simpl; [discriminate|].
  destruct (N.eqb_spec x c) as [->|]; [|discriminate]. now exists s.
Qed.

Lemma contains_head_In (x : char) (w s : str) :
  contains (x :: w) s = true -> In x s.
Proof.
  induction s as [|c s IH].
  - simpl. discriminate.
  - intros H. change (startswith (x :: w) (c :: s) || contains (x :: w) s = true) in H.
    apply orb_true_iff in H as [H|H].
    + apply startswith_head in H as (s' & [= -> _]). now left.
    + right. now apply IH.
Qed.

(** A blank text contains no solid word. *)
Lemma blank_contains_no_solid (w s : str) :
  solid w = true -> blank s = true -> contains w s = false.
Proof.
  intros Hw Hs. destruct (contains w s) eqn:E; [|reflexivity].
  destruct w as [|x w]; [discriminate|]. apply contains_head_In in E.
  unfold blank in Hs. rewrite forallb_forall in Hs. apply Hs in E.
  simpl in Hw. rewrite E in Hw. discriminate.
Qed.

Lemma any_contains_blank (ws : list str) (s : str) :
  forallb solid ws = true -> blank s = true ->
  any (fun w => contains w s) ws = false.
Proof.
  intros Hws Hs. unfold any. induction ws as [|w ws IH]; [reflexivity|].
  simpl in *. apply andb_true_iff in Hws as [Hw Hws].
  now rewrite (blank_contains_no_solid _ _ Hw Hs), IH.
Qed.

(** ** Patterns that start with digits *)

Lemma search_needs_digit (r : pattern) (s : str) (prev : option char) :
  digit_free s = true -> search_from (Cat (Many1 is_digit) r) prev s = false.
Proof.
  revert prev. induction s as [|c s IH]; intros prev Hs.
  - reflexivity.
  - simpl in Hs. apply andb_true_iff in Hs as [Hc Hs].
    apply negb_true_iff in Hc.
    change (match match_here (Cat (Many1 is_digit) r) prev (c :: s) with
            | Some _ => true
            | None => search_from (Cat (Many1 is_digit) r) (Some c) s
            end = false).
    unfold match_here. cbn [matches]. rewrite Hc. now apply IH.
Qed.

(** A text without digits that holds no keyword and no symbol is not
    taken for mathematics. *)
Lemma not_math_related (q : str) :
  any (fun keyword => contains keyword (lower q)) math_keywords = false ->
  any (fun symbol => contains symbol q) math_symbols = false ->
  digit_free q = true -> digit_free (lower q) = true ->
  _is_math_related q = false.
Proof.
  intros Hk Hs Hd Hdl. unfold _is_math_related. rewrite Hk, Hs.
  unfold search, re_operation, re_ratio.
  rewrite !(search_needs_digit _ _ _ Hd).
  unfold re_measurement. now rewrite (search_needs_digit _ _ _ Hdl).
Qed.

(** X14: the empty text and every text made of whitespace only is
    rejected by [validate_input] with the out-of-domain message. *)
Theorem blank_input_is_out_of_domain (q : str) :
  blank q = true ->
  validate_input q = InputVerdict false (Some msg_out_of_domain) None.
Proof.
  intros Hb. rewrite validate_input_cases.
  assert (blank (lower q) = true) as Hbl by now rewrite blank_lower.
  rewrite not_math_related; [reflexivity| | | |].
  - apply any_contains_blank; [vm_compute; reflexivity | exact Hbl].
  - apply any_contains_blank; [vm_compute; reflexivity | exact Hb].
  - now apply blank_digit_free.
  - now apply blank_digit_free.
Qed.

Lemma blank_input_is_out_of_domain_witness :
  blank [space; 9%N; nl] = true /\
  validate_input [space; 9%N; nl] =
    InputVerdict false (Some msg_out_of_domain) None.
Proof.
  split; [reflexivity|].
  apply blank_input_is_out_of_domain. reflexivity.
Defined.

(** ** The shape of a sanitized query *)

Lemma single_spaced_plain (b : bool) (s : str) :
  single_spaced b s = true ->
  forall c, In c s -> is_space c = true -> c = space.
Proof.
  revert b. induction s as [|x s IH]; intros b Hs c Hin Hsp; [destruct Hin|].
  destruct Hin as [<-|Hc].
  - simpl in Hs. rewrite Hsp in Hs.
    apply andb_true_iff in Hs as [Hs _]. apply andb_true_iff in Hs as [Hs _].
    now apply N.eqb_eq in Hs.
  - simpl in Hs. destruct (is_space x).
    + apply andb_true_iff in Hs as [_ Hs]. now apply (IH true).
    + now apply (IH false).
Qed.

Lemma lstrip_length (s : str) : (List.length (lstrip s) <= List.length s)%nat.
Proof.
  induction s as [|c s IH]; simpl; [lia|]. destruct (is_space c); simpl; lia.
Qed.

Lemma strip_length (s : str) : (List.length (strip s) <= List.length s)%nat.
Proof.
  unfold strip, rstrip. rewrite length_rev.
  pose proof (lstrip_length (rev (lstrip s))) as H1.
  pose proof (lstrip_length s) as H2. rewrite length_rev in H1. lia.
Qed.

Lemma sub_spaces_length (b : bool) (s : str) :
  (List.length (sub_spaces b s) <= List.length s)%nat.
Proof.
  revert b. induction s as [|c s IH]; intros b; simpl; [lia|].
  destruct (is_space c); [destruct b|]; simpl;
    try (pose proof (IH true)); try (pose proof (IH false)); lia.
Qed.

Lemma filter_length {A} (p : A -> bool) (l : list A) :
  (List.length (filter p l) <= List.length l)%nat.
Proof.
  induction l as [|a l IH]; simpl; [lia|]. destruct (p a); simpl; lia.
Qed.

(** X15: a verdict of [validate_input] carries a sanitized query
    exactly when it is valid.  That query has none of the characters
    [<>{}], its only whitespace characters are plain spaces, and it is
    no longer than the input; an invalid verdict carries an error
    message instead. *)
Theorem sanitized_query_shape (q : str) :
  match sanitized_query (validate_input q) with
  | Some s =>
      valid (validate_input q) = true /\ error (validate_input q) = None /\
      s = _sanitize_query q /\
      bracket_free s = true /\
      (forall c, In c s -> is_space c = true -> c = space) /\
      (List.length s <= List.length q)%nat
  | None =>
      valid (validate_input q) = false /\ error (validate_input q) <> None
  end.
Proof.
  rewrite validate_input_cases.
  destruct (_is_math_related q); [|simpl; split; [reflexivity | discriminate]].
  destruct (_contains_inappropriate_content q);
    [simpl; split; [reflexivity | discriminate]|].
  simpl. repeat split.
  - apply bracket_free_sanitize.
  - intros c Hc. unfold _sanitize_query, sub_class_empty in Hc.
    apply filter_In in Hc as [Hc _].
    now apply (single_spaced_plain _ _ (sub_spaces_single_spaced false (strip q))).
  - unfold _sanitize_query, sub_class_empty.
    pose proof (filter_length (fun c => negb (one_of (py "<>{}") c))
                  (sub_spaces false (strip q))).
    pose proof (sub_spaces_length false (strip q)).
    pose proof (strip_length q). lia.
Qed.

Lemma sanitized_query_shape_witness :
  sanitized_query (validate_input (py "solve <x>  =  2"))
    = Some (py "solve x = 2") /\
  is_space 9%N = true /\ ~ In 9%N (py "solve x = 2").
Proof.
  assert (sanitized_query (validate_input (py "solve <x>  =  2"))
          = Some (py "solve x = 2")) as E by (vm_compute; reflexivity).
  split; [exact E|]. split; [reflexivity|].
  pose proof (sanitized_query_shape (py "solve <x>  =  2")) as H.
  rewrite E in H. destruct H as (_ & _ & _ & _ & Hsp & _).
  intros Hin. pose proof (Hsp 9%N Hin eq_refl) as Hc.
  vm_compute in Hc. discriminate Hc.
Defined.

(** ** The line filter *)

Lemma lstrip_nil (s : str) : lstrip s = [] <-> blank s = true.
Proof.
  unfold blank. induction s as [|c s IH]; simpl; [tauto|].
  destruct (is_space c); simpl; [exact IH|]. split; discriminate.
Qed.

Lemma strip_nil (s : str) : strip s = [] <-> blank s = true.
Proof.
  rewrite <- lstrip_nil. unfold strip. split.
  - intros H. destruct (lstrip s) as [|c t] eqn:E; [reflexivity|].
    assert (is_space c = false) as Hc.
    { pose proof (head_ok_lstrip s) as Hh. rewrite E in Hh. simpl in Hh.
      now apply negb_true_iff in Hh. }
    rewrite (rstrip_cons _ _ Hc) in H. discriminate.
  - intros ->. reflexivity.
Qed.

Lemma search_class (p : char -> bool) (s : str) (prev : option char) :
  search_from (Class p) prev s = existsb p s.
Proof.
  revert prev. induction s as [|c s IH]; intros prev; [reflexivity|].
  change (search_from (Class p) prev (c :: s))
    with (match match_here (Class p) prev (c :: s) with
          | Some _ => true
          | None => search_from (Class p) (Some c) s
          end).
  unfold match_here. cbn [matches existsb].
  destruct (p c); [reflexivity | apply IH].
Qed.

Lemma blank_existsb (p : char -> bool) (s : str) :
  (forall c, p c = true -> is_space c = false) -> blank s = true ->
  existsb p s = false.
Proof.
  intros Hp Hs. destruct (existsb p s) eqn:E; [|reflexivity].
  apply existsb_exists in E as (c & Hc & Hpc).
  unfold blank in Hs. rewrite forallb_forall in Hs.
  specialize (Hs c Hc). rewrite (Hp c Hpc) in Hs. discriminate.
Qed.

Lemma one_of_not_space (cs : list char) (c : char) :
  forallb (fun x => negb (is_space x)) cs = true ->
  one_of cs c = true -> is_space c = false.
Proof.
  intros Hcs Hc. unfold one_of in Hc. apply existsb_exists in Hc as (x & Hx & E).
  apply N.eqb_eq in E. subst x. rewrite forallb_forall in Hcs.
  now apply negb_true_iff, Hcs.
Qed.

(** The three tests of [_is_educational_line] come to one: the line is
    not blank. *)
Lemma educational_line_not_blank (line : str) :
  _is_educational_line line = negb (blank line).
Proof.
  unfold _is_educational_line.
  destruct (blank line) eqn:B; cbn [negb].
  - unfold search, re_math_char. rewrite search_class.
    rewrite blank_existsb; [| |exact B].
    + rewrite any_contains_blank;
        [|vm_compute; reflexivity | now rewrite blank_lower].
      apply strip_nil in B. now rewrite B.
    + intros c. apply one_of_not_space. vm_compute. reflexivity.
  - assert ((0 <? List.length (strip line))%nat = true) as ->.
    { apply Nat.ltb_lt. destruct (strip line) eqn:E; [|simpl; lia].
      apply strip_nil in E. congruence. }
    destruct (search re_math_char line); [reflexivity|].
    now destruct (any (fun word => contains word (lower line)) _).
Qed.

(** X16: [_is_educational_line] accepts exactly the lines that have a
    character other than whitespace; a math symbol or a connective word
    adds nothing to that. *)
Theorem educational_line_iff_not_blank (line : str) :
  _is_educational_line line = true <->
  exists c, In c line /\ is_space c = false.
Proof.
  rewrite educational_line_not_blank, negb_true_iff. unfold blank. split.
  - intros H. destruct (forallb_forall is_space line) as [_ Hall].
    destruct (existsb (fun c => negb (is_space c)) line) eqn:E.
    + apply existsb_exists in E as (c & Hc & Hn).
      exists c. split; [exact Hc | now apply negb_true_iff].
    + rewrite Hall in H; [discriminate|]. intros c Hc.
      destruct (is_space c) eqn:Es; [reflexivity|].
      assert (existsb (fun c => negb (is_space c)) line = true) as Hex.
      { apply existsb_exists. exists c. now rewrite Es. }
      congruence.
  - intros (c & Hc & Hn). destruct (forallb is_space line) eqn:E; [|reflexivity].
    rewrite forallb_forall in E. rewrite (E c Hc) in Hn. discriminate.
Qed.

Lemma educational_line_iff_not_blank_witness :
  (exists c, In c (py "  ok ") /\ is_space c = false) /\
  _is_educational_line (py "  ok ") = true.
Proof.
  assert (exists c, In c (py "  ok ") /\ is_space c = false) as H.
  { exists 111%N. split; [vm_compute; do 2 right; left; reflexivity
                         | reflexivity]. }
  split; [exact H|].
  exact (proj2 (educational_line_iff_not_blank (py "  ok ")) H).
Defined.

(** ** Lines *)

Lemma split_not_nil (s : str) : split nl s <> [].
Proof.
  destruct s as [|c s]; simpl; [discriminate|].
  destruct (N.eqb c nl); [discriminate|].
  destruct (split nl s); discriminate.
Qed.

Lemma split_cons_line (c : char) (s : str) :
  N.eqb c nl = false ->
  exists l ls, split nl s = l :: ls /\ split nl (c :: s) = (c :: l) :: ls.
Proof.
  intros Hc. simpl. rewrite Hc.
  destruct (split nl s) as [|l ls] eqn:E; [now apply split_not_nil in E|].
  now exists l, ls.
Qed.

Lemma join_cons (p : str) (ps : list str) :
  ps <> [] -> join [nl] (p :: ps) = p ++ nl :: join [nl] ps.
Proof. destruct ps; [congruence | reflexivity]. Qed.

(** Joining the lines of a text gives the text back. *)
Lemma join_split (s : str) : join [nl] (split nl s) = s.
Proof.
  induction s as [|c s IH]; [reflexivity|].
  destruct (N.eqb_spec c nl) as [->|Hne].
  - simpl. pose proof (split_not_nil s) as Hn.
    destruct (split nl s) as [|l ls]; [congruence|].
    simpl in *. now rewrite IH.
  - apply N.eqb_neq in Hne.
    destruct (split_cons_line c s Hne) as (l & ls & E & ->).
    rewrite E in IH. destruct ls; simpl in *; now rewrite IH.
Qed.

Lemma split_one_line (l : str) : one_line l = true -> split nl l = [l].
Proof.
  unfold one_line. induction l as [|c l IH]; [reflexivity|].
  simpl. intros H. apply andb_true_iff in H as [Hc H].
  apply negb_true_iff in Hc. rewrite Hc, (IH H). reflexivity.
Qed.

Lemma split_app_line (l rest : str) :
  one_line l = true -> split nl (l ++ nl :: rest) = l :: split nl rest.
Proof.
  unfold one_line. induction l as [|c l IH]; intros H.
  - reflexivity.
  - simpl in H. apply andb_true_iff in H as [Hc H].
    apply negb_true_iff in Hc. simpl. rewrite Hc, (IH H). reflexivity.
Qed.

(** Splitting the join of lines gives the lines back. *)
Lemma split_join (ls : list str) :
  ls <> [] -> forallb one_line ls = true -> split nl (join [nl] ls) = ls.
Proof.
  induction ls as [|l ls IH]; [congruence|]. intros _ H.
  simpl in H. apply andb_true_iff in H as [Hl H].
  destruct ls as [|l' ls'].
  - simpl. now apply split_one_line.
  - rewrite join_cons; [|discriminate].
    rewrite (split_app_line _ _ Hl). f_equal. apply IH; [discriminate | exact H].
Qed.

Lemma split_lines_one_line (s : str) : forallb one_line (split nl s) = true.
Proof.
  induction s as [|c s IH]; [reflexivity|].
  destruct (N.eqb c nl) eqn:Hc.
  - simpl. rewrite Hc. simpl. exact IH.
  - destruct (split_cons_line c s Hc) as (l & ls & E & ->).
    rewrite E in IH. simpl in *. now rewrite Hc.
Qed.

Lemma forallb_filter {A} (p q : A -> bool) (l : list A) :
  forallb p l = true -> forallb p (filter q l) = true.
Proof.
  rewrite !forallb_forall. intros H a Ha. apply filter_In in Ha. now apply H.
Qed.

Lemma filter_filter {A} (p : A -> bool) (l : list A) :
  filter p (filter p l) = filter p l.
Proof.
  induction l as [|a l IH]; [reflexivity|]. simpl.
  destruct (p a) eqn:E; simpl; rewrite ?E, IH; reflexivity.
Qed.

Lemma filter_response_idempotent (response : str) :
  _filter_response (_filter_response response) = _filter_response response.
Proof.
  unfold _filter_response at 2.
  destruct (filter _is_educational_line (split nl response)) as [|l ls] eqn:E.
  - unfold _filter_response. now rewrite E.
  - unfold _filter_response. rewrite split_join.
    + rewrite <- E, filter_filter, E. reflexivity.
    + discriminate.
    + rewrite <- E. apply forallb_filter, split_lines_one_line.
Qed.

Lemma filter_educational_lines (ls : list str) :
  filter _is_educational_line ls = filter (fun line => negb (blank line)) ls.
Proof. apply filter_ext. intros l. apply educational_line_not_blank. Qed.

Lemma filter_response_lines (response : str) :
  existsb (fun line => negb (blank line)) (split nl response) = true ->
  split nl (_filter_response response) =
    filter (fun line => negb (blank line)) (split nl response).
Proof.
  intros H. unfold _filter_response. rewrite filter_educational_lines.
  destruct (filter (fun line => negb (blank line)) (split nl response))
    as [|l ls] eqn:E.
  - apply existsb_exists in H as (l & Hl & Hb).
    assert (In l (filter (fun line => negb (blank line)) (split nl response)))
      as Hi by (apply filter_In; now split).
    rewrite E in Hi. destruct Hi.
  - rewrite <- E. apply split_join.
    + rewrite E. discriminate.
    + apply forallb_filter, split_lines_one_line.
Qed.

Lemma filter_response_all_blank (response : str) :
  forallb blank (split nl response) = true -> _filter_response response = response.
Proof.
  intros H. unfold _filter_response. rewrite filter_educational_lines.
  destruct (filter (fun line => negb (blank line)) (split nl response))
    as [|l ls] eqn:E; [reflexivity|].
  assert (In l (filter (fun line => negb (blank line)) (split nl response)))
    as Hi by (rewrite E; now left).
  apply filter_In in Hi as [Hi Hb]. rewrite forallb_forall in H.
  rewrite (H l Hi) in Hb. discriminate.
Qed.

(** X17: [_filter_response] removes the blank lines and nothing else.
    When the response has a line that is not blank, the lines of the
    result are the lines of the response that are not blank, in the same
    order; when all its lines are blank, the response comes out as it
    is.  So a response in which no line is blank is unchanged, the
    result is never longer than the response, and filtering a second
    time changes nothing. *)
Theorem filter_response_drops_blank_lines (response : str) :
  (existsb (fun line => negb (blank line)) (split nl response) = true ->
   split nl (_filter_response response) =
     filter (fun line => negb (blank line)) (split nl response)) /\
  (forallb blank (split nl response) = true ->
   _filter_response response = response) /\
  (forallb (fun line => negb (blank line)) (split nl response) = true ->
   _filter_response response = response) /\
  _filter_response (_filter_response response) = _filter_response response /\
  (List.length (_filter_response response) <= List.length response)%nat.
Proof.
  split; [apply filter_response_lines|].
  split; [apply filter_response_all_blank|].
  split; [|split; [apply filter_response_idempotent|]].
  - intros H. unfold _filter_response.
    rewrite filter_all.
    + pose proof (split_not_nil response) as Hn.
      destruct (split nl response) eqn:E; [congruence|].
      rewrite <- E. apply join_split.
    + rewrite forallb_forall in *. intros l Hl.
      rewrite educational_line_not_blank. now apply H.
  - unfold _filter_response.
    destruct (filter _is_educational_line (split nl response)) as [|l ls] eqn:E;
      [lia|].
    rewrite <- E. rewrite <- (join_split response) at 2.
    generalize (split nl response). clear.
    assert (forall (ls : list str),
              List.length (join [nl] (filter _is_educational_line ls))
              <= List.length (join [nl] ls))%nat as Hmain.
    { induction ls as [|l ls IH]; [simpl; lia|].
      assert (forall ps : list str,
                List.length (join [nl] (l :: ps)) =
                match ps with
                | [] => List.length l
                | _ => List.length l + 1 + List.length (join [nl] ps)
                end)%nat as Hj.
      { intros [|p ps]; [reflexivity|].
        rewrite join_cons; [|discriminate]. rewrite length_app. simpl. lia. }
      simpl filter. destruct (_is_educational_line l).
      - rewrite !Hj. destruct (filter _is_educational_line ls) eqn:Ef;
          destruct ls; simpl in *; try lia; try discriminate.
      - rewrite Hj. destruct ls; simpl in *; lia. }
    exact Hmain.
Qed.

Lemma filter_response_drops_blank_lines_witness :
  existsb (fun line => negb (blank line))
    (split nl (py "Step 1" ++ nl :: space :: nl :: py "x = 2")) = true /\
  split nl (_filter_response (py "Step 1" ++ nl :: space :: nl :: py "x = 2")) =
    [py "Step 1"; py "x = 2"] /\
  _filter_response (py "Step 1" ++ nl :: space :: nl :: py "x = 2") =
    py "Step 1" ++ nl :: py "x = 2".
Proof.
  split; [reflexivity|]. split; [|reflexivity].
  rewrite (proj1 (filter_response_drops_blank_lines
                    (py "Step 1" ++ nl :: space :: nl :: py "x = 2")));
    reflexivity.
Defined.

(** ** Markers survive the line filter *)

Lemma lower_char_nl (c : char) : N.eqb (lower_char c) nl = N.eqb c nl.
Proof.
  unfold lower_char. destruct (is_upper c) eqn:E; [|reflexivity].
  unfold is_upper in E. apply andb_true_iff in E as [H1 H2].
  apply N.leb_le in H1, H2. unfold nl.
  destruct (N.eqb_spec (c + 32) 10), (N.eqb_spec c 10); try reflexivity; lia.
Qed.

Lemma lower_split (s : str) : split nl (lower s) = List.map lower (split nl s).
Proof.
  induction s as [|c s IH]; [reflexivity|].
  change (lower (c :: s)) with (lower_char c :: lower s).
  simpl split. rewrite lower_char_nl, IH.
  destruct (N.eqb c nl); [reflexivity|].
  now destruct (split nl s).
Qed.

Lemma lower_join (ls : list str) :
  lower (join [nl] ls) = join [nl] (List.map lower ls).
Proof.
  induction ls as [|l ls IH]; [reflexivity|].
  destruct ls as [|l' ls']; [reflexivity|].
  rewrite join_cons; [|discriminate].
  change (List.map lower (l :: l' :: ls'))
    with (lower l :: List.map lower (l' :: ls')).
  rewrite (join_cons (lower l) (List.map lower (l' :: ls')));
    [|simpl; discriminate].
  rewrite <- IH. unfold lower. rewrite map_app. reflexivity.
Qed.

Lemma contains_unfold (w : str) (c : char) (s : str) :
  contains w (c :: s) = startswith w (c :: s) || contains w s.
Proof. reflexivity. Qed.

Lemma startswith_contains (w s : str) :
  startswith w s = true -> contains w s = true.
Proof. destruct s; simpl; intros ->; reflexivity. Qed.

Lemma startswith_app (w a b : str) :
  startswith w a = true -> startswith w (a ++ b) = true.
Proof.
  revert a. induction w as [|x w IH]; intros a; [reflexivity|].
  destruct a as [|c a]; simpl; [discriminate|].
  destruct (N.eqb x c); [apply IH | discriminate].
Qed.

Lemma contains_app_l (w a b : str) :
  contains w a = true -> contains w (a ++ b) = true.
Proof.
  induction a as [|c a IH].
  - simpl. rewrite orb_false_r. intros H.
    destruct w; [|discriminate]. now destruct b.
  - rewrite <- app_comm_cons, !contains_unfold. intros H.
    apply orb_true_iff in H as [H|H].
    + pose proof (startswith_app _ _ b H) as H'.
      rewrite <- app_comm_cons in H'. now rewrite H'.
    + rewrite (IH H). apply orb_true_r.
Qed.

Lemma contains_app_r (w a b : str) :
  contains w b = true -> contains w (a ++ b) = true.
Proof.
  intros H. induction a as [|c a IH]; [exact H|].
  rewrite <- app_comm_cons, contains_unfold, IH. apply orb_true_r.
Qed.

Lemma contains_join (w line : str) (ls : list str) :
  In line ls -> contains w line = true -> contains w (join [nl] ls) = true.
Proof.
  intros Hin Hw. induction ls as [|l ls IH]; [destruct Hin|].
  destruct ls as [|l' ls'].
  - destruct Hin as [->|[]]. exact Hw.
  - rewrite join_cons; [|discriminate]. destruct Hin as [->|Hin].
    + now apply contains_app_l.
    + apply contains_app_r. rewrite contains_unfold.
      rewrite (IH Hin). apply orb_true_r.
Qed.

(** A word without a line break that starts a text starts its first
    line. *)
Lemma startswith_first_line (w s : str) :
  one_line w = true -> startswith w s = true ->
  exists l ls, split nl s = l :: ls /\ startswith w l = true.
Proof.
  unfold one_line. revert s. induction w as [|x w IH]; intros s Hw Hs.
  - pose proof (split_not_nil s) as Hn.
    destruct (split nl s) as [|l ls]; [congruence|]. now exists l, ls.
  - simpl in Hw. apply andb_true_iff in Hw as [Hx Hw].
    apply negb_true_iff in Hx.
    destruct s as [|c s]; [discriminate|]. simpl in Hs.
    destruct (N.eqb_spec x c) as [->|]; [|discriminate].
    destruct (IH s Hw Hs) as (l & ls & E & Hl).
    destruct (split_cons_line c s Hx) as (l1 & ls1 & E1 & ->).
    rewrite E in E1. injection E1 as <- <-.
    exists (c :: l), ls. split; [reflexivity|]. simpl. now rewrite N.eqb_refl.
Qed.

(** A word without a line break that occurs in a text occurs in one of
    its lines. *)
Lemma contains_in_a_line (w s : str) :
  solid w = true -> one_line w = true -> contains w s = true ->
  exists line, In line (split nl s) /\ contains w line = true.
Proof.
  intros Hsolid Hw. induction s as [|c s IH]; intros H.
  - destruct w; discriminate.
  - rewrite contains_unfold in H. apply orb_true_iff in H as [H|H].
    + destruct (startswith_first_line _ _ Hw H) as (l & ls & E & Hl).
      exists l. rewrite E. split; [now left | now apply startswith_contains].
    + destruct (IH H) as (line & Hin & Hline).
      destruct (N.eqb c nl) eqn:Hc.
      * exists line. simpl. rewrite Hc. split; [now right | exact Hline].
      * destruct (split_cons_line c s Hc) as (l & ls & E & ->).
        rewrite E in Hin. destruct Hin as [<-|Hin].
        -- exists (c :: l). split; [now left|].
           rewrite contains_unfold, Hline. apply orb_true_r.
        -- exists line. split; [now right | exact Hline].
Qed.

Lemma contains_solid_not_blank (w s : str) :
  solid w = true -> contains w (lower s) = true -> blank s = false.
Proof.
  intros Hw Hc. destruct (blank s) eqn:B; [|reflexivity].
  rewrite <- blank_lower in B.
  rewrite (blank_contains_no_solid _ _ Hw B) in Hc. discriminate.
Qed.

(** The line filter keeps every occurrence of a word, whatever its
    case. *)
Lemma filter_keeps_word (w response : str) :
  solid w = true -> one_line w = true ->
  contains w (lower response) = true ->
  contains w (lower (_filter_response response)) = true.
Proof.
  intros Hsolid Hw Hc. unfold _filter_response.
  destruct (filter _is_educational_line (split nl response)) as [|k ks] eqn:E;
    [exact Hc|].
  rewrite <- E, lower_join.
  destruct (contains_in_a_line _ _ Hsolid Hw Hc) as (line' & Hin & Hline).
  rewrite lower_split in Hin. apply in_map_iff in Hin as (line & <- & Hin).
  apply (contains_join _ (lower line)); [|exact Hline].
  apply in_map, filter_In. split; [exact Hin|].
  rewrite educational_line_not_blank.
  now rewrite (contains_solid_not_blank _ _ Hsolid Hline).
Qed.

Lemma filter_keeps_marker (response : str) :
  _is_educational_response response = true ->
  _is_educational_response (_filter_response response) = true.
Proof.
  unfold _is_educational_response, any. rewrite !existsb_exists.
  intros (marker & Hin & Hc). exists marker. split; [exact Hin|].
  assert (forallb (fun w => solid w && one_line w) educational_markers = true)
    as Hall by (vm_compute; reflexivity).
  rewrite forallb_forall in Hall. specialize (Hall marker Hin).
  apply andb_true_iff in Hall as [Hsolid Hline].
  now apply filter_keeps_word.
Qed.

(** X18: validating an output twice changes nothing: the text a verdict
    of [validate_output] carries gets the very same verdict, filtered
    text and confidence included. *)
Theorem validate_output_idempotent (response : str) :
  validate_output (filtered_response (validate_output response)) =
    validate_output response.
Proof.
  destruct (_is_educational_response response) eqn:E.
  - assert (validate_output response =
            OutputVerdict true (_filter_response response)
              (_calculate_confidence (_filter_response response))) as Hv
      by (unfold validate_output; now rewrite E).
    rewrite Hv. cbn [filtered_response]. unfold validate_output.
    rewrite (filter_keeps_marker _ E), filter_response_idempotent. reflexivity.
  - assert (validate_output response =
            OutputVerdict false (py msg_not_educational) 0.0%Q) as Hv
      by (unfold validate_output; now rewrite E).
    rewrite Hv. vm_compute. reflexivity.
Qed.

(** X19: a response in which the word "step" occurs, in any case, is
    valid and gets a confidence of at least 0.2. *)
Theorem step_gives_confidence (response : str) :
  contains (py "step") (lower response) = true ->
  out_valid (validate_output response) = true /\
  (0.2 <= confidence (validate_output response))%Q.
Proof.
  intros Hstep.
  assert (_is_educational_response response = true) as Hedu.
  { unfold _is_educational_response, any. apply existsb_exists.
    exists (py "step"). split; [now left | exact Hstep]. }
  unfold validate_output. rewrite Hedu. simpl. split; [reflexivity|].
  assert (contains (py "step") (lower (_filter_response response)) = true)
    as Hkept by (apply filter_keeps_word; [reflexivity | reflexivity | exact Hstep]).
  rewrite calculate_confidence_eq. unfold raw_confidence. rewrite Hkept.
  pose proof (of_nat_nonneg (symbol_count (_filter_response response))) as Hs.
  pose proof (of_nat_nonneg (term_count (_filter_response response))) as Ht.
  set (text := _filter_response response) in *.
  unfold bonus.
  destruct (Q.min_spec (of_nat (symbol_count text) * 0.1) 0.3) as [[_ ->]|[_ ->]];
  destruct (Q.min_spec (of_nat (term_count text) * 0.1) 0.3) as [[_ ->]|[_ ->]];
  destruct (100 <? List.length text)%nat;
  match goal with
  | |- (_ <= Qmin 1 ?x)%Q =>
      destruct (Q.min_spec 1 x) as [[_ ->]|[_ ->]]
  end; lra.
Qed.

Lemma step_gives_confidence_witness :
  contains (py "step") (lower (py "Step 1: add 2")) = true /\
  out_valid (validate_output (py "Step 1: add 2")) = true /\
  (0.2 <= confidence (validate_output (py "Step 1: add 2")))%Q.
Proof.
  split; [reflexivity|].
  apply step_gives_confidence. reflexivity.
Defined.

End GateExtras.

(* ================================================================== *)
(** * Properties of the request validators and the model manager *)
(* ================================================================== *)

Module BoundaryExtras.

Import PyStr Py Re AIGateway GateSpec GateExtraSpec SolveRequest.
Import DictSpec DictFacts GateProperties GateExtras.

Lemma strip_strip (s : str) : strip (strip s) = strip s.
Proof. destruct (strip_ends s) as [Hh Hl]. now apply strip_fixed. Qed.

Lemma validate_question_cases (v : str) :
  validate_question v =
    if is_empty (strip v) then ValueError "Question cannot be empty"
    else if (List.length (strip v) <? 3)%nat then ValueError "Question too short"
    else if (1000 <? List.length (strip v))%nat
         then ValueError "Question too long (max 1000 characters)"
         else Accepted (strip v).
Proof.
  unfold validate_question. destruct v as [|c v]; reflexivity.
Qed.

Lemma validate_question_accepted (v q : str) :
  validate_question v = Accepted q <->
  q = strip v /\ (3 <= List.length q <= 1000)%nat.
Proof.
  rewrite validate_question_cases.
  destruct (strip v) as [|c s] eqn:E.
  - simpl. split; [discriminate|]. intros [-> H]. simpl in H. lia.
  - cbn [is_empty].
    destruct (Nat.ltb_spec (List.length (c :: s)) 3);
      [split; [discriminate | intros [-> H']; lia]|].
    destruct (Nat.ltb_spec 1000 (List.length (c :: s)));
      [split; [discriminate | intros [-> H']; lia]|].
    split; [intros [= <-]; split; [reflexivity | lia]
           | intros [-> _]; reflexivity].
Qed.

(** X20: [validate_question] accepts a question exactly when its
    stripped text has between 3 and 1000 characters, and then returns
    that stripped text; the accepted text is accepted again unchanged,
    and the gate's own [strip] leaves it as it is.  An empty or blank
    question is refused as empty. *)
Theorem validate_question_accepts_stripped (v : str) :
  (forall q, validate_question v = Accepted q <->
     q = strip v /\ (3 <= List.length q <= 1000)%nat) /\
  (forall q, validate_question v = Accepted q ->
     validate_question q = Accepted q /\ strip q = q /\
     _sanitize_query q = sub_class_empty (py "<>{}") (sub_spaces false q)) /\
  (blank v = true ->
     validate_question v = ValueError "Question cannot be empty").
Proof.
  split; [intros q; apply validate_question_accepted|]. split.
  - intros q Hq. apply validate_question_accepted in Hq as [-> Hlen].
    split; [|split].
    + apply validate_question_accepted. rewrite strip_strip. now split.
    + apply strip_strip.
    + unfold _sanitize_query. now rewrite strip_strip.
  - intros Hb. rewrite validate_question_cases.
    apply strip_nil in Hb. now rewrite Hb.
Qed.

Lemma validate_question_accepts_stripped_witness :
  validate_question (py "  2+2  ") = Accepted (py "2+2") /\
  validate_question (py "2+2") = Accepted (py "2+2") /\
  strip (py "2+2") = py "2+2".
Proof.
  assert (validate_question (py "  2+2  ") = Accepted (py "2+2")) as H
    by reflexivity.
  split; [exact H|].
  destruct (proj1 (proj2 (validate_question_accepts_stripped (py "  2+2  ")))
              (py "2+2") H) as (H1 & H2 & _).
  split; assumption.
Defined.

(** ** The model manager *)

Import ModelManager ManagerSpec.

Lemma apply_switch_ok (self : ModelManager.t) (op : switch) :
  manager_ok self -> manager_ok (apply_switch self op).
Proof.
  intros (He & Hl & Hce & Hcl). destruct op as [name|name]; simpl.
  - unfold switch_embedding_model.
    destruct (mem name (embedding_models self)) eqn:E; simpl;
      repeat split; auto.
  - unfold switch_llm_model.
    destruct (mem name (llm_models self)) eqn:E; simpl; repeat split; auto.
Qed.

Lemma after_ok (ops : list switch) : manager_ok (after ops).
Proof.
  unfold after.
  assert (forall self, manager_ok self ->
            manager_ok (fold_left apply_switch ops self)) as H.
  { induction ops as [|op ops IH]; intros self Hself; simpl; [exact Hself|].
    apply IH. now apply apply_switch_ok. }
  apply H. repeat split.
Qed.

Lemma subscript_mem {V} (d : dict (K:=str) V) (k : str) :
  mem k d = true -> exists v, subscript d k = Return v /\ In (k, v) d.
Proof.
  unfold mem, subscript. destruct (get_item k d) as [v|] eqn:E; [|discriminate].
  intros _. exists v. split; [reflexivity | now apply get_item_In].
Qed.

(** X21: after any sequence of switch calls on a new [ModelManager],
    [get_embedding_model] and [get_llm_model] never raise and answer
    with a registered model, for any argument; a switch answers [True]
    exactly for a registered name, after which the getter without
    argument gives that name's model, and a refused switch leaves the
    object as it was. *)
Theorem model_manager_stays_consistent
    (ops : list switch) (model_name : option str) (name : str) :
  let self := after ops in
  (exists model,
     get_embedding_model self model_name = Return model /\
     In model (values (embedding_models init))) /\
  (exists model,
     get_llm_model self model_name = Return model /\
     In model (values (llm_models init))) /\
  (fst (switch_embedding_model self name) = mem name (embedding_models init)) /\
  (fst (switch_llm_model self name) = mem name (llm_models init)) /\
  (fst (switch_embedding_model self name) = true ->
     get_embedding_model (snd (switch_embedding_model self name)) None =
       subscript (embedding_models init) name) /\
  (fst (switch_llm_model self name) = true ->
     get_llm_model (snd (switch_llm_model self name)) None =
       subscript (llm_models init) name) /\
  (fst (switch_embedding_model self name) = false ->
     snd (switch_embedding_model self name) = self) /\
  (fst (switch_llm_model self name) = false ->
     snd (switch_llm_model self name) = self).
Proof.
  intros self. destruct (after_ok ops) as (He & Hl & Hce & Hcl).
  fold self in He, Hl, Hce, Hcl.
  assert (forall {V} (d : dict (K:=str) V) k v, In (k, v) d -> In v (values d))
    as Hval.
  { intros V d k v Hi. unfold values. now apply (in_map snd) in Hi. }
  repeat split.
  - unfold get_embedding_model.
    destruct (given model_name && mem (name_of model_name) (embedding_models self))
      eqn:E.
    + apply andb_true_iff in E as [_ E].
      destruct (subscript_mem _ _ E) as (v & Hs & Hi).
      exists v. split; [exact Hs|]. rewrite <- He. now apply Hval in Hi.
    + destruct (subscript_mem _ _ Hce) as (v & Hs & Hi).
      exists v. split; [exact Hs|]. rewrite <- He. now apply Hval in Hi.
  - unfold get_llm_model.
    destruct (given model_name && mem (name_of model_name) (llm_models self))
      eqn:E.
    + apply andb_true_iff in E as [_ E].
      destruct (subscript_mem _ _ E) as (v & Hs & Hi).
      exists v. split; [exact Hs|]. rewrite <- Hl. now apply Hval in Hi.
    + destruct (subscript_mem _ _ Hcl) as (v & Hs & Hi).
      exists v. split; [exact Hs|]. rewrite <- Hl. now apply Hval in Hi.
  - unfold switch_embedding_model. rewrite <- He.
    now destruct (mem name (embedding_models self)).
  - unfold switch_llm_model. rewrite <- Hl.
    now destruct (mem name (llm_models self)).
  - unfold switch_embedding_model.
    destruct (mem name (embedding_models self)) eqn:E; [|discriminate].
    intros _. simpl. unfold get_embedding_model. simpl. now rewrite He.
  - unfold switch_llm_model.
    destruct (mem name (llm_models self)) eqn:E; [|discriminate].
    intros _. simpl. unfold get_llm_model. simpl. now rewrite Hl.
  - unfold switch_embedding_model.
    now destruct (mem name (embedding_models self)).
  - unfold switch_llm_model. now destruct (mem name (llm_models self)).
Qed.

Lemma model_manager_stays_consistent_witness :
  fst (switch_llm_model (after [SwitchLlm (py "gpt")]) (py "mistral")) = true /\
  get_llm_model
    (snd (switch_llm_model (after [SwitchLlm (py "gpt")]) (py "mistral"))) None =
    Return (py "mistral:7b").
Proof.
  assert (fst (switch_llm_model (after [SwitchLlm (py "gpt")]) (py "mistral"))
          = true) as H by reflexivity.
  split; [exact H|].
  destruct (model_manager_stays_consistent [SwitchLlm (py "gpt")] None
              (py "mistral")) as (_ & _ & _ & _ & _ & Hget & _).
  rewrite (Hget H). reflexivity.
Defined.

End BoundaryExtras.
